(** * SpeciesEvolver: ledgers, identifier allocation and the record

    A shallow embedding of
    [landlab/components/species_evolution/species_evolution.py].

    Python objects (zones, species, zone managers) are references with
    identity; dictionaries of columns are records of lists; the insertion
    ordered [_record] is an association list; the registry [_species_ids] is
    a finite map.  Methods of [SpeciesEvolver] are computations in a state
    and exception monad in which a raised exception carries the state at the
    moment of the raise, since Python does not roll back mutations. *)

From Stdlib Require Import ZArith String Ascii List Lia.
From stdpp Require Import base option list sorting gmap strings.

Open Scope string_scope.
Open Scope Z_scope.
Open Scope list_scope.

(** ** Python values used by the component *)

(** Numbers held in the record and in the time columns.  [np.nan] is the
    missing-value sentinel; finite numbers are Python integers.  Times given
    as Python floats are not covered: what a property needs of the sum of a
    time and a step, it states of the sum. *)
Inductive scalar : Type :=
| NaN
| Num (z : Z).

#[global] Instance scalar_eq_dec : EqDecision scalar.
Proof. solve_decision. Defined.

(** [a <= b], [a >= b], [a > b], [a < b] and [a + b] on numbers: every
    comparison with NaN is false and NaN is absorbing for addition. *)
Definition py_le (a b : scalar) : bool :=
  match a, b with
  | Num x, Num y => x <=? y
  | _, _ => false
  end.

Definition py_ge (a b : scalar) : bool := py_le b a.

Definition py_lt (a b : scalar) : bool :=
  match a, b with
  | Num x, Num y => x <? y
  | _, _ => false
  end.

Definition py_gt (a b : scalar) : bool := py_lt b a.

Definition py_add (a b : scalar) : scalar :=
  match a, b with
  | Num x, Num y => Num (x + y)
  | _, _ => NaN
  end.

(** Exceptions.  [Exception] and [TypeError] carry the message of the
    [raise] statement.  [LoopBound] is not a Python exception: it marks the
    exhaustion of the iteration bound of the model of a [while] loop. *)
Inductive exn : Type :=
| Exception (msg : string)
| TypeError (msg : string)
| KeyError
| IndexError
| ValueError
| AttributeError
| LoopBound.

#[global] Instance exn_eq_dec : EqDecision exn.
Proof. solve_decision. Defined.

(** ** State and exception monad *)

Inductive result (S A : Type) : Type :=
| Ok (a : A) (s : S)
| Raise (e : exn) (s : S).

Arguments Ok {S A} a s.
Arguments Raise {S A} e s.

Definition M (S A : Type) : Type := S → result S A.

#[global] Instance M_ret {S} : MRet (M S) := fun A a s => Ok a s.

#[global] Instance M_bind {S} : MBind (M S) := fun A B k m s =>
  match m s with
  | Ok a s' => k a s'
  | Raise e s' => Raise e s'
  end.

Definition raise {S A} (e : exn) : M S A := fun s => Raise e s.
Definition gets {S A} (f : S → A) : M S A := fun s => Ok (f s) s.
Definition modify {S} (f : S → S) : M S unit := fun s => Ok tt (f s).

(** Runs a computation on a component [T] of the state [S]. *)
Definition zoom {S T A} (proj : S → T) (upd : T → S → S) (m : M T A) : M S A :=
  fun s => match m (proj s) with
           | Ok a t => Ok a (upd t s)
           | Raise e t => Raise e (upd t s)
           end.

(** The outcome of a computation, with [f] applied to its final state. *)
Definition map_state {S A} (f : S → S) (r : result S A) : result S A :=
  match r with
  | Ok a s => Ok a (f s)
  | Raise e s => Raise e (f s)
  end.

(** The final state of an outcome. *)
Definition final_state {S A} (r : result S A) : S :=
  match r with
  | Ok _ s => s
  | Raise _ s => s
  end.

(** [m] neither reads nor overwrites what [f] writes. *)
Definition commutes {S A} (f : S → S) (m : M S A) : Prop :=
  ∀ s, m (f s) = map_state f (m s).

(** [m] leaves the component [proj] of the state as it was, also when it
    raises. *)
Definition preserves {S T A} (proj : S → T) (m : M S A) : Prop :=
  ∀ s, proj (final_state (m s)) = proj s.

(** [for x in xs: body x] *)
Fixpoint for_each {S A} (xs : list A) (body : A → M S unit) : M S unit :=
  match xs with
  | [] => mret tt
  | x :: xs' => body x;; for_each xs' body
  end.

(** ** The identifier allocator *)

Module Allocator.

(** [self._species_ids]: clade name to [None] (no number issued yet) or the
    greatest species number issued.  Only membership of the keys is used by
    the code, so their order is not modelled. *)
Abbreviation registry := (gmap string (option Z)).

(** [string.ascii_uppercase] *)
Definition ascii_uppercase : string := "ABCDEFGHIJKLMNOPQRSTUVWXYZ".

(** Iterating over a string yields its characters as strings of length 1. *)
Fixpoint chars (s : string) : list string :=
  match s with
  | EmptyString => []
  | String c s' => String c EmptyString :: chars s'
  end.

(** [itertools.product(s, repeat=n)]: the tuples in lexicographic order, the
    leftmost position varying slowest. *)
Fixpoint product (s : list string) (repeat : nat) : list (list string) :=
  match repeat with
  | O => [[]]
  | S n => c ← s; (fun t => c :: t) <$> product s n
  end%list.

(** [''.join(t)] *)
Definition join (t : list string) : string := foldr String.append "" t.

(** [np.unique]: sorted, without duplicates. *)
Fixpoint insert_sorted (x : string) (l : list string) : list string :=
  match l with
  | [] => [x]
  | y :: l' =>
      match String.compare x y with
      | Lt => x :: l
      | Eq => l
      | Gt => y :: insert_sorted x l'
      end
  end.

Definition np_unique (l : list string) : list string := foldr insert_sorted [] l.

(** [np.setdiff1d(ar1, ar2)]: the sorted unique values of [ar1] that are not
    in [ar2]. *)
Definition np_setdiff1d (ar1 ar2 : list string) : list string :=
  filter (fun x => x ∉ ar2) (np_unique ar1).

(** The [while len(potential_name) == 0] loop, bounded by [fuel]. *)
Fixpoint while_no_potential_name (fuel size : nat) (used_name potential_name : list string)
  : option string :=
  match potential_name with
  | clade_name :: _ => Some clade_name
  | [] =>
      match fuel with
      | O => None
      | S fuel' =>
          let a := join <$> product (chars ascii_uppercase) size in
          while_no_potential_name fuel' (S size) used_name (np_setdiff1d a used_name)
      end
  end.

(** [list(self._species_ids.keys())] *)
Definition used_names (ids : registry) : list string := (map_to_list ids).*1.

(** The loop is given two iterations more than there are used names, which
    is enough for it to end ([get_unused_clade_name_fresh] below). *)
Definition _get_unused_clade_name : M registry string :=
  fun ids =>
    let alphabet := chars ascii_uppercase in
    let used_name := used_names ids in
    let potential_name := np_setdiff1d alphabet used_name in
    match while_no_potential_name (S (S (length used_name))) 1 used_name potential_name with
    | Some clade_name => Ok clade_name (<[clade_name := None]> ids)
    | None => Raise LoopBound ids
    end.

(** [self._species_ids[clade_name]] raises [KeyError] on a name that is not
    a key. *)
Definition _get_unused_species_id (clade_name : string) : M registry (string * Z) :=
  fun ids =>
    match ids !! clade_name with
    | None => Raise KeyError ids
    | Some None => Ok (clade_name, 0) (<[clade_name := Some 0]> ids)
    | Some (Some n) => Ok (clade_name, n + 1) (<[clade_name := Some (n + 1)]> ids)
    end.

(** A client of one allocator instance: a sequence of calls, each answered
    by a clade name, an identifier or an exception; a caller that catches an
    exception goes on with the registry as the failed call left it. *)
Inductive op : Type :=
| AllocateClade
| AllocateSpecies (clade_name : string).

Inductive event : Type :=
| Named (clade_name : string)
| Issued (sid : string * Z)
| Failed (e : exn).

Definition step (o : op) (ids : registry) : event * registry :=
  match o with
  | AllocateClade =>
      match _get_unused_clade_name ids with
      | Ok c ids' => (Named c, ids')
      | Raise e ids' => (Failed e, ids')
      end
  | AllocateSpecies c =>
      match _get_unused_species_id c ids with
      | Ok sid ids' => (Issued sid, ids')
      | Raise e ids' => (Failed e, ids')
      end
  end.

Fixpoint run (ops : list op) (ids : registry) : list event * registry :=
  match ops with
  | [] => ([], ids)
  | o :: ops' =>
      let '(ev, ids') := step o ids in
      let '(evs, ids'') := run ops' ids' in
      (ev :: evs, ids'')
  end.

(** The identifiers issued in a trace, and those of one clade. *)
Definition issued (evs : list event) : list (string * Z) :=
  omap (fun ev => match ev with Issued sid => Some sid | _ => None end) evs.

Definition issued_for (c : string) (evs : list event) : list (string * Z) :=
  filter (fun sid => sid.1 = c) (issued evs).

(** The two-letter names, in the order of [product]. *)
Definition two_letter_names : list string :=
  join <$> product (chars ascii_uppercase) 2.

(** A name of every length: the first letter repeated. *)
Definition repeated_A (k : nat) : string := join (replicate k "A").

(** The number the next identifier of clade [c] will carry. *)
Definition next_number (c : string) (ids : registry) : Z :=
  match ids !! c with
  | Some (Some m) => m + 1
  | _ => 0
  end.

(** A registry in which the letters, AA and AB are taken. *)
Definition letters_and_two : registry :=
  list_to_map ((fun c => (c, None)) <$> (chars ascii_uppercase ++ ["AA"; "AB"])).

End Allocator.

(** ** Objects and collaborators *)

(** An object reference: zones, species and zone managers are compared by
    identity ([==] and [hash] are the defaults of [object]). *)
Definition ref : Type := nat.

Module Species.

(** Modelled from the spec: the [Species] class (species.py) is not among the
    sources.  A species "carries an identifier [(clade, number)] assigned
    exactly once, a back-reference to its parent species (or none), the set
    of zones it currently occupies, and a post-evolution boolean extant
    flag".  [identifier] reads the slot [_identifier] and [clade] is its
    first element, which fails on a species without identifier. *)
Record t : Type := mk {
  _identifier : option (string * Z);
  parent_species : option ref;
  extant : bool;
  _zones : list ref
}.

Definition identifier (s : t) : option (string * Z) := _identifier s.

Definition clade (s : t) : option string := fst <$> _identifier s.

Definition set_identifier (sid : string * Z) (s : t) : t :=
  mk (Some sid) (parent_species s) (extant s) (_zones s).

End Species.

Module Zone.

(** Modelled from the spec: the [Zone] class (zone.py) is not among the
    sources.  "A zone carries a back-reference to the provider that produced
    it." *)
Record t : Type := mk { _manager : ref }.

End Zone.

(** The objects reachable from the component, and the state [env] private to
    the collaborators (the grid and whatever the zone managers and species
    keep). *)
Record World (Env : Type) : Type := mkWorld {
  species_at : ref → Species.t;
  zone_at : ref → Zone.t;
  env : Env
}.

Arguments mkWorld {Env} _ _ _.
Arguments species_at {Env} _ _.
Arguments zone_at {Env} _ _.
Arguments env {Env} _.

(** [defaultdict(float)]: the contributions of one tick, in insertion
    order. *)
Definition add_on : Type := list (string * scalar).

(** The delegated behaviour: [ZoneManager._create_zones],
    [ZoneManager._update_paths] and [Species._evolve].  Each runs on the
    world, may raise, and the last two receive the accumulator [add_on] and
    hand it back as they left it. *)
Class Collaborators (Env : Type) : Type := {
  _create_zones : ref → M (World Env) (list ref);
  _update_paths : ref → scalar → list ref → list ref → add_on →
                  M (World Env) (list ref * add_on);
  _evolve : ref → scalar → scalar → add_on → M (World Env) (list ref * add_on)
}.

(** Python sets of objects.  A set is given by its elements in iteration
    order; that order depends on the hashes of the objects, which derive from
    their addresses, so it is a parameter of the model. *)
Definition pyset : Type := list ref.

Class SetOrder : Type := {
  py_set : list ref → pyset;
  pyset_intersection : pyset → pyset → pyset;
  pyset_difference : pyset → pyset → pyset;
  py_set_NoDup : ∀ l, NoDup (py_set l);
  py_set_elem : ∀ x l, x ∈ py_set l ↔ x ∈ l;
  pyset_intersection_NoDup : ∀ a b, NoDup (pyset_intersection a b);
  pyset_intersection_elem : ∀ x a b, x ∈ pyset_intersection a b ↔ x ∈ a ∧ x ∈ b;
  pyset_difference_NoDup : ∀ a b, NoDup (pyset_difference a b);
  pyset_difference_elem : ∀ x a b, x ∈ pyset_difference a b ↔ x ∈ a ∧ x ∉ b
}.

(** Two iteration orders: first occurrence first, and greatest reference
    first. *)
#[export] Program Instance stable_order : SetOrder := {|
  py_set l := remove_dups l;
  pyset_intersection a b := list_intersection (remove_dups a) b;
  pyset_difference a b := list_difference (remove_dups a) b
|}.
Next Obligation. apply NoDup_remove_dups. Qed.
Next Obligation. intros; apply elem_of_remove_dups. Qed.
Next Obligation. intros; apply NoDup_list_intersection, NoDup_remove_dups. Qed.
Next Obligation.
  intros; rewrite list_elem_of_intersection, elem_of_remove_dups; tauto.
Qed.
Next Obligation. intros; apply NoDup_list_difference, NoDup_remove_dups. Qed.
Next Obligation.
  intros; rewrite list_elem_of_difference, elem_of_remove_dups; tauto.
Qed.

Definition ref_ge (x y : ref) : Prop := (y ≤ x)%nat.

#[global] Instance ref_ge_dec : RelDecision ref_ge.
Proof. intros x y. unfold ref_ge. apply _. Defined.

Program Definition descending_order : SetOrder := {|
  py_set l := merge_sort ref_ge (remove_dups l);
  pyset_intersection a b :=
    merge_sort ref_ge (list_intersection (remove_dups a) b);
  pyset_difference a b :=
    merge_sort ref_ge (list_difference (remove_dups a) b)
|}.
Next Obligation. intros; rewrite merge_sort_Permutation; apply NoDup_remove_dups. Qed.
Next Obligation. intros; rewrite merge_sort_Permutation; apply elem_of_remove_dups. Qed.
Next Obligation.
  intros; rewrite merge_sort_Permutation;
    apply NoDup_list_intersection, NoDup_remove_dups.
Qed.
Next Obligation.
  intros; rewrite merge_sort_Permutation, list_elem_of_intersection,
    elem_of_remove_dups; tauto.
Qed.
Next Obligation.
  intros; rewrite merge_sort_Permutation;
    apply NoDup_list_difference, NoDup_remove_dups.
Qed.
Next Obligation.
  intros; rewrite merge_sort_Permutation, list_elem_of_difference,
    elem_of_remove_dups; tauto.
Qed.

(** ** Python lists and numpy arrays *)

(** [max(l)]: keeps the first element unless a later one compares greater;
    [ValueError] on the empty list. *)
Definition py_max (l : list scalar) : option scalar :=
  match l with
  | [] => None
  | x :: l' => Some (foldl (fun m y => if py_gt y m then y else m) x l')
  end.

(** [sorted(l)], by insertion with [<].  Exact on lists without NaN, where
    all sorting algorithms agree. *)
Fixpoint py_insort (x : scalar) (l : list scalar) : list scalar :=
  match l with
  | [] => [x]
  | y :: l' => if py_lt x y then x :: l else y :: py_insort x l'
  end.

Definition py_sorted (l : list scalar) : list scalar :=
  foldl (fun acc x => py_insort x acc) [] l.

(** [l.index(x)]: position of the first occurrence. *)
Fixpoint py_index (x : ref) (l : list ref) : option nat :=
  match l with
  | [] => None
  | y :: l' => if decide (x = y) then Some O else S <$> py_index x l'
  end.

(** [l[i] = v] raises [IndexError] out of range. *)
Definition py_setitem {A} (i : nat) (v : A) (l : list A) : option (list A) :=
  if decide (i < length l)%nat then Some (<[i := v]> l) else None.

(** [np.all([a, b], 0)]: the element-wise conjunction of two arrays of the
    same shape. *)
Definition np_all2 (a b : list bool) : option (list bool) :=
  if decide (length a = length b) then Some (zip_with andb a b) else None.

(** [arr[mask]] with a boolean mask of the shape of [arr]. *)
Fixpoint select {A} (arr : list A) (mask : list bool) : list A :=
  match arr, mask with
  | x :: arr', b :: mask' => if b then x :: select arr' mask' else select arr' mask'
  | _, _ => []
  end.

Definition np_mask {A} (arr : list A) (mask : list bool) : option (list A) :=
  if decide (length arr = length mask) then Some (select arr mask) else None.

(** *** Arrays of times

    [np.array] of a list of times, as NumPy 1.x builds it where a C long has
    64 bits.  A Python integer is an [int64] when it fits, a [uint64] when it
    is at least 2^63 and fits, and is kept as a Python object otherwise;
    [np.nan] is a [float64].  The array has the common type of its elements:
    signed together with unsigned integers give [float64], and so does any
    integer together with [np.nan].  The empty list gives an empty [float64]
    array. *)
Inductive dtype : Type :=
| Int64
| UInt64
| Float64
| Object.

Definition int_dtype (z : Z) : dtype :=
  if decide (- 2 ^ 63 ≤ z < 2 ^ 63) then Int64
  else if decide (2 ^ 63 ≤ z < 2 ^ 64) then UInt64
  else Object.

Definition scalar_dtype (x : scalar) : dtype :=
  match x with
  | NaN => Float64
  | Num z => int_dtype z
  end.

(** [np.promote_types] on these four types. *)
Definition promote_types (a b : dtype) : dtype :=
  match a, b with
  | Object, _ | _, Object => Object
  | Float64, _ | _, Float64 => Float64
  | Int64, Int64 => Int64
  | UInt64, UInt64 => UInt64
  | Int64, UInt64 | UInt64, Int64 => Float64
  end.

Definition array_dtype (l : list scalar) : dtype :=
  match l with
  | [] => Float64
  | x :: l' => foldr (fun y t => promote_types (scalar_dtype y) t) (scalar_dtype x) l'
  end.

(** The [float64] nearest to an integer, as the integer it is equal to: 53
    significant bits are kept and a tie goes to the even significand.  An
    integer below 2^64 in magnitude does not overflow. *)
Definition float64_of_int (z : Z) : Z :=
  let a := Z.abs z in
  if decide (a < 2 ^ 53) then z
  else
    let e := Z.log2 a - 52 in
    let q := a / 2 ^ e in
    let r := a mod 2 ^ e in
    let q' := if decide (2 * r < 2 ^ e) then q
              else if decide (2 ^ e < 2 * r) then q + 1
              else if Z.even q then q else q + 1 in
    Z.sgn z * (q' * 2 ^ e).

(** The type in which an array is compared with the Python integer [time]:
    the type of the array when [time] fits in it, [float64] when the array
    is of one of the two integer types and [time] fits in the other only,
    and Python's own comparison of objects when [time] fits in neither. *)
Definition comparison_dtype (arr : dtype) (time : Z) : dtype :=
  match arr with
  | Object => Object
  | Float64 => if decide (- 2 ^ 63 ≤ time < 2 ^ 64) then Float64 else Object
  | Int64 =>
      match int_dtype time with
      | Int64 => Int64
      | UInt64 => Float64
      | _ => Object
      end
  | UInt64 =>
      if decide (0 ≤ time < 2 ^ 64) then UInt64
      else if decide (- 2 ^ 63 ≤ time < 0) then Float64
      else Object
  end.

(** An integer as an array of the given type holds it. *)
Definition stored (arr : dtype) (z : Z) : Z :=
  match arr with
  | Float64 => float64_of_int z
  | _ => z
  end.

(** [arr <= time] and [arr >= time], element by element.  Every comparison
    with [np.nan] is false.  In [float64] both sides are rounded (rounding
    an element that the array already holds rounded changes nothing); in
    the other types the values are compared as they are held. *)
Definition np_compare (cmp : Z → Z → bool) (l : list scalar) (time : scalar)
  : list bool :=
  match time with
  | NaN => (fun _ => false) <$> l
  | Num t =>
      let arr := array_dtype l in
      (fun x => match x with
                | NaN => false
                | Num z =>
                    match comparison_dtype arr t with
                    | Float64 => cmp (float64_of_int z) (float64_of_int t)
                    | _ => cmp (stored arr z) t
                    end
                end) <$> l
  end.

Definition np_le : list scalar → scalar → list bool := np_compare Z.leb.

Definition np_ge : list scalar → scalar → list bool :=
  np_compare (fun x y => Z.leb y x).

(** Lifts a partial operation, raising [e] where it is undefined. *)
Definition or_raise {S A} (e : exn) (o : option A) : M S A :=
  match o with
  | Some a => mret a
  | None => raise e
  end.

(** For loop with local variables [b] updated by the body. *)
Fixpoint for_fold {S A B} (xs : list A) (b : B) (body : B → A → M S B) : M S B :=
  match xs with
  | [] => mret b
  | x :: xs' => b' ← body b x; for_fold xs' b' body
  end.

(** ** Insertion ordered dictionaries *)

Definition odict (V : Type) : Type := list (string * V).

Fixpoint od_get {V} (k : string) (d : odict V) : option V :=
  match d with
  | [] => None
  | (k', v) :: d' => if decide (k = k') then Some v else od_get k d'
  end.

(** [d[k] = v]: replaces in place, or appends a new key. *)
Fixpoint od_set {V} (k : string) (v : V) (d : odict V) : odict V :=
  match d with
  | [] => [(k, v)]
  | (k', v') :: d' => if decide (k = k') then (k, v) :: d' else (k', v') :: od_set k v d'
  end.

Definition od_keys {V} (d : odict V) : list string := d.*1.

(** ** The data structures of the component *)

(** A dictionary of the columns ['time_appeared'], ['latest_time'] and
    ['object']: [self._zones]. *)
Record ledger : Type := Ledger {
  time_appeared : list scalar;
  latest_time : list scalar;
  object : list ref
}.

(** [self._species]: the columns ['clade'] and ['species_number'], then the
    three columns above. *)
Record species_ledger : Type := SpeciesLedger {
  clade : list string;
  species_number : list Z;
  columns : ledger
}.

Record SpeciesEvolver (Env : Type) : Type := mkSpeciesEvolver {
  _record : odict (list scalar);
  _species : species_ledger;
  _zones : ledger;
  _species_ids : Allocator.registry;
  _zone_managers : list ref;
  world : World Env
}.

Arguments mkSpeciesEvolver {Env} _ _ _ _ _ _.
Arguments _record {Env} _.
Arguments _species {Env} _.
Arguments _zones {Env} _.
Arguments _species_ids {Env} _.
Arguments _zone_managers {Env} _.
Arguments world {Env} _.

Section Component.

Context {Env : Type} `{Co : !Collaborators Env} `{SO : !SetOrder}.

Abbreviation SE := (SpeciesEvolver Env).

Definition set_record (r : odict (list scalar)) (se : SE) : SE :=
  mkSpeciesEvolver r (_species se) (_zones se) (_species_ids se) (_zone_managers se) (world se).
Definition set_species (l : species_ledger) (se : SE) : SE :=
  mkSpeciesEvolver (_record se) l (_zones se) (_species_ids se) (_zone_managers se) (world se).
Definition set_zones (l : ledger) (se : SE) : SE :=
  mkSpeciesEvolver (_record se) (_species se) l (_species_ids se) (_zone_managers se) (world se).
Definition set_species_ids (ids : Allocator.registry) (se : SE) : SE :=
  mkSpeciesEvolver (_record se) (_species se) (_zones se) ids (_zone_managers se) (world se).
Definition set_world (w : World Env) (se : SE) : SE :=
  mkSpeciesEvolver (_record se) (_species se) (_zones se) (_species_ids se) (_zone_managers se) w.

(** Calls into the collaborators and into the allocator. *)
Definition in_world {A} (m : M (World Env) A) : M SE A := zoom world set_world m.
Definition in_species_ids {A} (m : M Allocator.registry A) : M SE A :=
  zoom _species_ids set_species_ids m.

(** [species._identifier = sid] *)
Definition assign_identifier (s : ref) (sid : string * Z) (w : World Env) : World Env :=
  mkWorld (fun r => if decide (r = s) then Species.set_identifier sid (species_at w r)
                    else species_at w r)
          (zone_at w) (env w).

(** *** Record methods *)

(** [self._record['time']] *)
Definition record_time : M SE (list scalar) :=
  r ← gets _record; or_raise KeyError (od_get "time" r).

Definition _get_prior_time : M SE scalar :=
  t ← record_time;
  if decide (length t < 2)%nat then mret NaN
  else or_raise IndexError (py_sorted t !! (length t - 2)%nat).

(** The body of the loop of [_insert_record_add_on]. *)
Definition insert_record_item (kv : string * scalar) : M SE unit :=
  let '(key, value) := kv in
  r ← gets _record;
  (if decide (key ∈ od_keys r) then mret tt
   else t ← record_time;
        modify (fun se => set_record
          (od_set key (replicate (length t - 1) NaN) (_record se)) se));;
  r ← gets _record;
  col ← or_raise KeyError (od_get key r);
  modify (set_record (od_set key (col ++ [value]) r)).

Definition _insert_record_add_on (a : add_on) : M SE unit :=
  for_each a insert_record_item.

(** The property [record]: [DataFrame(self._record)] refuses columns of
    different lengths. *)
Definition record : M SE (odict (list scalar)) :=
  r ← gets _record;
  match r with
  | [] => mret r
  | (_, c) :: _ =>
      if decide (Forall (fun kv => length kv.2 = length c) r) then mret r
      else raise ValueError
  end.

(** *** Query methods *)

(** The two time columns are made arrays and compared with [time] as
    arrays. *)
Definition _objects_at_time (time : scalar) (dictionary : ledger) : M SE (list ref) :=
  let appeared := time_appeared dictionary in
  let latest := latest_time dictionary in
  let appeared_before_time := np_le appeared time in
  let present_at_time := np_ge latest time in
  extant_at_time ← or_raise ValueError (np_all2 appeared_before_time present_at_time);
  or_raise IndexError (np_mask (object dictionary) extant_at_time).

Definition zones_at_time (time : scalar) : M SE (list ref) :=
  d ← gets _zones; _objects_at_time time d.

Definition species_at_time (time : scalar) : M SE (list ref) :=
  d ← gets _species; _objects_at_time time (columns d).

(** *** Update data structure methods *)

Definition _object_set_difference (objects : list ref) (dataframe : ledger)
  : list ref * list ref :=
  let objs := py_set objects in
  let df_objs := py_set (object dataframe) in
  let updated_objects := pyset_intersection objs df_objs in
  let new_objects := pyset_difference objs df_objs in
  (updated_objects, new_objects).

(** [d['latest_time'][d['object'].index(z)] = time] *)
Definition touch_latest_time (time : scalar) (z : ref) (d : ledger) : exn + ledger :=
  match py_index z (object d) with
  | None => inl ValueError
  | Some idx =>
      match py_setitem idx time (latest_time d) with
      | None => inl IndexError
      | Some l => inr (Ledger (time_appeared d) l (object d))
      end
  end.

(** Appends rows for the new objects, all at [time]. *)
Definition extend_ledger (time : scalar) (new : list ref) (d : ledger) : ledger :=
  let t := replicate (length new) time in
  Ledger (time_appeared d ++ t) (latest_time d ++ t) (object d ++ new).

(** [for z in updated: d['latest_time'][d['object'].index(z)] = time], on
    the dictionary read by [get] and written by [set]. *)
Definition touch_all (get : SE → ledger) (set : ledger → SE → SE)
    (time : scalar) (updated : list ref) : M SE unit :=
  for_each updated (fun z =>
    d ← gets get;
    match touch_latest_time time z d with
    | inl e => raise e
    | inr d' => modify (set d')
    end).

Definition _update_zone_data_structure (time : scalar) (zones_at_time : list ref)
  : M SE unit :=
  d ← gets _zones;
  let '(z_updated, z_new) := _object_set_difference zones_at_time d in
  touch_all _zones set_zones time z_updated;;
  match z_new with
  | [] => mret tt
  | _ :: _ => modify (fun se => set_zones (extend_ledger time z_new (_zones se)) se)
  end.

(** The three common columns of [self._species]. *)
Definition species_columns (se : SE) : ledger := columns (_species se).

Definition set_species_columns (c : ledger) (se : SE) : SE :=
  set_species (SpeciesLedger (clade (_species se)) (species_number (_species se)) c) se.

(** [[s.identifier[i] for s in s_new]]: fails on a species without
    identifier. *)
Definition identifiers_of (w : World Env) (s_new : list ref) : option (list (string * Z)) :=
  mapM (fun s => Species.identifier (species_at w s)) s_new.

Definition _update_species_data_structure (time : scalar) (species_at_time : list ref)
  : M SE unit :=
  d ← gets species_columns;
  let '(s_updated, s_new) := _object_set_difference species_at_time d in
  touch_all species_columns set_species_columns time s_updated;;
  match s_new with
  | [] => mret tt
  | _ :: _ =>
      w ← gets world;
      sids ← or_raise (TypeError "'NoneType' object is not subscriptable")
                      (identifiers_of w s_new);
      modify (fun se =>
        let d := _species se in
        set_species (SpeciesLedger (clade d ++ sids.*1) (species_number d ++ sids.*2)
                                   (extend_ledger time s_new (columns d))) se)
  end.

(** *** Identifier methods *)

Definition _get_unused_clade_name : M SE string :=
  in_species_ids Allocator._get_unused_clade_name.

Definition _get_unused_species_id (clade_name : string) : M SE (string * Z) :=
  in_species_ids (Allocator._get_unused_species_id clade_name).

(** *** Update methods *)

(** The body of [for zm in self._zone_managers] in [_get_updated_zones]; the
    local variables are [add_on] and [destinations]. *)
Definition update_paths_of (time : scalar) (prior_zones new_zones : list ref)
    (acc : add_on * list ref) (zm : ref) : M SE (add_on * list ref) :=
  let '(a, destinations) := acc in
  w ← gets world;
  let zm_prior_zones := filter (fun z => Zone._manager (zone_at w z) = zm) prior_zones in
  let zm_new_zones := filter (fun z => Zone._manager (zone_at w z) = zm) new_zones in
  '(zm_dest, a') ← in_world (_update_paths zm time zm_prior_zones zm_new_zones a);
  mret (a', destinations ++ zm_dest).

Definition _get_updated_zones (time : scalar) (new_zones : list ref) : M SE (list ref) :=
  prior_time ← _get_prior_time;
  prior_zones ← zones_at_time prior_time;
  zms ← gets _zone_managers;
  '(a, destinations) ← for_fold zms ([], []) (update_paths_of time prior_zones new_zones);
  _insert_record_add_on a;;
  mret (py_set destinations).

(** [for cs in child_species]: the identifier of a child. *)
Definition set_child_identifier (cs : ref) : M SE unit :=
  w ← gets world;
  parent ← or_raise AttributeError (Species.parent_species (species_at w cs));
  clade ← or_raise (TypeError "'NoneType' object is not subscriptable")
                   (Species.clade (species_at w parent));
  sid ← _get_unused_species_id clade;
  modify (fun se => set_world (assign_identifier cs sid (world se)) se).

(** The body of [for es in extant_species] in [_get_surviving_species]; the
    local variables are [add_on] and [surviving_species]. *)
Definition evolve_one (time dt : scalar) (acc : add_on * list ref) (es : ref)
  : M SE (add_on * list ref) :=
  let '(a, surviving_species) := acc in
  '(child_species, a') ← in_world (_evolve es time dt a);
  w ← gets world;
  let surviving_species :=
    if Species.extant (species_at w es) then surviving_species ++ [es]
    else surviving_species in
  let surviving_species := surviving_species ++ child_species in
  for_each child_species set_child_identifier;;
  mret (a', surviving_species).

Definition _get_surviving_species (time dt : scalar) : M SE (list ref) :=
  prior_time ← _get_prior_time;
  extant_species ← species_at_time prior_time;
  '(a, surviving_species) ← for_fold extant_species ([], []) (evolve_one time dt);
  _insert_record_add_on a;;
  mret surviving_species.

(** [new_zones = []; for zm in ...: new_zones.extend(zm._create_zones())] *)
Definition create_all_zones : M SE (list ref) :=
  zms ← gets _zone_managers;
  for_fold zms [] (fun new_zones zm =>
    zs ← in_world (_create_zones zm); mret (new_zones ++ zs)).

(** The species step of [run_one_step].  The warning printed when no species
    exist is output only and is not modelled. *)
Definition process_species (time dt : scalar) : M SE unit :=
  d ← gets _species;
  if decide (length (object (columns d)) = 0)%nat then mret tt
  else survivors ← _get_surviving_species time dt;
       _update_species_data_structure time survivors.

(** The zone step of [run_one_step], from the new time in the record to the
    update of the zone ledger. *)
Definition process_zones (dt : scalar) : M SE scalar :=
  t ← record_time;
  m ← or_raise ValueError (py_max t);
  let time := py_add m dt in
  modify (fun se => set_record (od_set "time" (t ++ [time]) (_record se)) se);;
  new_zones ← create_all_zones;
  updated_zones ← _get_updated_zones time new_zones;
  _update_zone_data_structure time updated_zones;;
  mret time.

Definition run_one_step (dt : scalar) : M SE unit :=
  time ← process_zones dt;
  process_species time dt.

(** [__init__] with the zone managers given.  The component is created
    around the world [w]; the initial zones are reconciled at
    [initial_time]. *)
Definition __init__ (initial_time : scalar) (zone_managers : list ref) (w : World Env)
  : result SE unit :=
  let se := mkSpeciesEvolver [("time", [initial_time])]
              (SpeciesLedger [] [] (Ledger [] [] [])) (Ledger [] [] [])
              ∅ zone_managers w in
  (initial_zones ← create_all_zones;
   _update_zone_data_structure initial_time initial_zones) se.

(** *** Species methods *)

Definition introduce_species (species : ref) : M SE unit :=
  d ← gets _species;
  if decide (species ∈ object (columns d))
  then raise (Exception "The species object, {} was already introduced.")
  else
    w ← gets world;
    match Species._zones (species_at w species) with
    | [] => raise (Exception
        "The species object, {} is not found in any zones. It was not introduced.")
    | _ :: _ =>
        clade_name ← _get_unused_clade_name;
        sid ← _get_unused_species_id clade_name;
        modify (fun se => set_world (assign_identifier species sid (world se)) se);;
        t ← record_time;
        time ← or_raise ValueError (py_max t);
        _update_species_data_structure time [species]
    end.

End Component.

(** *** Queries by identifier *)

(** The values a caller may pass as [identifier_element]. *)
#[local] Unset Elimination Schemes.
Inductive pyval : Type :=
| PyNone
| PyBool (b : bool)
| PyInt (z : Z)
| PyFloat (x : scalar)
| PyStr (s : string)
| PyTuple (l : list pyval)
| PyList (l : list pyval).
#[local] Set Elimination Schemes.

(** [isinstance(v, str)] and [isinstance(v, int)]; [bool] is a subclass of
    [int]. *)
Definition isinstance_str (v : pyval) : bool :=
  match v with PyStr _ => true | _ => false end.

Definition isinstance_int (v : pyval) : bool :=
  match v with PyInt _ | PyBool _ => true | _ => false end.

(** A row of [DataFrame(self._species)], with its index label. *)
Record species_row : Type := SpeciesRow {
  row_index : nat;
  row_clade : string;
  row_species_number : Z;
  row_time_appeared : scalar;
  row_latest_time : scalar;
  row_object : ref
}.

Fixpoint rows_from (i : nat) (c : list string) (n : list Z) (a l : list scalar)
    (o : list ref) : option (list species_row) :=
  match c, n, a, l, o with
  | [], [], [], [], [] => Some []
  | c0 :: c', n0 :: n', a0 :: a', l0 :: l', o0 :: o' =>
      cons (SpeciesRow i c0 n0 a0 l0 o0) <$> rows_from (S i) c' n' a' l' o'
  | _, _, _, _, _ => None
  end.

(** [DataFrame(self._species)]: [None] when the columns differ in length. *)
Definition DataFrame (d : species_ledger) : option (list species_row) :=
  rows_from 0 (clade d) (species_number d) (time_appeared (columns d))
            (latest_time (columns d)) (object (columns d)).

(** [sdf.clade == v] and [sdf.species_number == v], row by row. *)
Definition clade_eq (v : pyval) (r : species_row) : bool :=
  match v with
  | PyStr s => bool_decide (row_clade r = s)
  | _ => false
  end.

Definition species_number_eq (v : pyval) (r : species_row) : bool :=
  match v with
  | PyInt z => bool_decide (row_species_number r = z)
  | PyBool b => bool_decide (row_species_number r = Z.b2z b)
  | PyFloat (Num z) => bool_decide (row_species_number r = z)
  | _ => false
  end.

Definition tuple_message : string :=
  "*identifier_element* when it is a tuple must have a length of 2. The first element must be a string, and the second must be an integer.".

Definition type_message : string :=
  "*identifier_element* must be a tuple, string, or integer.".

(** The selected rows, or [None] when there are none.  The two forms of the
    return value (the frame, or its dictionary) hold the same rows. *)
Definition species_with_identifier {Env} (identifier_element : pyval)
  : M (SpeciesEvolver Env) (option (list species_row)) :=
  d ← gets _species;
  sdf ← or_raise ValueError (DataFrame d);
  s_out ←
    match identifier_element with
    | PyTuple t =>
        clade ← or_raise IndexError (t !! 0%nat);
        num ← or_raise IndexError (t !! 1%nat);
        if negb (bool_decide (length t = 2%nat) && isinstance_str clade && isinstance_int num)
        then raise (TypeError tuple_message)
        else mret (List.filter (fun r => clade_eq clade r && species_number_eq num r) sdf)
    | PyStr _ => mret (List.filter (clade_eq identifier_element) sdf)
    | PyInt _ => mret (List.filter (species_number_eq identifier_element) sdf)
    | _ => raise (TypeError type_message)
    end;
  if decide (length s_out = 0)%nat then mret None else mret (Some s_out).

(** ** Notions used to state the properties *)

(** [a ≤ b] on numbers. *)
Definition scalar_le (a b : scalar) : Prop :=
  match a, b with
  | Num x, Num y => x ≤ y
  | _, _ => False
  end.

#[global] Instance scalar_le_dec a b : Decision (scalar_le a b).
Proof. destruct a, b; simpl; apply _. Defined.

(** A time that every type of array holds as it is: the sentinel, or an
    integer of magnitude at most 2^53. *)
Definition exact_time (x : scalar) : Prop :=
  match x with
  | NaN => True
  | Num z => Z.abs z ≤ 2 ^ 53
  end.

(** The times of a ledger are of that kind. *)
Definition exact_times (d : ledger) : Prop :=
  Forall exact_time (time_appeared d) ∧ Forall exact_time (latest_time d).

(** The columns of a dictionary have one entry per row. *)
Definition aligned (d : ledger) : Prop :=
  length (time_appeared d) = length (object d)
  ∧ length (latest_time d) = length (object d).

(** The rows [(time_appeared, latest_time, object)] of a ledger, in
    insertion order. *)
Definition ledger_rows (d : ledger) : list (scalar * scalar * ref) :=
  zip (zip (time_appeared d) (latest_time d)) (object d).

(** The entities extant at [time], following the words of the
    specification: the objects of the rows with
    [time_appeared ≤ time ≤ latest_time], in ledger order. *)
Definition extant_rows (time : scalar) (d : ledger) : list ref :=
  snd <$> filter (fun r => scalar_le r.1.1 time ∧ scalar_le time r.1.2) (ledger_rows d).

(** The column ['latest_time'] after a reconciliation at [time] with the
    entities [zs]: [time] for the tracked entities among [zs], the prior
    value for the others. *)
Definition reconciled_latest (time : scalar) (zs : list ref) (d : ledger) : list scalar :=
  zip_with (fun o l => if decide (o ∈ zs) then time else l) (object d) (latest_time d).

(** The ledger after a reconciliation at [time] with [zs]: the latest times
    of the tracked entities among [zs] are set, and the entities of [zs]
    that are not tracked are appended in the iteration order of their
    set. *)
Definition reconciled `{SO : !SetOrder} (time : scalar) (zs : list ref) (d : ledger) : ledger :=
  extend_ledger time (pyset_difference (py_set zs) (py_set (object d)))
    (Ledger (time_appeared d) (reconciled_latest time zs d) (object d)).

(** The exception of an outcome, if any. *)
Definition outcome {S A} (r : result S A) : option exn :=
  match r with
  | Ok _ _ => None
  | Raise e _ => Some e
  end.

(** The rows of the species ledger: clade, number, then the rows above. *)
Definition species_rows (d : species_ledger)
  : list (string * (Z * (scalar * scalar * ref))) :=
  zip (clade d) (zip (species_number d) (ledger_rows (columns d))).

Definition species_aligned (d : species_ledger) : Prop :=
  length (clade d) = length (object (columns d))
  ∧ length (species_number d) = length (object (columns d))
  ∧ aligned (columns d).

(** Two tables agree on their first [n] rows and hold the same further rows,
    in whatever order. *)
Definition same_rows_up_to_order {A} (n : nat) (l1 l2 : list A) : Prop :=
  take n l1 = take n l2 ∧ drop n l1 ≡ₚ drop n l2.

(** The identifier written in the row of a species. *)
Definition identifier_or_default {Env} (w : World Env) (s : ref) : string * Z :=
  default ("", 0) (Species.identifier (species_at w s)).

(** The zone step of [run_one_step] up to the point where the destinations
    are made a set: the new time and the destinations, in the order of the
    zone managers. *)
Definition zone_destinations {Env} `{Co : !Collaborators Env} (dt : scalar)
  : M (SpeciesEvolver Env) (scalar * list ref) :=
  t ← record_time;
  m ← or_raise ValueError (py_max t);
  let time := py_add m dt in
  modify (fun se => set_record (od_set "time" (t ++ [time]) (_record se)) se);;
  new_zones ← create_all_zones;
  prior_time ← _get_prior_time;
  prior_zones ← zones_at_time prior_time;
  zms ← gets _zone_managers;
  '(a, destinations) ← for_fold zms ([], []) (update_paths_of time prior_zones new_zones);
  _insert_record_add_on a;;
  mret (time, destinations).

(** ** A scripted world

    One zone manager, which at the first tick finds the zones 1 and 2 and
    contributes the column [splits], and afterwards keeps the zones it had
    and contributes nothing; species 10, which at the first tick has the
    child 11.  The counter [env] counts the calls of [_create_zones]. *)
Module Example.

Definition zm : ref := 100%nat.

(** [orphan] tells whether species 11 lacks its parent. *)
Definition species_of (orphan : bool) (r : ref) : Species.t :=
  if decide (r = 10%nat) then Species.mk None None true [1%nat]
  else if decide (r = 11%nat)
       then Species.mk None (if orphan then None else Some 10%nat) true [1%nat]
       else Species.mk None None true [].

Definition world0 (orphan : bool) : World nat :=
  mkWorld (species_of orphan) (fun _ => Zone.mk zm) 0%nat.

#[export] Instance scripted : Collaborators nat := {|
  _create_zones _ w :=
    Ok [] (mkWorld (species_at w) (zone_at w) (S (env w)));
  _update_paths _ _ prior _ a w :=
    if decide (env w = 2%nat) then Ok ([1%nat; 2%nat], od_set "splits" (Num 1) a) w
    else Ok (prior, a) w;
  _evolve es _ _ a w :=
    if decide (env w = 2%nat) then Ok ([S es], a) w else Ok ([], a) w
|}.

(** The component after [__init__] at time 0. *)
Definition se0 `{SO : !SetOrder} (orphan : bool) : SpeciesEvolver nat :=
  final_state (__init__ (Num 0) [zm] (world0 orphan)).

(** Species 10 introduced at time 0, with its child having its parent or
    not, and the second of these after the zone step of the first tick. *)
Definition se_one_species : SpeciesEvolver nat :=
  final_state (introduce_species (SO := stable_order) 10%nat (se0 false)).

Definition se_orphan : SpeciesEvolver nat :=
  final_state (introduce_species (SO := stable_order) 10%nat (se0 true)).

Definition se_orphan_zones : SpeciesEvolver nat :=
  final_state (process_zones (SO := stable_order) (Num 1) se_orphan).

(** A second script: species 10 has the children 11 and 12 at the first
    tick, and each of these has one child (21 and 22) at the second. *)
Definition family_of (r : ref) : Species.t :=
  if decide (r = 10%nat) then Species.mk None None true [1%nat]
  else if decide (r = 11%nat ∨ r = 12%nat) then Species.mk None (Some 10%nat) true [1%nat]
  else if decide (r = 21%nat) then Species.mk None (Some 11%nat) true [1%nat]
  else if decide (r = 22%nat) then Species.mk None (Some 12%nat) true [1%nat]
  else Species.mk None None true [].

Definition branching : Collaborators nat := {|
  _create_zones _ w :=
    Ok [] (mkWorld (species_at w) (zone_at w) (S (env w)));
  _update_paths _ _ prior _ a w := Ok (prior, a) w;
  _evolve es _ _ a w :=
    if decide (env w = 2%nat ∧ es = 10%nat) then Ok ([11%nat; 12%nat], a) w
    else if decide (env w = 3%nat ∧ es = 11%nat) then Ok ([21%nat], a) w
    else if decide (env w = 3%nat ∧ es = 12%nat) then Ok ([22%nat], a) w
    else Ok ([], a) w
|}.

(** Species 10 introduced at time 0 in that family. *)
Definition se_family : SpeciesEvolver nat :=
  final_state
    (introduce_species (SO := stable_order) 10%nat
       (mkSpeciesEvolver [("time", [Num 0])]
          (SpeciesLedger [] [] (Ledger [] [] [])) (Ledger [] [] [])
          ∅ [zm] (mkWorld family_of (fun _ => Zone.mk zm) 1%nat))).

(** A ledger of three zones, and a component holding it. *)
Definition three_zones : ledger :=
  Ledger [Num 0; Num 0; Num 2] [Num 3; Num 1; Num 3] [1%nat; 2%nat; 3%nat].

Definition se_three_zones : SpeciesEvolver nat :=
  mkSpeciesEvolver [("time", [Num 0; Num 1; Num 2; Num 3])]
    (SpeciesLedger [] [] (Ledger [] [] [])) three_zones ∅ [zm] (world0 false).

(** A ledger of two zones, the second of which appeared at 2^63 + 1. *)
Definition large_times : ledger :=
  Ledger [Num 0; Num (2 ^ 63 + 1)] [Num (2 ^ 63 + 1); Num (2 ^ 63 + 1)]
         [1%nat; 2%nat].

End Example.

(** ** Further notions *)

#[global] Instance event_eq_dec : EqDecision Allocator.event.
Proof. solve_decision. Defined.

(** The clade names returned in a trace of the allocator. *)
Definition named (evs : list Allocator.event) : list string :=
  omap (fun ev => match ev with Allocator.Named c => Some c | _ => None end) evs.

(** The names of [k] letters, in the order of [product]. *)
Definition names_of_length (k : nat) : list string :=
  Allocator.join <$> Allocator.product (Allocator.chars Allocator.ascii_uppercase) k.

(** The value the registry holds for a clade with [n] identifiers issued. *)
Definition highest_number (n : nat) : option Z :=
  match n with
  | O => None
  | S m => Some (Z.of_nat m)
  end.

(** [m] takes every state to one related to it by [R], also when it
    raises. *)
Definition respects {S A} (R : relation S) (m : M S A) : Prop :=
  ∀ s, R s (final_state (m s)).

(** The column ['time'] of the second state is that of the first with
    entries appended. *)
Definition time_extends {Env} (s s' : SpeciesEvolver Env) : Prop :=
  ∀ t, od_get "time" (_record s) = Some t →
       ∃ rest, od_get "time" (_record s') = Some (t ++ rest).

(** Every row of a ledger has its time of appearance not after its latest
    time. *)
Definition rows_ordered (d : ledger) : Prop :=
  ∀ i a l, time_appeared d !! i = Some a → latest_time d !! i = Some l → scalar_le a l.

(** The ledgers of a component have one entry per row in each column and
    name each object once. *)
Definition well_formed {Env} (se : SpeciesEvolver Env) : Prop :=
  aligned (_zones se) ∧ NoDup (object (_zones se))
  ∧ species_aligned (_species se) ∧ NoDup (object (columns (_species se))).

(** A state that follows a well-formed one is well-formed. *)
Definition keeps_well_formed {Env} (s s' : SpeciesEvolver Env) : Prop :=
  well_formed s → well_formed s'.

(** The rows of the first state are the first rows of the second, with
    their objects, their times of appearance and their identifiers. *)
Definition rows_kept {Env} (s s' : SpeciesEvolver Env) : Prop :=
  object (_zones s) `prefix_of` object (_zones s')
  ∧ time_appeared (_zones s) `prefix_of` time_appeared (_zones s')
  ∧ object (columns (_species s)) `prefix_of` object (columns (_species s'))
  ∧ time_appeared (columns (_species s)) `prefix_of` time_appeared (columns (_species s'))
  ∧ clade (_species s) `prefix_of` clade (_species s')
  ∧ species_number (_species s) `prefix_of` species_number (_species s').

(** A row of the table of species holds its position in the ledger as
    label and the entries of the ledger at that position. *)
Definition in_table (d : species_ledger) (r : species_row) : Prop :=
  clade d !! row_index r = Some (row_clade r)
  ∧ species_number d !! row_index r = Some (row_species_number r)
  ∧ time_appeared (columns d) !! row_index r = Some (row_time_appeared r)
  ∧ latest_time (columns d) !! row_index r = Some (row_latest_time r)
  ∧ object (columns d) !! row_index r = Some (row_object r).

(** The selection a query stands for: exactly the rows of the ledger that
    satisfy [P], in ledger order. *)
Definition selects (d : species_ledger) (P : species_row → Prop)
    (sel : list species_row) : Prop :=
  StronglySorted lt (row_index <$> sel)
  ∧ ∀ r, r ∈ sel ↔ in_table d r ∧ P r.

(** What a query returns for a selection: [None] when it is empty. *)
Definition query_result (sel : list species_row) : option (list species_row) :=
  if decide (sel = []) then None else Some sel.

(** * Properties *)

(** ** The allocator *)

Module AllocatorFacts.
Import Allocator.

Lemma elem_of_insert_sorted x y l :
  y ∈ insert_sorted x l ↔ y = x ∨ y ∈ l.
Proof.
  induction l as [|z l IH]; simpl.
  - rewrite list_elem_of_singleton, elem_of_nil. tauto.
  - destruct (String.compare x z) eqn:E.
    + apply String.compare_eq_iff in E as ->.
      rewrite elem_of_cons. tauto.
    + rewrite !elem_of_cons. tauto.
    + rewrite !elem_of_cons, IH. tauto.
Qed.

Lemma elem_of_np_unique y l : y ∈ np_unique l ↔ y ∈ l.
Proof.
  induction l as [|x l IH]; simpl; [done|].
  unfold np_unique in *; simpl.
  rewrite elem_of_insert_sorted, IH, elem_of_cons. tauto.
Qed.

Lemma elem_of_np_setdiff1d y ar1 ar2 :
  y ∈ np_setdiff1d ar1 ar2 ↔ y ∈ ar1 ∧ y ∉ ar2.
Proof.
  unfold np_setdiff1d. rewrite list_elem_of_filter, elem_of_np_unique. tauto.
Qed.

Lemma elem_of_used_names c (ids : registry) :
  c ∈ used_names ids ↔ is_Some (ids !! c).
Proof.
  unfold used_names. rewrite list_elem_of_fmap. split.
  - intros [[k v] [-> Hin]]. apply elem_of_map_to_list in Hin. eauto.
  - intros [v Hv]. exists (c, v). split; [done|]. by apply elem_of_map_to_list.
Qed.

Lemma replicate_in_product (s : list string) a k :
  a ∈ s → replicate k a ∈ product s k.
Proof.
  intros Ha. induction k as [|k IH]; cbn [product replicate].
  - by apply list_elem_of_singleton.
  - apply list_elem_of_bind. exists a. split; [|done].
    apply list_elem_of_fmap. eauto.
Qed.

Lemma repeated_A_in_product k :
  repeated_A k ∈ join <$> product (chars ascii_uppercase) k.
Proof.
  apply list_elem_of_fmap. exists (replicate k "A"). split; [done|].
  apply replicate_in_product. apply elem_of_cons. by left.
Qed.

Lemma repeated_A_length k : String.length (repeated_A k) = k.
Proof.
  unfold repeated_A, join. induction k as [|k IH]; simpl; [done|].
  f_equal. exact IH.
Qed.

Lemma repeated_A_inj : Inj (=) (=) repeated_A.
Proof.
  intros j k H. apply (f_equal String.length) in H.
  by rewrite !repeated_A_length in H.
Qed.

(** Pigeonhole: a duplicate-free list longer than [used] has an element
    outside of it. *)
Lemma exists_not_in {A} `{EqDecision A} (l used : list A) :
  NoDup l → (length used < length l)%nat → ∃ x, x ∈ l ∧ x ∉ used.
Proof.
  intros Hnd Hlen.
  destruct (decide (Forall (fun x => x ∈ used) l)) as [Hall|Hex].
  - assert (l ⊆+ used) as Hsub.
    { apply NoDup_submseteq; [done|]. by apply Forall_forall. }
    apply submseteq_length in Hsub. lia.
  - apply not_Forall_Exists in Hex; [|solve_decision].
    apply Exists_exists in Hex as (x & Hx & Hnx). eauto.
Qed.

Lemma exists_unused_size (used : list string) :
  ∃ k, (1 ≤ k ≤ S (length used))%nat ∧
       np_setdiff1d (join <$> product (chars ascii_uppercase) k) used ≠ [].
Proof.
  destruct (exists_not_in (repeated_A <$> seq 1 (S (length used))) used)
    as (x & Hx & Hnx).
  - apply NoDup_fmap_2; [apply repeated_A_inj | apply NoDup_seq].
  - rewrite length_fmap, length_seq. lia.
  - apply list_elem_of_fmap in Hx as (k & -> & Hk).
    apply elem_of_seq in Hk. exists k. split; [lia|].
    intros Hnil.
    assert (repeated_A k ∈ np_setdiff1d (join <$> product (chars ascii_uppercase) k) used)
      as Hin by (apply elem_of_np_setdiff1d; eauto using repeated_A_in_product).
    rewrite Hnil in Hin. by apply elem_of_nil in Hin.
Qed.

(** Enough fuel: the loop ends as soon as a size has an unused name. *)
Lemma while_no_potential_name_total fuel size used potential k :
  (size ≤ k < size + fuel)%nat →
  np_setdiff1d (join <$> product (chars ascii_uppercase) k) used ≠ [] →
  is_Some (while_no_potential_name fuel size used potential).
Proof.
  revert size potential.
  induction fuel as [|fuel IH]; intros size potential Hk Hne; [lia|].
  destruct potential as [|c ?]; simpl; [|eauto].
  destruct (decide (k = size)) as [->|Hneq].
  - destruct (np_setdiff1d _ used) eqn:E; [done|].
    destruct fuel; simpl; eauto.
  - apply IH; [lia|done].
Qed.

Lemma while_no_potential_name_unused fuel size used potential c :
  (∀ x, x ∈ potential → x ∉ used) →
  while_no_potential_name fuel size used potential = Some c →
  c ∉ used.
Proof.
  revert size potential.
  induction fuel as [|fuel IH]; intros size potential Hp H.
  - destruct potential; simpl in H; [done|].
    injection H as <-. apply Hp, elem_of_cons. by left.
  - destruct potential; simpl in H.
    + eapply IH; [|exact H].
      intros x Hx. by apply elem_of_np_setdiff1d in Hx as [_ ?].
    + injection H as <-. apply Hp, elem_of_cons. by left.
Qed.

(** [_get_unused_clade_name] always returns, with a name that was not a key
    of the registry, and records it without a number. *)
Lemma get_unused_clade_name_fresh (ids : registry) :
  ∃ c, _get_unused_clade_name ids = Ok c (<[c := None]> ids) ∧ ids !! c = None.
Proof.
  unfold _get_unused_clade_name.
  destruct (exists_unused_size (used_names ids)) as (k & Hk & Hne).
  destruct (while_no_potential_name_total (S (S (length (used_names ids)))) 1
              (used_names ids)
              (np_setdiff1d (chars ascii_uppercase) (used_names ids)) k)
    as [c Hc]; [lia|done|].
  rewrite Hc. exists c. split; [done|].
  apply while_no_potential_name_unused in Hc.
  - rewrite elem_of_used_names in Hc. by apply eq_None_not_Some.
  - intros x Hx. by apply elem_of_np_setdiff1d in Hx as [_ ?].
Qed.

Lemma filter_unused_first (used pre post : list string) name :
  (∀ x, x ∈ pre → x ∈ used) → name ∉ used →
  filter (fun x => x ∉ used) (pre ++ name :: post)
  = name :: filter (fun x => x ∉ used) post.
Proof.
  intros Hpre Hname. induction pre as [|p pre IH]; simpl.
  - by rewrite filter_cons_True.
  - rewrite filter_cons_False.
    + apply IH. intros x Hx. apply Hpre, elem_of_cons. by right.
    + intros Hp. apply Hp, Hpre, elem_of_cons. by left.
Qed.

Lemma filter_unused_none (used l : list string) :
  (∀ x, x ∈ l → x ∈ used) → filter (fun x => x ∉ used) l = [].
Proof.
  intros Hl. induction l as [|p l IH]; [done|].
  rewrite filter_cons_False.
  - apply IH. intros x Hx. apply Hl, elem_of_cons. by right.
  - intros Hp. apply Hp, Hl, elem_of_cons. by left.
Qed.

Lemma np_unique_letters :
  np_unique (chars ascii_uppercase) = chars ascii_uppercase.
Proof. by vm_compute. Qed.

Lemma np_unique_product_1 :
  np_unique (join <$> product (chars ascii_uppercase) 1) = chars ascii_uppercase.
Proof. by vm_compute. Qed.

Lemma np_unique_two_letter_names :
  np_unique (join <$> product (chars ascii_uppercase) 2) = two_letter_names.
Proof. by vm_compute. Qed.

(** While a single letter is free, the first free letter is returned. *)
Lemma get_unused_clade_name_letter (ids : registry) pre name post :
  chars ascii_uppercase = pre ++ name :: post →
  (∀ x, x ∈ pre → is_Some (ids !! x)) →
  ids !! name = None →
  _get_unused_clade_name ids = Ok name (<[name := None]> ids).
Proof.
  intros Hsplit Hpre Hname. unfold _get_unused_clade_name, np_setdiff1d.
  rewrite np_unique_letters, Hsplit, filter_unused_first; [done| |].
  - intros x Hx. by apply elem_of_used_names, Hpre.
  - rewrite elem_of_used_names, Hname. by intros [? ?].
Qed.

(** Once the letters are taken, the first free two-letter name is
    returned. *)
Lemma get_unused_clade_name_two_letters (ids : registry) pre name post :
  (∀ c, c ∈ chars ascii_uppercase → is_Some (ids !! c)) →
  two_letter_names = pre ++ name :: post →
  (∀ x, x ∈ pre → is_Some (ids !! x)) →
  ids !! name = None →
  _get_unused_clade_name ids = Ok name (<[name := None]> ids).
Proof.
  intros Hletters Hsplit Hpre Hname.
  assert (filter (fun x => x ∉ used_names ids) (chars ascii_uppercase) = []) as Hnone.
  { apply filter_unused_none. intros x Hx. by apply elem_of_used_names, Hletters. }
  unfold _get_unused_clade_name, np_setdiff1d.
  rewrite np_unique_letters, Hnone.
  cbn [while_no_potential_name]. unfold np_setdiff1d.
  rewrite np_unique_product_1, Hnone.
  cbn [while_no_potential_name]. unfold np_setdiff1d.
  rewrite np_unique_two_letter_names, Hsplit, filter_unused_first.
  - by destruct (length (used_names ids)).
  - intros x Hx. by apply elem_of_used_names, Hpre.
  - rewrite elem_of_used_names, Hname. by intros [? ?].
Qed.

(** C3. On a fresh allocator the first 26 clade names are the letters A to Z
    in that order and the 27th is AA.  Whatever the registry holds, the call
    returns a name that was not issued before, and marks it as issued without
    a number: the first free letter while there is one, and once all letters
    are taken the first two-letter name, in the order of the Cartesian
    product, that is free. *)
Theorem clade_names_in_order :
  (run (replicate 27 AllocateClade) ∅).1
    = Named <$> (chars ascii_uppercase ++ ["AA"])
  ∧ (∀ ids : registry,
       ∃ c, _get_unused_clade_name ids = Ok c (<[c := None]> ids) ∧ ids !! c = None)
  ∧ (∀ (ids : registry) pre name post,
       chars ascii_uppercase = pre ++ name :: post →
       (∀ x, x ∈ pre → is_Some (ids !! x)) →
       ids !! name = None →
       _get_unused_clade_name ids = Ok name (<[name := None]> ids))
  ∧ (∀ (ids : registry) pre name post,
       (∀ c, c ∈ chars ascii_uppercase → is_Some (ids !! c)) →
       two_letter_names = pre ++ name :: post →
       (∀ x, x ∈ pre → is_Some (ids !! x)) →
       ids !! name = None →
       _get_unused_clade_name ids = Ok name (<[name := None]> ids)).
Proof.
  split; [by vm_compute|].
  split; [apply get_unused_clade_name_fresh|].
  split; [apply get_unused_clade_name_letter|apply get_unused_clade_name_two_letters].
Qed.

Lemma clade_names_in_order_witness :
  _get_unused_clade_name letters_and_two = Ok "AC" (<["AC" := None]> letters_and_two).
Proof.
  apply (proj2 (proj2 (proj2 clade_names_in_order))
           letters_and_two ["AA"; "AB"] "AC" (drop 3 two_letter_names)).
  - apply Forall_forall.
    apply (bool_decide_unpack (Forall (fun c => is_Some (letters_and_two !! c)) _)).
    by vm_compute.
  - by vm_compute.
  - apply Forall_forall.
    apply (bool_decide_unpack (Forall (fun c => is_Some (letters_and_two !! c)) _)).
    by vm_compute.
  - by vm_compute.
Defined.

(** *** Species numbers *)

Lemma get_unused_species_id_allocated (ids : registry) c :
  is_Some (ids !! c) →
  ∃ ids', _get_unused_species_id c ids = Ok (c, next_number c ids) ids'
          ∧ ids' !! c = Some (Some (next_number c ids))
          ∧ ∀ c', c' ≠ c → ids' !! c' = ids !! c'.
Proof.
  intros [v Hv]. unfold _get_unused_species_id, next_number. rewrite Hv.
  destruct v as [m|]; eexists; (split; [done|]); split;
    try apply lookup_insert_eq; intros c' Hc'; by apply lookup_insert_ne.
Qed.

Lemma get_unused_species_id_unknown (ids : registry) c :
  ids !! c = None → _get_unused_species_id c ids = Raise KeyError ids.
Proof. intros H. unfold _get_unused_species_id. by rewrite H. Qed.

(** One call: the number issued is the next one of its clade, the counter of
    that clade moves by one and no other counter moves. *)
Lemma step_spec o (ids : registry) c :
  let '(ev, ids') := step o ids in
  issued_for c [ev] = (if decide (next_number c ids' = next_number c ids) then []
                       else [(c, next_number c ids)])
  ∧ next_number c ids' = next_number c ids + Z.of_nat (length (issued_for c [ev]))
  ∧ (is_Some (ids !! c) → is_Some (ids' !! c))
  ∧ (ev = Named c → is_Some (ids' !! c)).
Proof.
  destruct o as [|c0]; simpl.
  - destruct (get_unused_clade_name_fresh ids) as (n & -> & Hn).
    unfold issued_for, next_number; simpl.
    destruct (decide (c = n)) as [->|Hne].
    + rewrite lookup_insert_eq, Hn. simpl. repeat split; eauto.
    + rewrite lookup_insert_ne by done. rewrite decide_True by done.
      repeat split; [lia|done|congruence].
  - destruct (ids !! c0) as [v|] eqn:E.
    + destruct (get_unused_species_id_allocated ids c0) as (ids' & -> & Hc0 & Hother);
        [eauto|].
      unfold issued_for; simpl.
      destruct (decide (c0 = c)) as [->|Hne].
      * rewrite filter_cons_True by done. simpl.
        assert (next_number c ids' = next_number c ids + 1) as Hn.
        { unfold next_number at 1. by rewrite Hc0. }
        rewrite decide_False by lia.
        repeat split; [done|by rewrite Hc0|done].
      * rewrite filter_cons_False by done. simpl.
        assert (next_number c ids' = next_number c ids) as Hn.
        { unfold next_number. by rewrite Hother. }
        rewrite decide_True by done.
        repeat split; [lia|by rewrite Hother|done].
    + rewrite get_unused_species_id_unknown by done.
      unfold issued_for; simpl. rewrite decide_True by done.
      repeat split; [lia|done|done].
Qed.

Lemma issued_for_cons c ev evs :
  issued_for c (ev :: evs) = issued_for c [ev] ++ issued_for c evs.
Proof.
  unfold issued_for, issued.
  destruct ev; simpl; try done.
  by destruct (decide (sid.1 = c));
    rewrite ?filter_cons_True, ?filter_cons_False, ?filter_nil by done.
Qed.

Lemma run_cons o ops (ids : registry) :
  run (o :: ops) ids = ((step o ids).1 :: (run ops (step o ids).2).1,
                        (run ops (step o ids).2).2).
Proof.
  simpl. destruct (step o ids) as [ev ids1]. simpl. by destruct (run ops ids1).
Qed.

Lemma run_snoc ops o (ids : registry) :
  (run (ops ++ [o]) ids).1 = (run ops ids).1 ++ [(step o (run ops ids).2).1].
Proof.
  revert ids. induction ops as [|o' ops IH]; intros ids.
  - simpl. by destruct (step o ids).
  - rewrite <- app_comm_cons, !run_cons. simpl. by rewrite IH.
Qed.

(** The identifiers of one clade issued along a trace are numbered without
    gap from the next number of the clade. *)
Lemma run_issued_for ops (ids : registry) c :
  issued_for c (run ops ids).1
  = (fun i => (c, next_number c ids + Z.of_nat i))
      <$> seq 0 (length (issued_for c (run ops ids).1))
  ∧ next_number c (run ops ids).2
    = next_number c ids + Z.of_nat (length (issued_for c (run ops ids).1)).
Proof.
  revert ids. induction ops as [|o ops IH]; intros ids.
  - simpl. split; [done|lia].
  - rewrite run_cons. cbn [fst snd]. rewrite issued_for_cons.
    pose proof (step_spec o ids c) as Hstep.
    destruct (step o ids) as [ev ids1]. cbn [fst snd].
    destruct Hstep as (Hev & Hnext & _ & _).
    destruct (IH ids1) as [IH1 IH2].
    rewrite length_app. split; [|lia].
    rewrite IH1 at 1. rewrite Hev in *.
    destruct (decide (next_number c ids1 = next_number c ids)) as [Heq|Hneq].
    + simpl. by rewrite Heq.
    + simpl in *. f_equal; [f_equal; lia|].
      rewrite <- fmap_S_seq, <- list_fmap_compose.
      apply list_fmap_ext. intros _ i _. simpl. f_equal. lia.
Qed.

Lemma run_named_allocated ops (ids : registry) c :
  is_Some (ids !! c) ∨ Named c ∈ (run ops ids).1 →
  is_Some ((run ops ids).2 !! c).
Proof.
  revert ids. induction ops as [|o ops IH]; intros ids H.
  - simpl in *. destruct H as [H|H]; [done|]. by apply elem_of_nil in H.
  - rewrite run_cons in *. cbn [fst snd] in *.
    pose proof (step_spec o ids c) as Hstep.
    destruct (step o ids) as [ev ids1]. cbn [fst snd] in *.
    destruct Hstep as (_ & _ & Hkeep & Hnamed).
    apply IH. destruct H as [H|H]; [by left; apply Hkeep|].
    apply elem_of_cons in H as [H|H]; [left; by apply Hnamed|by right].
Qed.

Lemma next_number_empty c : next_number c ∅ = 0.
Proof. unfold next_number. by rewrite lookup_empty. Qed.

(** C4. On one allocator instance, used from its creation through any
    sequence of calls, a request for a species number of a clade that the
    allocator has named succeeds, and it returns the clade with the count of
    the identifiers issued for that clade so far: 0 for the first request,
    n - 1 for the n-th. *)
Theorem species_number_nth ops c :
  Named c ∈ (run ops ∅).1 →
  (run (ops ++ [AllocateSpecies c]) ∅).1
  = (run ops ∅).1 ++ [Issued (c, Z.of_nat (length (issued_for c (run ops ∅).1)))].
Proof.
  intros Hnamed. rewrite run_snoc. f_equal. f_equal.
  assert (is_Some ((run ops ∅).2 !! c)) as Hsome
    by (apply run_named_allocated; by right).
  destruct (get_unused_species_id_allocated _ c Hsome) as (ids' & Heq & _).
  simpl. rewrite Heq. simpl. f_equal. f_equal.
  destruct (run_issued_for ops ∅ c) as [_ ->].
  rewrite next_number_empty. lia.
Qed.

Lemma species_number_nth_witness :
  (run ([AllocateClade; AllocateSpecies "A"; AllocateClade; AllocateSpecies "A";
         AllocateSpecies "B"] ++ [AllocateSpecies "A"]) ∅).1
  = [Named "A"; Issued ("A", 0); Named "B"; Issued ("A", 1); Issued ("B", 0)]
    ++ [Issued ("A", 2)].
Proof.
  apply (species_number_nth
           [AllocateClade; AllocateSpecies "A"; AllocateClade; AllocateSpecies "A";
            AllocateSpecies "B"] "A").
  vm_compute. apply elem_of_cons. by left.
Defined.

Lemma NoDup_by_clade (l : list (string * Z)) :
  (∀ c, NoDup (filter (fun sid => sid.1 = c) l)) → NoDup l.
Proof.
  induction l as [|x l IH]; intros H; [constructor|].
  constructor.
  - intros Hx. specialize (H x.1). rewrite filter_cons_True in H by done.
    apply NoDup_cons in H as [Hnot _]. apply Hnot.
    by apply list_elem_of_filter.
  - apply IH. intros c. specialize (H c).
    destruct (decide (x.1 = c)).
    + rewrite filter_cons_True in H by done. by apply NoDup_cons in H as [_ ?].
    + by rewrite filter_cons_False in H by done.
Qed.

(** C5. Whatever calls are made on one allocator instance, and in whatever
    order, the identifiers it issues are pairwise distinct. *)
Theorem issued_identifiers_distinct ops :
  NoDup (issued (run ops ∅).1).
Proof.
  apply NoDup_by_clade. intros c.
  destruct (run_issued_for ops ∅ c) as [Heq _].
  unfold issued_for in Heq. rewrite Heq.
  apply NoDup_fmap_2; [|apply NoDup_seq].
  intros i j Hij. injection Hij. lia.
Qed.

End AllocatorFacts.

(** ** The monad *)

Section MonadFacts.

Context {S : Type}.

Lemma bind_Ok {A B} (m : M S A) (k : A → M S B) s a s' :
  m s = Ok a s' → (m ≫= k) s = k a s'.
Proof. intros H. unfold mbind, M_bind. by rewrite H. Qed.

Lemma bind_Raise {A B} (m : M S A) (k : A → M S B) s e s' :
  m s = Raise e s' → (m ≫= k) s = Raise e s'.
Proof. intros H. unfold mbind, M_bind. by rewrite H. Qed.

Lemma for_fold_app {A B} (xs ys : list A) (b : B) (body : B → A → M S B) s :
  for_fold (xs ++ ys) b body s
  = (b' ← for_fold xs b body; for_fold ys b' body) s.
Proof.
  revert b s. induction xs as [|x xs IH]; intros b s; simpl; [done|].
  unfold mbind, M_bind in *. destruct (body b x s); [apply IH|done].
Qed.

Lemma commutes_ret {A} f (a : A) : commutes f (mret a : M S A).
Proof. by intros s. Qed.

Lemma commutes_raise {A} f e : commutes f (raise e : M S A).
Proof. by intros s. Qed.

Lemma commutes_bind {A B} f (m : M S A) (k : A → M S B) :
  commutes f m → (∀ a, commutes f (k a)) → commutes f (m ≫= k).
Proof.
  intros Hm Hk s. unfold mbind, M_bind. rewrite Hm.
  destruct (m s); simpl; [apply Hk|done].
Qed.

Lemma commutes_gets {A} f (proj : S → A) :
  (∀ s, proj (f s) = proj s) → commutes f (gets proj).
Proof. intros H s. unfold gets. simpl. by rewrite H. Qed.

Lemma commutes_modify f (g : S → S) :
  (∀ s, g (f s) = f (g s)) → commutes f (modify g).
Proof. intros H s. unfold modify. simpl. by rewrite H. Qed.

Lemma commutes_zoom {T A} f (proj : S → T) (upd : T → S → S) (m : M T A) :
  (∀ s, proj (f s) = proj s) → (∀ t s, upd t (f s) = f (upd t s)) →
  commutes f (zoom proj upd m).
Proof.
  intros Hp Hu s. unfold zoom. rewrite Hp.
  destruct (m (proj s)); simpl; by rewrite Hu.
Qed.

Lemma commutes_or_raise {A} f e (o : option A) : commutes f (or_raise e o : M S A).
Proof. destruct o; [apply commutes_ret|apply commutes_raise]. Qed.

Lemma commutes_for_each {A} f (xs : list A) (body : A → M S unit) :
  (∀ x, commutes f (body x)) → commutes f (for_each xs body).
Proof.
  intros H. induction xs as [|x xs IH]; simpl.
  - apply commutes_ret.
  - apply commutes_bind; [apply H|by intros _].
Qed.

Lemma commutes_for_fold {A B} f (xs : list A) (b : B) (body : B → A → M S B) :
  (∀ b x, commutes f (body b x)) → commutes f (for_fold xs b body).
Proof.
  intros H. revert b. induction xs as [|x xs IH]; intros b; simpl.
  - apply commutes_ret.
  - apply commutes_bind; [apply H|apply IH].
Qed.

Lemma preserves_ret {T A} (proj : S → T) (a : A) : preserves proj (mret a : M S A).
Proof. by intros s. Qed.

Lemma preserves_raise {T A} (proj : S → T) e : preserves proj (raise e : M S A).
Proof. by intros s. Qed.

Lemma preserves_bind {T A B} (proj : S → T) (m : M S A) (k : A → M S B) :
  preserves proj m → (∀ a, preserves proj (k a)) → preserves proj (m ≫= k).
Proof.
  intros Hm Hk s. unfold mbind, M_bind. specialize (Hm s).
  destruct (m s) as [a s'|e s']; simpl in *; [|done].
  by rewrite Hk.
Qed.

Lemma preserves_gets {T A} (proj : S → T) (g : S → A) : preserves proj (gets g).
Proof. by intros s. Qed.

Lemma preserves_modify {T} (proj : S → T) (g : S → S) :
  (∀ s, proj (g s) = proj s) → preserves proj (modify g).
Proof. intros Hg s. apply Hg. Qed.

Lemma preserves_zoom {T U A} (proj : S → T) (get : S → U) (upd : U → S → S) (m : M U A) :
  (∀ u s, proj (upd u s) = proj s) → preserves proj (zoom get upd m).
Proof. intros Hu s. unfold zoom. destruct (m (get s)); simpl; apply Hu. Qed.

Lemma preserves_or_raise {T A} (proj : S → T) e (o : option A) :
  preserves proj (or_raise e o : M S A).
Proof. destruct o; [apply preserves_ret|apply preserves_raise]. Qed.

Lemma preserves_for_each {T A} (proj : S → T) (xs : list A) (body : A → M S unit) :
  (∀ x, preserves proj (body x)) → preserves proj (for_each xs body).
Proof.
  intros Hb. induction xs as [|x xs IH]; simpl.
  - apply preserves_ret.
  - apply preserves_bind; [apply Hb|by intros _].
Qed.

Lemma preserves_for_fold {T A B} (proj : S → T) (xs : list A) (b : B)
    (body : B → A → M S B) :
  (∀ b x, preserves proj (body b x)) → preserves proj (for_fold xs b body).
Proof.
  intros Hb. revert b. induction xs as [|x xs IH]; intros b; simpl.
  - apply preserves_ret.
  - apply preserves_bind; [apply Hb|apply IH].
Qed.

End MonadFacts.

(** Decomposes a goal [commutes f m] or [preserves proj m] along the
    structure of [m]. *)
Ltac frame :=
  repeat first
    [ match goal with
      | |- commutes _ (mbind _ _) => apply commutes_bind
      | |- commutes _ (mret _) => apply commutes_ret
      | |- commutes _ (raise _) => apply commutes_raise
      | |- commutes _ (or_raise _ _) => apply commutes_or_raise
      | |- commutes _ (gets _) => apply commutes_gets
      | |- commutes _ (modify _) => apply commutes_modify
      | |- commutes _ (zoom _ _ _) => apply commutes_zoom
      | |- commutes _ (for_each _ _) => apply commutes_for_each
      | |- commutes _ (for_fold _ _ _) => apply commutes_for_fold
      | |- preserves _ (mbind _ _) => apply preserves_bind
      | |- preserves _ (mret _) => apply preserves_ret
      | |- preserves _ (raise _) => apply preserves_raise
      | |- preserves _ (or_raise _ _) => apply preserves_or_raise
      | |- preserves _ (gets _) => apply preserves_gets
      | |- preserves _ (modify _) => apply preserves_modify
      | |- preserves _ (zoom _ _ _) => apply preserves_zoom
      | |- preserves _ (for_each _ _) => apply preserves_for_each
      | |- preserves _ (for_fold _ _ _) => apply preserves_for_fold
      | |- ∀ _, _ => intro
      | x : (_ * _)%type |- _ => destruct x
      | |- context [if decide ?P then _ else _] => destruct (decide P)
      | |- context [match ?x with _ => _ end] => destruct x
      end
    | done ].

(** ** Queries *)

Section LedgerFacts.

Context {Env : Type} `{Co : !Collaborators Env} `{SO : !SetOrder}.

Lemma py_le_scalar_le a b : py_le a b = true ↔ scalar_le a b.
Proof.
  destruct a as [|x], b as [|y]; simpl; try (split; [done|tauto]).
  apply Z.leb_le.
Qed.

Lemma select_extant time (a l : list scalar) (o : list ref) :
  length a = length o → length l = length o →
  select o (zip_with andb ((fun x => py_le x time) <$> a) ((fun x => py_ge x time) <$> l))
  = extant_rows time (Ledger a l o).
Proof.
  unfold extant_rows, ledger_rows. simpl.
  revert a l. induction o as [|r o IH]; intros [|x a] [|y l] Ha Hl;
    simpl in *; try done.
  injection Ha as Ha. injection Hl as Hl. unfold py_ge.
  destruct (py_le x time && py_le time y) eqn:E.
  - rewrite filter_cons_True.
    + simpl. f_equal. by apply IH.
    + simpl. rewrite <- !py_le_scalar_le. by apply andb_true_iff.
  - rewrite filter_cons_False; [by apply IH|].
    simpl. rewrite <- !py_le_scalar_le, <- andb_true_iff. congruence.
Qed.

Lemma elem_of_ledger_rows (d : ledger) x y o :
  (x, y, o) ∈ ledger_rows d ↔
  ∃ i, time_appeared d !! i = Some x ∧ latest_time d !! i = Some y
       ∧ object d !! i = Some o.
Proof.
  unfold ledger_rows. rewrite list_elem_of_lookup. split.
  - intros [i Hi]. exists i.
    apply lookup_zip_with_Some in Hi as (xy & o' & Heq & Hxy & Ho).
    apply lookup_zip_with_Some in Hxy as (x' & y' & -> & Hx & Hy).
    by simplify_eq.
  - intros (i & Hx & Hy & Ho). exists i.
    apply lookup_zip_with_Some. exists (x, y), o. split; [done|].
    split; [|done]. apply lookup_zip_with_Some. eauto.
Qed.

(** *** Arrays of times *)

Lemma pow_2_53 : 2 ^ 53 = 9007199254740992.
Proof. reflexivity. Qed.

Lemma pow_2_63 : 2 ^ 63 = 9223372036854775808.
Proof. reflexivity. Qed.

Lemma pow_2_64 : 2 ^ 64 = 18446744073709551616.
Proof. reflexivity. Qed.

Lemma length_np_compare cmp l time : length (np_compare cmp l time) = length l.
Proof. unfold np_compare. destruct time; by rewrite length_fmap. Qed.

Lemma int_dtype_exact z : Z.abs z ≤ 2 ^ 53 → int_dtype z = Int64.
Proof.
  rewrite pow_2_53. intros Hz. unfold int_dtype.
  rewrite decide_True; [done|]. rewrite pow_2_63. lia.
Qed.

(** [float64] holds the integers up to 2^53 in magnitude as they are. *)
Lemma float64_of_int_exact z : Z.abs z ≤ 2 ^ 53 → float64_of_int z = z.
Proof.
  intros Hz. unfold float64_of_int. cbv zeta. case_decide as Hlt; [done|].
  rewrite pow_2_53 in Hz, Hlt.
  assert (z = 9007199254740992 ∨ z = - 9007199254740992) as [->| ->] by lia;
    reflexivity.
Qed.

Lemma promote_exact (l : list scalar) t :
  Forall exact_time l → (t = Int64 ∨ t = Float64) →
  let r := foldr (fun y t => promote_types (scalar_dtype y) t) t l in
  r = Int64 ∨ r = Float64.
Proof.
  intros Hl Ht. induction Hl as [|x l Hx Hl IH]; simpl; [done|].
  destruct IH as [-> | ->], x as [|z]; simpl in *;
    rewrite ?int_dtype_exact by done; auto.
Qed.

(** An array of exact times is an [int64] or a [float64] array. *)
Lemma array_dtype_exact (l : list scalar) :
  Forall exact_time l → array_dtype l = Int64 ∨ array_dtype l = Float64.
Proof.
  intros Hl. destruct Hl as [|x l Hx Hl]; simpl; [by right|].
  apply promote_exact; [done|].
  destruct x as [|z]; simpl in *; rewrite ?int_dtype_exact by done; auto.
Qed.

Lemma promote_object (l : list scalar) t :
  (t = Object ∨ ∃ x, x ∈ l ∧ scalar_dtype x = Object) →
  foldr (fun y t => promote_types (scalar_dtype y) t) t l = Object.
Proof.
  induction l as [|y l IH]; simpl.
  - intros [->|(x & Hx & _)]; [done|]. by apply elem_of_nil in Hx.
  - intros [->|(x & Hx & Ho)].
    + rewrite IH by auto. by destruct (scalar_dtype y).
    + apply elem_of_cons in Hx as [->|Hx].
      * rewrite Ho. by destruct (foldr _ _ _).
      * rewrite IH by eauto. by destruct (scalar_dtype y).
Qed.

(** An integer that fits neither integer type makes the array one of
    objects. *)
Lemma array_dtype_object (l : list scalar) x :
  x ∈ l → scalar_dtype x = Object → array_dtype l = Object.
Proof.
  intros Hx Ho. destruct l as [|y l]; [by apply elem_of_nil in Hx|]. simpl.
  apply promote_object. apply elem_of_cons in Hx as [->|Hx]; eauto.
Qed.

(** On exact times the comparison of arrays is the comparison of numbers. *)
Lemma np_compare_exact cmp (l : list scalar) time :
  Forall exact_time l → exact_time time →
  np_compare cmp l time
  = (fun x => match x, time with
              | Num z, Num t => cmp z t
              | _, _ => false
              end) <$> l.
Proof.
  intros Hl Ht. unfold np_compare. destruct time as [|t].
  { apply list_fmap_ext. by intros i [|z] _. }
  cbv zeta. apply list_fmap_ext. intros i [|z] Hi; [done|].
  assert (exact_time (Num z)) as Hz.
  { rewrite Forall_forall in Hl. apply Hl. by eapply list_elem_of_lookup_2. }
  simpl in Hz, Ht.
  destruct (array_dtype_exact l Hl) as [-> | ->]; simpl.
  - by rewrite (int_dtype_exact t).
  - rewrite decide_True.
    + by rewrite !float64_of_int_exact.
    + rewrite pow_2_53 in Ht. rewrite pow_2_63, pow_2_64. lia.
Qed.

Lemma np_le_exact (l : list scalar) time :
  Forall exact_time l → exact_time time →
  np_le l time = (fun a => py_le a time) <$> l.
Proof.
  intros Hl Ht. unfold np_le. rewrite np_compare_exact by done.
  apply list_fmap_ext. by intros i [|z] _; destruct time.
Qed.

Lemma np_ge_exact (l : list scalar) time :
  Forall exact_time l → exact_time time →
  np_ge l time = (fun a => py_ge a time) <$> l.
Proof.
  intros Hl Ht. unfold np_ge. rewrite np_compare_exact by done.
  apply list_fmap_ext. by intros i [|z] _; destruct time.
Qed.

(** A time in the array is found equal to itself, whatever the type of the
    array. *)
Lemma np_compare_refl cmp (l : list scalar) i t :
  (∀ z, cmp z z = true) → l !! i = Some (Num t) →
  np_compare cmp l (Num t) !! i = Some true.
Proof.
  intros Hrefl Hi. unfold np_compare. cbv zeta.
  rewrite list_lookup_fmap, Hi. simpl. f_equal.
  destruct (array_dtype l) eqn:Ea; simpl.
  - destruct (int_dtype t); apply Hrefl.
  - repeat case_decide; apply Hrefl.
  - case_decide as Hrange; [apply Hrefl|].
    rewrite (array_dtype_object l (Num t)) in Ea; [done|by eapply list_elem_of_lookup_2|].
    simpl. unfold int_dtype. rewrite !decide_False; [done|lia|lia].
  - apply Hrefl.
Qed.

Lemma elem_of_select {A} (arr : list A) (mask : list bool) i x :
  arr !! i = Some x → mask !! i = Some true → x ∈ select arr mask.
Proof.
  revert mask i. induction arr as [|y arr IH]; intros [|b mask] [|i]; simpl; try done.
  - intros [= ->] [= ->]. by left.
  - intros Hx Hm. destruct b; [right|]; by eapply IH.
Qed.

Lemma select_all_false {A} (arr : list A) (mask : list bool) :
  Forall (fun b => b = false) mask → select arr mask = [].
Proof.
  intros Hm. revert arr. induction Hm as [|b mask -> _ IH]; intros [|y arr]; simpl; auto.
Qed.

(** What the query returns on an aligned ledger: the objects at the
    positions where both comparisons of arrays hold. *)
Lemma objects_at_time_select time (d : ledger) (se : SpeciesEvolver Env) :
  aligned d →
  _objects_at_time time d se
  = Ok (select (object d)
          (zip_with andb (np_le (time_appeared d) time) (np_ge (latest_time d) time)))
       se.
Proof.
  intros [Ha Hl].
  unfold _objects_at_time, np_all2, np_mask, np_le, np_ge, mbind, M_bind.
  rewrite decide_True by (rewrite !length_np_compare; congruence).
  cbn. rewrite decide_True; [done|].
  rewrite length_zip_with, !length_np_compare. lia.
Qed.

(** On exact times these are the rows with
    [time_appeared ≤ time ≤ latest_time]. *)
Lemma objects_at_time_exact time (d : ledger) (se : SpeciesEvolver Env) :
  aligned d → exact_times d → exact_time time →
  _objects_at_time time d se = Ok (extant_rows time d) se.
Proof.
  intros Hal [Hea Hel] Ht. pose proof Hal as [Ha Hl].
  rewrite objects_at_time_select by done.
  rewrite np_le_exact, np_ge_exact by done.
  destruct d as [a l o]. simpl in *. by rewrite select_extant.
Qed.

(** C2, amended. On a ledger with one entry per row in each column, whose
    times are the sentinel or integers of magnitude at most 2^53, and for a
    query time of that kind, the query returns (without raising and without
    changing the state) the objects of the rows with
    time_appeared ≤ t ≤ latest_time, in ledger insertion order; so an entity
    is returned iff one of its rows satisfies the two inequalities. *)
Theorem objects_at_time_extant (time : scalar) (d : ledger) (se : SpeciesEvolver Env) :
  aligned d → exact_times d → exact_time time →
  _objects_at_time time d se = Ok (extant_rows time d) se
  ∧ ∀ o, o ∈ extant_rows time d ↔
         ∃ i a l, object d !! i = Some o ∧ time_appeared d !! i = Some a
                  ∧ latest_time d !! i = Some l
                  ∧ scalar_le a time ∧ scalar_le time l.
Proof.
  intros Hal Hex Ht. split.
  - by apply objects_at_time_exact.
  - intros o. unfold extant_rows. rewrite list_elem_of_fmap. split.
    + intros ([[a l] o'] & -> & Hin).
      apply list_elem_of_filter in Hin as [[H1 H2] Hin]. simpl in *.
      apply elem_of_ledger_rows in Hin as (i & ? & ? & ?).
      exists i, a, l. eauto.
    + intros (i & a & l & Ho & Hx & Hy & H1 & H2).
      exists (a, l, o). split; [done|].
      apply list_elem_of_filter. split; [done|].
      apply elem_of_ledger_rows. eauto.
Qed.

End LedgerFacts.

(** Bounds on the times of a concrete ledger. *)
Ltac solve_exact :=
  unfold exact_times; repeat split; repeat constructor; simpl; rewrite ?pow_2_53; lia.

(** ** Reconciliation of a ledger *)

Section ReconcileFacts.

Context {Env : Type} `{Co : !Collaborators Env} `{SO : !SetOrder}.

Lemma py_index_elem_of z (l : list ref) :
  z ∈ l → ∃ i, py_index z l = Some i ∧ l !! i = Some z.
Proof.
  induction l as [|y l IH]; intros Hz; [by apply elem_of_nil in Hz|].
  simpl. destruct (decide (z = y)) as [->|Hne]; [by exists O|].
  apply elem_of_cons in Hz as [?|Hz]; [done|].
  destruct (IH Hz) as (i & -> & Hi). by exists (S i).
Qed.

Lemma reconciled_latest_nil time (d : ledger) :
  length (latest_time d) = length (object d) →
  reconciled_latest time [] d = latest_time d.
Proof.
  unfold reconciled_latest. destruct d as [a l o]; simpl. clear a.
  revert l. induction o as [|x o IH]; intros [|y l] Hlen; simpl in *; try done.
  f_equal. apply IH. lia.
Qed.

Lemma reconciled_latest_length time zs (d : ledger) :
  length (latest_time d) = length (object d) →
  length (reconciled_latest time zs d) = length (object d).
Proof. intros Hlen. unfold reconciled_latest. rewrite length_zip_with. lia. Qed.

(** Touching one more entity. *)
Lemma reconciled_latest_cons time z zs a l (o : list ref) i :
  NoDup o → o !! i = Some z →
  reconciled_latest time zs (Ledger a (<[i := time]> l) o)
  = reconciled_latest time (z :: zs) (Ledger a l o).
Proof.
  intros Hnd Hi. unfold reconciled_latest. simpl.
  apply list_eq. intros j. rewrite !lookup_zip_with.
  destruct (o !! j) as [x|] eqn:Hj; simpl; [|done].
  destruct (decide (i = j)) as [->|Hij].
  - assert (x = z) as -> by congruence.
    destruct (l !! j) as [y|] eqn:Hl.
    + rewrite list_lookup_insert_eq by (by apply lookup_lt_Some in Hl). simpl.
      rewrite (decide_True (P := z ∈ z :: zs)) by (apply elem_of_cons; by left).
      by destruct (decide (z ∈ zs)).
    + rewrite list_insert_ge by (by apply lookup_ge_None).
      by rewrite Hl.
  - rewrite list_lookup_insert_ne by done.
    destruct (l !! j) as [y|]; simpl; [|done].
    assert (x ≠ z) as Hxz.
    { intros ->. apply Hij. by eapply NoDup_lookup. }
    destruct (decide (x ∈ zs)) as [Hin|Hnin].
    + rewrite decide_True; [done|]. apply elem_of_cons. by right.
    + rewrite decide_False; [done|].
      intros [?|?]%elem_of_cons; done.
Qed.

(** Entities whose rows already carry [time] are left as they are. *)
Lemma reconciled_latest_id time zs (d : ledger) :
  length (latest_time d) = length (object d) →
  (∀ j o, object d !! j = Some o → o ∈ zs → latest_time d !! j = Some time) →
  reconciled_latest time zs d = latest_time d.
Proof.
  intros Hlen Hzs. unfold reconciled_latest.
  apply list_eq. intros j. rewrite lookup_zip_with.
  destruct (object d !! j) as [x|] eqn:Hj; simpl.
  - destruct (latest_time d !! j) as [y|] eqn:Hl; simpl; [|done].
    destruct (decide (x ∈ zs)) as [Hin|]; [|done].
    specialize (Hzs j x Hj Hin). congruence.
  - symmetry. apply lookup_ge_None. apply lookup_ge_None in Hj. lia.
Qed.

Section Lens.

(** A dictionary of columns held in the state. *)
Context (get : SpeciesEvolver Env → ledger) (set : ledger → SpeciesEvolver Env → SpeciesEvolver Env).
Hypothesis get_set : ∀ d s, get (set d s) = d.
Hypothesis set_set : ∀ d d' s, set d' (set d s) = set d' s.
Hypothesis set_get : ∀ s, set (get s) s = s.

(** The loop over the tracked entities sets their latest time and nothing
    else, and does not raise. *)
Lemma touch_all_spec time (updated : list ref) (s : SpeciesEvolver Env) :
  length (latest_time (get s)) = length (object (get s)) →
  NoDup (object (get s)) →
  (∀ z, z ∈ updated → z ∈ object (get s)) →
  touch_all get set time updated s
  = Ok tt (set (Ledger (time_appeared (get s))
                       (reconciled_latest time updated (get s))
                       (object (get s))) s).
Proof.
  revert s. induction updated as [|z updated IH]; intros s Hlen Hnd Hin.
  - simpl. rewrite reconciled_latest_nil by done.
    destruct (get s) as [a l o] eqn:E. simpl. by rewrite <- E, set_get.
  - unfold touch_all in *. cbn [for_each].
    destruct (py_index_elem_of z (object (get s))) as (i & Hidx & Hi).
    { apply Hin, elem_of_cons. by left. }
    assert (i < length (latest_time (get s)))%nat as Hlt.
    { rewrite Hlen. by apply lookup_lt_Some in Hi. }
    erewrite bind_Ok; cycle 1.
    { unfold mbind, M_bind, gets, touch_latest_time, py_setitem, modify. simpl.
      rewrite Hidx, decide_True by done. reflexivity. }
    rewrite IH; rewrite ?get_set; simpl.
    + rewrite set_set. do 2 f_equal.
      destruct (get s) as [a l o]. simpl in *. f_equal.
      by apply reconciled_latest_cons.
    + by rewrite length_insert.
    + done.
    + intros z' Hz'. apply Hin, elem_of_cons. by right.
Qed.

End Lens.

Lemma reconciled_latest_ext time zs zs' (d : ledger) :
  (∀ o, o ∈ object d → (o ∈ zs ↔ o ∈ zs')) →
  reconciled_latest time zs d = reconciled_latest time zs' d.
Proof.
  intros Hext. unfold reconciled_latest.
  apply list_eq. intros j. rewrite !lookup_zip_with.
  destruct (object d !! j) as [x|] eqn:Hj; simpl; [|done].
  destruct (latest_time d !! j) as [y|]; simpl; [|done].
  assert (x ∈ zs ↔ x ∈ zs') as Hx by (apply Hext; by eapply list_elem_of_lookup_2).
  destruct (decide (x ∈ zs)), (decide (x ∈ zs')); tauto.
Qed.

Lemma reconciled_latest_lookup time zs (d : ledger) j o :
  length (latest_time d) = length (object d) →
  object d !! j = Some o →
  reconciled_latest time zs d !! j
  = if decide (o ∈ zs) then Some time else latest_time d !! j.
Proof.
  intros Hlen Hj. unfold reconciled_latest. rewrite lookup_zip_with, Hj. simpl.
  destruct (latest_time d !! j) as [y|] eqn:Hl; simpl.
  - by destruct (decide (o ∈ zs)).
  - apply lookup_ge_None in Hl. apply lookup_lt_Some in Hj. lia.
Qed.

Lemma extend_ledger_nil time (d : ledger) : extend_ledger time [] d = d.
Proof. destruct d. unfold extend_ledger. simpl. by rewrite !app_nil_r. Qed.

Lemma set_zones_zones (se : SpeciesEvolver Env) : set_zones (_zones se) se = se.
Proof. by destruct se. Qed.

Lemma update_zone_spec time zs (se : SpeciesEvolver Env) :
  aligned (_zones se) → NoDup (object (_zones se)) →
  _update_zone_data_structure time zs se
  = Ok tt (set_zones (reconciled time zs (_zones se)) se).
Proof.
  intros [_ Hlen] Hnd.
  unfold _update_zone_data_structure, _object_set_difference.
  rewrite (bind_Ok _ _ se (_zones se) se) by done.
  erewrite bind_Ok; cycle 1.
  { apply (touch_all_spec _zones set_zones); try done.
    - intros s. apply set_zones_zones.
    - intros z Hz. rewrite pyset_intersection_elem, !py_set_elem in Hz. tauto. }
  unfold reconciled.
  rewrite (reconciled_latest_ext time _ zs).
  - destruct (pyset_difference _ _) as [|z new] eqn:E.
    + by rewrite extend_ledger_nil.
    + done.
  - intros o Ho. rewrite pyset_intersection_elem, !py_set_elem. tauto.
Qed.

Lemma reconciled_aligned time zs (d : ledger) :
  aligned d → aligned (reconciled time zs d).
Proof.
  intros [Ha Hl]. unfold reconciled, extend_ledger, aligned. simpl.
  rewrite !length_app, length_replicate, reconciled_latest_length by done. lia.
Qed.

Lemma reconciled_NoDup time zs (d : ledger) :
  NoDup (object d) → NoDup (object (reconciled time zs d)).
Proof.
  intros Hnd. unfold reconciled. simpl. apply NoDup_app. split; [done|].
  split; [|apply pyset_difference_NoDup].
  intros x Hx Hx'. rewrite pyset_difference_elem, !py_set_elem in Hx'. tauto.
Qed.

Lemma reconciled_idem time zs (d : ledger) :
  aligned d → reconciled time zs (reconciled time zs d) = reconciled time zs d.
Proof.
  intros [Ha Hl].
  pose proof (reconciled_aligned time zs d (conj Ha Hl)) as [Ha1 Hl1].
  unfold reconciled at 1.
  assert (pyset_difference (py_set zs) (py_set (object (reconciled time zs d))) = [])
    as ->.
  { apply elem_of_nil_inv. intros x Hx.
    rewrite pyset_difference_elem, !py_set_elem in Hx.
    destruct Hx as [Hx Hnx]. apply Hnx.
    unfold reconciled. simpl. apply elem_of_app.
    destruct (decide (x ∈ object d)); [by left|right].
    by rewrite pyset_difference_elem, !py_set_elem. }
  rewrite extend_ledger_nil.
  rewrite reconciled_latest_id; [by destruct (reconciled time zs d)|done|].
  intros j o Hj Ho. unfold reconciled in *. simpl in *.
  destruct (decide (j < length (object d))%nat) as [Hlt|Hge].
  - rewrite lookup_app_l in Hj by done.
    rewrite lookup_app_l by (by rewrite reconciled_latest_length).
    erewrite reconciled_latest_lookup by done.
    by rewrite decide_True.
  - rewrite lookup_app_r in Hj by lia.
    rewrite lookup_app_r by (rewrite reconciled_latest_length by done; lia).
    rewrite reconciled_latest_length by done.
    apply lookup_replicate_2. by apply lookup_lt_Some in Hj.
Qed.

(** C6. Reconciling the zone ledger at [time] with a collection, on a ledger
    whose columns are aligned and whose objects are distinct, succeeds, and
    doing it again changes nothing.  The entities of the collection that
    were not tracked are appended once each, with
    time_appeared = latest_time = time; no row is duplicated and the
    columns stay aligned; a tracked entity of the collection has its latest
    time set to [time], and a tracked entity outside of it keeps its latest
    time. *)
Theorem reconcile_idempotent time zs (se : SpeciesEvolver Env) :
  aligned (_zones se) → NoDup (object (_zones se)) →
  ∃ new se1,
    _update_zone_data_structure time zs se = Ok tt se1
    ∧ _update_zone_data_structure time zs se1 = Ok tt se1
    ∧ se1 = set_zones (_zones se1) se
    ∧ NoDup new ∧ (∀ z, z ∈ new ↔ z ∈ zs ∧ z ∉ object (_zones se))
    ∧ object (_zones se1) = object (_zones se) ++ new
    ∧ NoDup (object (_zones se1)) ∧ aligned (_zones se1)
    ∧ time_appeared (_zones se1)
      = time_appeared (_zones se) ++ replicate (length new) time
    ∧ drop (length (object (_zones se))) (latest_time (_zones se1))
      = replicate (length new) time
    ∧ ∀ i o, object (_zones se) !! i = Some o →
             latest_time (_zones se1) !! i
             = if decide (o ∈ zs) then Some time else latest_time (_zones se) !! i.
Proof.
  intros Hal Hnd.
  exists (pyset_difference (py_set zs) (py_set (object (_zones se)))),
         (set_zones (reconciled time zs (_zones se)) se).
  split; [by apply update_zone_spec|].
  split.
  { rewrite update_zone_spec; cbn [_zones set_zones].
    - by rewrite reconciled_idem.
    - by apply reconciled_aligned.
    - by apply reconciled_NoDup. }
  split; [done|].
  split; [apply pyset_difference_NoDup|].
  split; [intros z; by rewrite pyset_difference_elem, !py_set_elem|].
  split; [done|].
  split; [by apply reconciled_NoDup|].
  split; [by apply reconciled_aligned|].
  split; [done|].
  destruct Hal as [Ha Hl]. simpl. split.
  - rewrite drop_app_length'; [done|]. symmetry. by apply reconciled_latest_length.
  - intros i o Hi.
    rewrite lookup_app_l
      by (rewrite reconciled_latest_length by done; by apply lookup_lt_Some in Hi).
    by apply reconciled_latest_lookup.
Qed.

End ReconcileFacts.

(** ** Introduction of a species *)

Section IntroductionFacts.

Context {Env : Type} `{Co : !Collaborators Env} `{SO : !SetOrder}.

Lemma singleton_by_elements (l : list ref) s :
  NoDup l → (∀ x, x ∈ l ↔ x = s) → l = [s].
Proof.
  intros Hnd Hl. destruct l as [|x l].
  - exfalso. eapply not_elem_of_nil. by apply Hl.
  - assert (x = s) as -> by (apply Hl, elem_of_cons; by left).
    f_equal. apply elem_of_nil_inv. intros y Hy.
    apply NoDup_cons in Hnd as [Hnot _].
    assert (y = s) as -> by (apply Hl, elem_of_cons; by right).
    done.
Qed.

(** A species that is not tracked is the only new object. *)
Lemma object_set_difference_new s (d : ledger) :
  s ∉ object d → _object_set_difference [s] d = ([], [s]).
Proof.
  intros Hs. unfold _object_set_difference. f_equal.
  - apply elem_of_nil_inv. intros x.
    rewrite pyset_intersection_elem, !py_set_elem, list_elem_of_singleton.
    intros [-> ?]. done.
  - apply singleton_by_elements; [apply pyset_difference_NoDup|].
    intros x. rewrite pyset_difference_elem, !py_set_elem, list_elem_of_singleton.
    split; [tauto|]. by intros ->.
Qed.

Lemma set_species_columns_id (se : SpeciesEvolver Env) :
  set_species_columns (species_columns se) se = se.
Proof. destruct se as [r [c n d] z i m w]. done. Qed.

(** C7. [introduce_species] raises, leaving the whole state as it was, when
    the species is already tracked and when it occupies no zone.  Otherwise,
    the record holding its times, it succeeds: a clade name that was not in
    the registry is issued with the number 0, that pair becomes the
    identifier of the species, and the species is appended to the species
    ledger with time_appeared = latest_time = the greatest recorded time;
    the record, the zone ledger and the other rows are untouched. *)
Theorem introduce_species_spec (s : ref) (se : SpeciesEvolver Env) :
  (s ∈ object (columns (_species se)) →
   introduce_species s se
   = Raise (Exception "The species object, {} was already introduced.") se)
  ∧ (s ∉ object (columns (_species se)) →
     Species._zones (species_at (world se) s) = [] →
     introduce_species s se
     = Raise (Exception
         "The species object, {} is not found in any zones. It was not introduced.") se)
  ∧ (s ∉ object (columns (_species se)) →
     Species._zones (species_at (world se) s) ≠ [] →
     ∀ t time, od_get "time" (_record se) = Some t → py_max t = Some time →
     ∃ c, _species_ids se !! c = None
          ∧ introduce_species s se
            = Ok tt (mkSpeciesEvolver
                (_record se)
                (SpeciesLedger
                   (clade (_species se) ++ [c])
                   (species_number (_species se) ++ [0])
                   (Ledger (time_appeared (columns (_species se)) ++ [time])
                           (latest_time (columns (_species se)) ++ [time])
                           (object (columns (_species se)) ++ [s])))
                (_zones se)
                (<[c := Some 0]> (_species_ids se))
                (_zone_managers se)
                (assign_identifier s (c, 0) (world se)))).
Proof.
  split; [|split].
  - intros Hin. unfold introduce_species.
    rewrite (bind_Ok _ _ se (_species se) se) by done.
    by rewrite decide_True.
  - intros Hnin Hz. unfold introduce_species.
    rewrite (bind_Ok _ _ se (_species se) se) by done.
    rewrite decide_False by done.
    rewrite (bind_Ok _ _ se (world se) se) by done.
    by rewrite Hz.
  - intros Hnin Hz t time Ht Hmax.
    destruct (AllocatorFacts.get_unused_clade_name_fresh (_species_ids se))
      as (c & Hc & Hfresh).
    exists c. split; [done|].
    unfold introduce_species.
    rewrite (bind_Ok _ _ se (_species se) se) by done.
    rewrite decide_False by done.
    rewrite (bind_Ok _ _ se (world se) se) by done.
    destruct (Species._zones (species_at (world se) s)) as [|z zs]; [done|].
    erewrite bind_Ok; cycle 1.
    { unfold _get_unused_clade_name, in_species_ids, zoom. by rewrite Hc. }
    erewrite bind_Ok; cycle 1.
    { unfold _get_unused_species_id, in_species_ids, zoom,
        Allocator._get_unused_species_id. simpl.
      by rewrite lookup_insert_eq. }
    rewrite insert_insert_eq.
    erewrite bind_Ok by reflexivity.
    erewrite bind_Ok; cycle 1.
    { unfold record_time, mbind, M_bind, gets. simpl. by rewrite Ht. }
    erewrite bind_Ok by (by rewrite Hmax).
    unfold _update_species_data_structure.
    erewrite bind_Ok by reflexivity.
    unfold species_columns. simpl.
    pose proof (object_set_difference_new s _ Hnin) as Hd.
    unfold _object_set_difference in Hd. injection Hd as -> ->.
    unfold touch_all. simpl.
    unfold mbind, M_bind, gets, modify, identifiers_of. simpl.
    rewrite decide_True by done. simpl.
    by destruct (_species se) as [cl nb [a l o]].
Qed.

End IntroductionFacts.

(** ** Queries by identifier *)

Section IdentifierQueryFacts.

Context {Env : Type}.

(** What holds of the keys: a key that is neither a tuple, a string nor an
    integer raises the [TypeError] of the last branch; a tuple of two or more
    elements that is not a (string, integer) pair raises the [TypeError] of
    the tuple branch; a well-formed key without a matching row returns
    [None]. *)
Lemma species_with_identifier_checked (se : SpeciesEvolver Env) rows :
  DataFrame (_species se) = Some rows →
  (∀ key, match key with PyTuple _ | PyStr _ | PyInt _ => False | _ => True end →
          species_with_identifier key se = Raise (TypeError type_message) se)
  ∧ (∀ c n rest,
       ¬ (rest = [] ∧ isinstance_str c = true ∧ isinstance_int n = true) →
       species_with_identifier (PyTuple (c :: n :: rest)) se
       = Raise (TypeError tuple_message) se)
  ∧ (∀ c n, List.filter (fun r => clade_eq (PyStr c) r && species_number_eq (PyInt n) r)
                        rows = [] →
            species_with_identifier (PyTuple [PyStr c; PyInt n]) se = Ok None se)
  ∧ (∀ c, List.filter (clade_eq (PyStr c)) rows = [] →
          species_with_identifier (PyStr c) se = Ok None se)
  ∧ (∀ n, List.filter (species_number_eq (PyInt n)) rows = [] →
          species_with_identifier (PyInt n) se = Ok None se).
Proof.
  intros Hdf. unfold species_with_identifier, mbind, M_bind, gets.
  rewrite Hdf. simpl. repeat split.
  - by intros [ | | | | | | ] Hk.
  - intros c n rest Hbad. simpl.
    destruct rest as [|x rest]; simpl.
    + destruct (isinstance_str c) eqn:Ec, (isinstance_int n) eqn:En; simpl; try done.
      exfalso. by apply Hbad.
    + done.
  - intros c n Hnone. by rewrite Hnone.
  - intros c Hnone. by rewrite Hnone.
  - intros n Hnone. by rewrite Hnone.
Qed.

(** C8. A tuple key with fewer than two elements does not reach the check of
    its length: reading its first or second element raises [IndexError], not
    the [TypeError] that the message of the tuple branch announces for a
    tuple whose length is not 2. *)
Theorem short_tuple_raises_IndexError (se : SpeciesEvolver Env) rows :
  DataFrame (_species se) = Some rows →
  species_with_identifier (PyTuple []) se = Raise IndexError se
  ∧ ∀ v, species_with_identifier (PyTuple [v]) se = Raise IndexError se.
Proof.
  intros Hdf. unfold species_with_identifier, mbind, M_bind, gets.
  by rewrite Hdf.
Qed.

End IdentifierQueryFacts.


(** ** What the steps of a tick read and write *)

Section FrameFacts.

Context {Env : Type} `{Co : !Collaborators Env}.

(** Up to the update of the zone ledger, a tick leaves both ledgers as they
    were. *)
Lemma insert_record_add_on_preserves {T} (proj : SpeciesEvolver Env → T) a :
  (∀ r s, proj (set_record r s) = proj s) →
  preserves proj (_insert_record_add_on a).
Proof.
  intros Hp. unfold _insert_record_add_on, insert_record_item, record_time. frame.
Qed.

Lemma zone_destinations_preserves {T} (proj : SpeciesEvolver Env → T) dt :
  (∀ r s, proj (set_record r s) = proj s) →
  (∀ w s, proj (set_world w s) = proj s) →
  preserves proj (zone_destinations dt).
Proof.
  intros Hr Hw.
  unfold zone_destinations, record_time, create_all_zones, _get_prior_time,
    zones_at_time, _objects_at_time, update_paths_of, in_world, record_time.
  frame; by apply insert_record_add_on_preserves.
Qed.

Lemma process_zones_destinations `{SO : !SetOrder} dt (se : SpeciesEvolver Env) :
  process_zones dt se
  = ('(time, destinations) ← zone_destinations dt;
     _update_zone_data_structure time (py_set destinations);;
     mret time) se.
Proof.
  unfold process_zones, zone_destinations, _get_updated_zones, mbind, M_bind.
  repeat case_match; unfold mret, M_ret in *; simplify_eq; congruence.
Qed.

(** The species are evolved without a look at the zone ledger. *)
Lemma get_surviving_species_commutes time dt z :
  commutes (set_zones z) (_get_surviving_species time dt : M (SpeciesEvolver Env) _).
Proof.
  unfold _get_surviving_species, _get_prior_time, record_time, species_at_time,
    _objects_at_time, evolve_one, set_child_identifier, _get_unused_species_id,
    in_species_ids, in_world, _insert_record_add_on, insert_record_item, record_time.
  frame.
Qed.

Lemma get_surviving_species_preserves {T} (proj : SpeciesEvolver Env → T) time dt :
  (∀ r s, proj (set_record r s) = proj s) →
  (∀ w s, proj (set_world w s) = proj s) →
  (∀ i s, proj (set_species_ids i s) = proj s) →
  preserves proj (_get_surviving_species time dt).
Proof.
  intros Hr Hw Hi.
  unfold _get_surviving_species, _get_prior_time, record_time, species_at_time,
    _objects_at_time, evolve_one, set_child_identifier, _get_unused_species_id,
    in_species_ids, in_world, record_time.
  frame; by apply insert_record_add_on_preserves.
Qed.

Lemma update_species_commutes `{SO : !SetOrder} time survivors z :
  commutes (set_zones z) (_update_species_data_structure time survivors : M (SpeciesEvolver Env) _).
Proof.
  unfold _update_species_data_structure, touch_all. frame.
Qed.

End FrameFacts.

(** ** A tick and the iteration order of sets *)

Section SetOrderFacts.

Context {Env : Type} `{Co : !Collaborators Env}.

Lemma same_rows_refl {A} n (l : list A) : same_rows_up_to_order n l l.
Proof. by split. Qed.

Lemma same_rows_app {A B} (base : list A) (f : B → A) (new1 new2 : list B) :
  new1 ≡ₚ new2 →
  same_rows_up_to_order (length base) (base ++ (f <$> new1)) (base ++ (f <$> new2)).
Proof.
  intros Hp. unfold same_rows_up_to_order.
  rewrite !take_app_length, !drop_app_length. split; [done|].
  by apply fmap_Permutation.
Qed.

Lemma replicate_as_fmap {A B} (x : A) (l : list B) :
  replicate (length l) x = (fun _ => x) <$> l.
Proof. induction l as [|y l IH]; simpl; [done|]. f_equal. exact IH. Qed.

Lemma zip_fmap_same {A B C} (f : A → B) (g : A → C) (l : list A) :
  zip (f <$> l) (g <$> l) = (fun x => (f x, g x)) <$> l.
Proof. induction l as [|y l IH]; simpl; [done|]. f_equal. exact IH. Qed.

(** The rows of an extended ledger. *)
Lemma ledger_rows_extend time new (d : ledger) :
  aligned d →
  ledger_rows (extend_ledger time new d)
  = ledger_rows d ++ ((fun o => (time, time, o)) <$> new).
Proof.
  intros [Ha Hl]. unfold ledger_rows, extend_ledger. simpl.
  rewrite !replicate_as_fmap.
  rewrite (zip_with_app pair (time_appeared d)) by congruence.
  rewrite (zip_with_app pair (zip (time_appeared d) (latest_time d))).
  - f_equal. rewrite zip_fmap_same.
    rewrite <- (list_fmap_id new) at 2. by rewrite zip_fmap_same.
  - rewrite length_zip_with. lia.
Qed.

Lemma new_objects_Permutation (SO1 SO2 : SetOrder) (zs1 zs2 objs : list ref) :
  (∀ x, x ∈ zs1 ↔ x ∈ zs2) →
  @pyset_difference SO1 (@py_set SO1 zs1) (@py_set SO1 objs)
  ≡ₚ @pyset_difference SO2 (@py_set SO2 zs2) (@py_set SO2 objs).
Proof.
  intros Hzs. apply NoDup_Permutation; try apply pyset_difference_NoDup.
  intros x. rewrite !pyset_difference_elem, !py_set_elem, Hzs. done.
Qed.

(** Reconciling with the same entities under two iteration orders gives the
    same rows, the appended ones up to their order. *)
Lemma reconciled_up_to_order (SO1 SO2 : SetOrder) time (zs1 zs2 : list ref) (d : ledger) :
  aligned d → (∀ x, x ∈ zs1 ↔ x ∈ zs2) →
  same_rows_up_to_order (length (object d))
    (ledger_rows (reconciled (SO := SO1) time zs1 d))
    (ledger_rows (reconciled (SO := SO2) time zs2 d)).
Proof.
  intros Hal Hzs. unfold reconciled.
  assert (aligned (Ledger (time_appeared d) (reconciled_latest time zs1 d) (object d)))
    as Hal1.
  { destruct Hal as [Ha Hl]. split; simpl; [done|].
    by apply reconciled_latest_length. }
  rewrite (reconciled_latest_ext time zs2 zs1) by (intros; symmetry; apply Hzs).
  rewrite !ledger_rows_extend by done.
  assert (length (object d)
          = length (ledger_rows
              (Ledger (time_appeared d) (reconciled_latest time zs1 d) (object d))))
    as ->.
  { unfold ledger_rows. simpl. destruct Hal as [Ha Hl].
    rewrite !length_zip_with, reconciled_latest_length by done. lia. }
  apply same_rows_app. by apply new_objects_Permutation.
Qed.

Lemma identifiers_of_case (w : World Env) (l : list ref) :
  identifiers_of w l
  = if decide (Forall (fun o => is_Some (Species.identifier (species_at w o))) l)
    then Some (identifier_or_default w <$> l) else None.
Proof.
  unfold identifiers_of. induction l as [|o l IH]; simpl; [done|].
  unfold identifier_or_default at 1.
  destruct (Species.identifier (species_at w o)) as [sid|] eqn:E; simpl.
  - rewrite IH. destruct (decide (Forall _ l)) as [Hl|Hl]; simpl.
    + rewrite decide_True; [done|]. constructor; [by rewrite E|done].
    + rewrite decide_False; [done|]. by intros [_ ?]%Forall_cons.
  - rewrite decide_False; [done|]. intros [[? Hs] _]%Forall_cons. congruence.
Qed.

(** The species ledger after a reconciliation at [time] with the survivors,
    under an iteration order: the survivors that are tracked have their
    latest time set; those that are not are appended with their identifiers,
    unless one of them has none, in which case the call raises after the
    first part. *)
Lemma update_species_spec `{SO : !SetOrder} time survivors (s : SpeciesEvolver Env) :
  length (latest_time (columns (_species s))) = length (object (columns (_species s))) →
  NoDup (object (columns (_species s))) →
  _update_species_data_structure time survivors s
  = let d := _species s in
    let touched := Ledger (time_appeared (columns d))
                          (reconciled_latest time survivors (columns d))
                          (object (columns d)) in
    let new := pyset_difference (py_set survivors) (py_set (object (columns d))) in
    match identifiers_of (world s) new with
    | Some sids =>
        Ok tt (set_species
                 (SpeciesLedger (clade d ++ sids.*1) (species_number d ++ sids.*2)
                                (extend_ledger time new touched)) s)
    | None =>
        Raise (TypeError "'NoneType' object is not subscriptable")
              (set_species_columns touched s)
    end.
Proof.
  intros Hlen Hnd.
  unfold _update_species_data_structure, _object_set_difference.
  rewrite (bind_Ok _ _ s (species_columns s) s) by done.
  erewrite bind_Ok; cycle 1.
  { apply (touch_all_spec species_columns set_species_columns); try done.
    - intros s0. apply set_species_columns_id.
    - intros z Hz. rewrite pyset_intersection_elem, !py_set_elem in Hz. tauto. }
  unfold species_columns. cbv zeta.
  rewrite (reconciled_latest_ext time _ survivors)
    by (intros o Ho; rewrite pyset_intersection_elem, !py_set_elem; tauto).
  destruct (pyset_difference _ _) as [|z new] eqn:E.
  - simpl. rewrite extend_ledger_nil, !app_nil_r.
    by destruct s as [r [c n d] zo i m w].
  - rewrite (bind_Ok _ _ _ (world s) _) by done.
    destruct (identifiers_of (world s) (z :: new)) as [sids|]; [|done].
    by destruct s as [r [c n d] zo i m w].
Qed.

Lemma reconciled_new_nil `{SO : !SetOrder} time zs (d : ledger) :
  pyset_difference (py_set zs) (py_set (object (reconciled time zs d))) = [].
Proof.
  apply elem_of_nil_inv. intros x. unfold reconciled. simpl.
  rewrite pyset_difference_elem, !py_set_elem, elem_of_app,
    pyset_difference_elem, !py_set_elem.
  destruct (decide (x ∈ object d)); tauto.
Qed.

(** A species ledger that a reconciliation would not change is left as it
    is, without raising. *)
Lemma update_species_fixpoint `{SO : !SetOrder} time survivors (s : SpeciesEvolver Env) :
  aligned (columns (_species s)) → NoDup (object (columns (_species s))) →
  pyset_difference (py_set survivors) (py_set (object (columns (_species s)))) = [] →
  reconciled time survivors (columns (_species s)) = columns (_species s) →
  _update_species_data_structure time survivors s = Ok tt s.
Proof.
  intros [Ha Hl] Hnd Hnil Hfix.
  rewrite update_species_spec by done. cbv zeta.
  unfold reconciled in Hfix. rewrite Hnil in *. rewrite extend_ledger_nil in *.
  rewrite Hfix. simpl. rewrite !app_nil_r.
  by destruct s as [r [c n d] zo i m w].
Qed.

(** The species ledger is reconciled like the zone ledger: a second
    reconciliation at the same time with the same survivors changes
    nothing. *)
Lemma reconcile_species_idempotent `{SO : !SetOrder} time survivors
    (s s1 : SpeciesEvolver Env) :
  aligned (columns (_species s)) → NoDup (object (columns (_species s))) →
  _update_species_data_structure time survivors s = Ok tt s1 →
  columns (_species s1) = reconciled time survivors (columns (_species s))
  ∧ _update_species_data_structure time survivors s1 = Ok tt s1.
Proof.
  intros Hal Hnd. pose proof Hal as [Ha Hl].
  rewrite update_species_spec by done. cbv zeta.
  destruct (identifiers_of (world s) _) as [sids|] eqn:E; [|done].
  intros [= <-]. split; [done|].
  apply update_species_fixpoint; cbn [_species set_species columns];
    fold (reconciled time survivors (columns (_species s))).
  - by apply reconciled_aligned.
  - by apply reconciled_NoDup.
  - apply reconciled_new_nil.
  - by apply reconciled_idem.
Qed.

Lemma species_rows_extend time new (w : World Env) (d : species_ledger) :
  species_aligned d →
  species_rows (SpeciesLedger (clade d ++ (identifier_or_default w <$> new).*1)
                              (species_number d ++ (identifier_or_default w <$> new).*2)
                              (extend_ledger time new (columns d)))
  = species_rows d
    ++ ((fun o => ((identifier_or_default w o).1,
                   ((identifier_or_default w o).2, (time, time, o)))) <$> new).
Proof.
  intros (Hc & Hn & Hal). unfold species_rows. simpl.
  rewrite ledger_rows_extend by done.
  assert (length (ledger_rows (columns d)) = length (object (columns d))) as Hrows.
  { destruct Hal as [Ha Hl]. unfold ledger_rows. rewrite !length_zip_with. lia. }
  rewrite (zip_with_app pair (species_number d)) by congruence.
  rewrite (zip_with_app pair (clade d)) by (rewrite length_zip_with; lia).
  f_equal. rewrite <- !list_fmap_compose, !zip_fmap_same. done.
Qed.

Lemma preserves_final {T A} (proj : SpeciesEvolver Env → T)
    (m : M (SpeciesEvolver Env) A) s r :
  preserves proj m → m s = r → proj (final_state r) = proj s.
Proof. intros Hm <-. apply Hm. Qed.

(** The species step, run under two iteration orders on states that differ
    in their zone ledgers only. *)
Lemma process_species_up_to_order (SO1 SO2 : SetOrder) time dt
    (s : SpeciesEvolver Env) (z1 z2 : ledger) :
  species_aligned (_species s) → NoDup (object (columns (_species s))) →
  let r1 := @process_species Env Co SO1 time dt (set_zones z1 s) in
  let r2 := @process_species Env Co SO2 time dt (set_zones z2 s) in
  outcome r1 = outcome r2
  ∧ _record (final_state r1) = _record (final_state r2)
  ∧ _species_ids (final_state r1) = _species_ids (final_state r2)
  ∧ world (final_state r1) = world (final_state r2)
  ∧ _zones (final_state r1) = z1 ∧ _zones (final_state r2) = z2
  ∧ same_rows_up_to_order (length (object (columns (_species s))))
      (species_rows (_species (final_state r1)))
      (species_rows (_species (final_state r2))).
Proof.
  intros Hal Hnd. unfold process_species.
  rewrite !(bind_Ok _ _ (set_zones _ s) (_species s) (set_zones _ s)) by done.
  destruct (decide (length (object (columns (_species s))) = 0%nat)) as [Hempty|Hne].
  { simpl. split_and!; try done. }
  unfold mbind, M_bind. rewrite !get_surviving_species_commutes.
  destruct (_get_surviving_species time dt s) as [survivors s'|e s'] eqn:Eg; simpl;
    [|split_and!; done].
  assert (_species s' = _species s) as Hsp.
  { apply (preserves_final _species _ s _
             (get_surviving_species_preserves _species time dt
                ltac:(done) ltac:(done) ltac:(done)) Eg). }
  rewrite <- Hsp in *. clear Hsp Eg s.
  destruct Hal as (Hc & Hn & Ha & Hl).
  rewrite !update_species_commutes, !update_species_spec by done.
  cbv zeta. rewrite !identifiers_of_case.
  set (touched := Ledger (time_appeared (columns (_species s')))
                         (reconciled_latest time survivors (columns (_species s')))
                         (object (columns (_species s')))).
  set (new1 := @pyset_difference SO1 (@py_set SO1 survivors)
                 (@py_set SO1 (object (columns (_species s'))))).
  set (new2 := @pyset_difference SO2 (@py_set SO2 survivors)
                 (@py_set SO2 (object (columns (_species s'))))).
  assert (new1 ≡ₚ new2) as Hperm by (by apply new_objects_Permutation).
  assert (species_aligned
            (SpeciesLedger (clade (_species s')) (species_number (_species s'))
                           touched)) as Hal'.
  { repeat split; simpl; try done. by apply reconciled_latest_length. }
  destruct (decide (Forall _ new1)) as [H1|H1];
    destruct (decide (Forall _ new2)) as [H2|H2]; simpl.
  - split_and!; try done.
    pose proof (species_rows_extend time new1 (world s') _ Hal') as E1.
    pose proof (species_rows_extend time new2 (world s') _ Hal') as E2.
    simpl in E1, E2. rewrite E1, E2.
    assert (length (object (columns (_species s')))
            = length (species_rows
                (SpeciesLedger (clade (_species s')) (species_number (_species s'))
                               touched))) as ->.
    { unfold species_rows, ledger_rows. simpl.
      rewrite !length_zip_with, reconciled_latest_length by done. lia. }
    by apply same_rows_app.
  - exfalso. apply H2. by rewrite <- Hperm.
  - exfalso. apply H1. by rewrite Hperm.
  - split_and!; try done.
Qed.

Lemma run_one_step_unfold `{SO : !SetOrder} dt (se : SpeciesEvolver Env) :
  run_one_step dt se
  = match zone_destinations dt se with
    | Ok (time, destinations) s =>
        match _update_zone_data_structure time (py_set destinations) s with
        | Ok _ s' => process_species time dt s'
        | Raise e s' => Raise e s'
        end
    | Raise e s => Raise e s
    end.
Proof.
  unfold run_one_step, mbind, M_bind. rewrite process_zones_destinations.
  unfold mbind, M_bind.
  destruct (zone_destinations dt se) as [[time dest] s|e s]; [|done].
  by destruct (_update_zone_data_structure time (py_set dest) s).
Qed.

(** C9, amended. With the collaborators fixed, a tick is a function of the
    state and of the iteration order of Python sets: the zone managers are
    called in list order and the species in ledger order.  Two runs of one
    tick from the same state, with aligned ledgers of distinct objects, that
    differ in the iteration order of sets only, end the same way (both
    return or both raise the same exception) with the same record, registry
    and objects (hence the same identifiers); the rows the ledgers had keep
    their positions and receive the same times, and the rows appended in the
    tick are the same in both runs up to their order. *)
Theorem tick_up_to_set_order (SO1 SO2 : SetOrder) dt (se : SpeciesEvolver Env) :
  aligned (_zones se) → NoDup (object (_zones se)) →
  species_aligned (_species se) → NoDup (object (columns (_species se))) →
  let r1 := @run_one_step Env Co SO1 dt se in
  let r2 := @run_one_step Env Co SO2 dt se in
  outcome r1 = outcome r2
  ∧ _record (final_state r1) = _record (final_state r2)
  ∧ _species_ids (final_state r1) = _species_ids (final_state r2)
  ∧ world (final_state r1) = world (final_state r2)
  ∧ same_rows_up_to_order (length (object (_zones se)))
      (ledger_rows (_zones (final_state r1)))
      (ledger_rows (_zones (final_state r2)))
  ∧ same_rows_up_to_order (length (object (columns (_species se))))
      (species_rows (_species (final_state r1)))
      (species_rows (_species (final_state r2))).
Proof.
  intros Hz Hzn Hs Hsn. rewrite !run_one_step_unfold.
  destruct (zone_destinations dt se) as [[time dest] s'|e s'] eqn:Ezd;
    [|simpl; split_and!; try done; apply same_rows_refl].
  assert (_zones s' = _zones se) as Hzs.
  { apply (preserves_final _zones _ se _
             (zone_destinations_preserves _zones dt ltac:(done) ltac:(done)) Ezd). }
  assert (_species s' = _species se) as Hss.
  { apply (preserves_final _species _ se _
             (zone_destinations_preserves _species dt ltac:(done) ltac:(done)) Ezd). }
  rewrite <- Hzs, <- Hss in *. clear Hzs Hss Ezd se.
  rewrite !update_zone_spec by done.
  destruct (process_species_up_to_order SO1 SO2 time dt s'
              (@reconciled SO1 time (@py_set SO1 dest) (_zones s'))
              (@reconciled SO2 time (@py_set SO2 dest) (_zones s')) Hs Hsn)
    as (Ho & Hr & Hi & Hw & Hz1 & Hz2 & Hrows).
  split_and!; try done.
  rewrite Hz1, Hz2. apply reconciled_up_to_order; [done|].
  intros x. by rewrite !py_set_elem.
Qed.

End SetOrderFacts.

(** ** Children without parent *)

Section OrphanFacts.

Context {Env : Type} `{Co : !Collaborators Env}.

Lemma set_child_identifier_preserves {T} (proj : SpeciesEvolver Env → T) cs :
  (∀ w s, proj (set_world w s) = proj s) →
  (∀ i s, proj (set_species_ids i s) = proj s) →
  preserves proj (set_child_identifier cs).
Proof.
  intros Hw Hi.
  unfold set_child_identifier, _get_unused_species_id, in_species_ids. frame.
Qed.

Lemma evolve_one_preserves {T} (proj : SpeciesEvolver Env → T) time dt acc es :
  (∀ w s, proj (set_world w s) = proj s) →
  (∀ i s, proj (set_species_ids i s) = proj s) →
  preserves proj (evolve_one time dt acc es).
Proof.
  intros Hw Hi.
  unfold evolve_one, in_world. frame.
  by apply set_child_identifier_preserves.
Qed.

Lemma process_zones_preserves_species `{SO : !SetOrder} dt :
  preserves _species (process_zones dt : M (SpeciesEvolver Env) _).
Proof.
  unfold process_zones, record_time, create_all_zones, _get_updated_zones,
    _get_prior_time, zones_at_time, _objects_at_time, update_paths_of, in_world,
    _update_zone_data_structure, touch_all, record_time.
  frame; by apply insert_record_add_on_preserves.
Qed.

(** Giving a child its identifier leaves the parents as they are. *)
Lemma set_child_identifier_parents c (s s1 : SpeciesEvolver Env) r :
  set_child_identifier c s = Ok tt s1 →
  Species.parent_species (species_at (world s1) r)
  = Species.parent_species (species_at (world s) r).
Proof.
  unfold set_child_identifier, _get_unused_species_id, in_species_ids, zoom,
    Allocator._get_unused_species_id, mbind, M_bind, gets, or_raise, modify,
    mret, M_ret, raise.
  intros Heq. cbn in Heq.
  repeat (case_match; simplify_eq; cbn in * ); try done.
Qed.

Lemma set_child_identifier_orphan c (s : SpeciesEvolver Env) :
  Species.parent_species (species_at (world s) c) = None →
  set_child_identifier c s = Raise AttributeError s.
Proof.
  intros Hp. unfold set_child_identifier, mbind, M_bind, gets. cbn. by rewrite Hp.
Qed.

(** The loop over the children raises when it meets a child without parent,
    if not before, and the ledgers are as they were. *)
Lemma for_each_orphan children cs (s : SpeciesEvolver Env) :
  cs ∈ children →
  Species.parent_species (species_at (world s) cs) = None →
  ∃ e s', for_each children set_child_identifier s = Raise e s'
          ∧ _species s' = _species s ∧ _zones s' = _zones s.
Proof.
  revert s. induction children as [|c children IH]; intros s Hin Hp.
  { by apply elem_of_nil in Hin. }
  cbn [for_each]. unfold mbind, M_bind.
  pose proof (set_child_identifier_preserves _species c
                ltac:(done) ltac:(done) s) as Hsp.
  pose proof (set_child_identifier_preserves _zones c
                ltac:(done) ltac:(done) s) as Hzo.
  destruct (set_child_identifier c s) as [[] s1|e s1] eqn:E; simpl in *.
  - destruct (decide (cs = c)) as [->|Hne].
    { rewrite set_child_identifier_orphan in E by done. done. }
    apply elem_of_cons in Hin as [?|Hin]; [done|].
    destruct (IH s1 Hin) as (e & s' & -> & Hs' & Hz').
    { by rewrite (set_child_identifier_parents c s s1). }
    exists e, s'. split; [done|]. split; congruence.
  - eauto.
Qed.

(** C10. In a tick whose zone step has completed, if a species extant at the
    prior time is reached by the loop of the species step and its evolve
    call returns a child that has no parent species, then [run_one_step]
    raises, with the species ledger as it was before the call and the zone
    ledger as the zone step of the tick left it. *)
Theorem orphan_child_raises `{SO : !SetOrder} dt (se : SpeciesEvolver Env)
    time s_z extant pre es post a surv s_p children a' s_e cs :
  process_zones dt se = Ok time s_z →
  object (columns (_species s_z)) ≠ [] →
  (prior_time ← _get_prior_time; species_at_time prior_time) s_z = Ok extant s_z →
  extant = pre ++ es :: post →
  for_fold pre ([], []) (evolve_one time dt) s_z = Ok (a, surv) s_p →
  in_world (_evolve es time dt a) s_p = Ok (children, a') s_e →
  cs ∈ children →
  Species.parent_species (species_at (world s_e) cs) = None →
  ∃ e s', run_one_step dt se = Raise e s'
          ∧ _species s' = _species se
          ∧ _zones s' = _zones s_z.
Proof.
  intros Hpz Hne Hext -> Hpre Hev Hin Horphan.
  destruct (for_each_orphan children cs s_e Hin Horphan) as (e & s' & Hraise & Hs' & Hz').
  exists e, s'. split; [|split].
  - unfold run_one_step. rewrite (bind_Ok _ _ _ _ _ Hpz).
    unfold process_species.
    rewrite (bind_Ok _ _ s_z (_species s_z) s_z) by done.
    rewrite decide_False by (by destruct (object (columns (_species s_z)))).
    apply bind_Raise. unfold _get_surviving_species.
    unfold mbind, M_bind in Hext.
    destruct (_get_prior_time s_z) as [prior s1|e1 s1] eqn:Ep; [|done].
    rewrite (bind_Ok _ _ _ _ _ Ep), (bind_Ok _ _ _ _ _ Hext).
    apply bind_Raise. rewrite for_fold_app, (bind_Ok _ _ _ _ _ Hpre).
    cbn [for_fold]. apply bind_Raise.
    unfold evolve_one. rewrite (bind_Ok _ _ _ _ _ Hev).
    rewrite (bind_Ok _ _ s_e (world s_e) s_e) by done.
    by apply bind_Raise.
  - assert (preserves _species (in_world (_evolve es time dt a) : M (SpeciesEvolver Env) _))
      as Hw by (unfold in_world; frame).
    pose proof (preserves_final _species _ se _
                  (process_zones_preserves_species dt) Hpz) as H1.
    pose proof (preserves_final _species _ s_z _
                  (preserves_for_fold _species pre ([], []) (evolve_one time dt)
                     (fun b x => evolve_one_preserves _species time dt b x
                                   ltac:(done) ltac:(done))) Hpre) as H2.
    pose proof (preserves_final _species _ s_p _ Hw Hev) as H3.
    simpl in *. congruence.
  - assert (preserves _zones (in_world (_evolve es time dt a) : M (SpeciesEvolver Env) _))
      as Hw by (unfold in_world; frame).
    pose proof (preserves_final _zones _ s_z _
                  (preserves_for_fold _zones pre ([], []) (evolve_one time dt)
                     (fun b x => evolve_one_preserves _zones time dt b x
                                   ltac:(done) ltac:(done))) Hpre) as H2.
    pose proof (preserves_final _zones _ s_p _ Hw Hev) as H3.
    simpl in *. congruence.
Qed.

End OrphanFacts.

(** ** Merging contributions into the record *)

Section RecordFacts.

Context {Env : Type}.

Lemma od_get_set_eq {V} k (v : V) d : od_get k (od_set k v d) = Some v.
Proof.
  induction d as [|[k' v'] d IH]; simpl.
  - by rewrite decide_True.
  - destruct (decide (k = k')) as [->|Hne]; simpl.
    + by rewrite decide_True.
    + by rewrite decide_False.
Qed.

Lemma od_get_set_ne {V} k k' (v : V) d :
  k ≠ k' → od_get k (od_set k' v d) = od_get k d.
Proof.
  intros Hne. induction d as [|[k0 v0] d IH]; simpl.
  - by rewrite decide_False.
  - destruct (decide (k' = k0)) as [->|Hne']; simpl.
    + by rewrite !decide_False.
    + destruct (decide (k = k0)); [done|apply IH].
Qed.

Lemma od_set_new {V} k (v : V) d : k ∉ od_keys d → od_set k v d = d ++ [(k, v)].
Proof.
  unfold od_keys. induction d as [|[k' v'] d IH]; simpl; intros Hk; [done|].
  rewrite decide_False by (intros ->; apply Hk, elem_of_cons; by left).
  f_equal. apply IH. intros Hin. apply Hk, elem_of_cons. by right.
Qed.

Lemma od_set_set {V} k (v v' : V) d : od_set k v' (od_set k v d) = od_set k v' d.
Proof.
  induction d as [|[k0 v0] d IH]; simpl.
  - by rewrite decide_True.
  - destruct (decide (k = k0)) as [->|Hne]; simpl.
    + by rewrite decide_True.
    + rewrite decide_False by done. by rewrite IH.
Qed.

(** A new column is first filled with NaN for the ticks before the current
    one, whatever the other columns hold, then receives the value. *)
Lemma insert_record_item_new key value (se : SpeciesEvolver Env) t :
  od_get "time" (_record se) = Some t →
  key ∉ od_keys (_record se) →
  insert_record_item (key, value) se
  = Ok tt (set_record
             (_record se ++ [(key, replicate (length t - 1) NaN ++ [value])]) se).
Proof.
  intros Ht Hkey.
  unfold insert_record_item, record_time, mbind, M_bind, gets, modify. cbn.
  rewrite decide_False by done. rewrite Ht. cbn.
  rewrite od_get_set_eq. cbn.
  by rewrite od_set_set, od_set_new.
Qed.

(** A merge leaves a column that the contributions do not name exactly as it
    was: it appends neither a value nor NaN to it. *)
Lemma column_without_contribution k (a : add_on) :
  k ∉ a.*1 →
  preserves (fun se : SpeciesEvolver Env => od_get k (_record se))
            (_insert_record_add_on a).
Proof.
  intros Hk. unfold _insert_record_add_on.
  induction a as [|[key value] a IH]; cbn [for_each].
  - apply preserves_ret.
  - apply preserves_bind.
    + assert (k ≠ key) as Hne by (intros ->; apply Hk, elem_of_cons; by left).
      clear IH Hk. intros s.
      unfold insert_record_item, record_time, mbind, M_bind, gets, modify,
        or_raise, mret, M_ret, raise.
      cbn. repeat (case_match; simplify_eq; cbn in * ); try done;
        by rewrite ?od_get_set_ne by done.
    + intros _. apply IH. intros Hin. apply Hk, elem_of_cons. by right.
Qed.

End RecordFacts.

(** ** Scenarios on the scripted world *)

Module ExampleFacts.
Import Example.

Lemma short_tuple_raises_IndexError_witness :
  species_with_identifier (PyTuple []) se_three_zones
    = Raise IndexError se_three_zones
  ∧ ∀ v, species_with_identifier (PyTuple [v]) se_three_zones
         = Raise IndexError se_three_zones.
Proof. apply (short_tuple_raises_IndexError se_three_zones []). reflexivity. Defined.

Lemma objects_at_time_extant_witness :
  _objects_at_time (Num 2) three_zones se_three_zones
  = Ok [1%nat; 3%nat] se_three_zones.
Proof.
  apply (objects_at_time_extant (Num 2) three_zones se_three_zones).
  - split; reflexivity.
  - solve_exact.
  - solve_exact.
Defined.

(** C2 as it is stated, for every query time, fails on large integers.  In
    the ledger [large_times] the second zone appeared at 2^63 + 1, after the
    query time 2^63, and it is returned all the same, with the first: the
    column of the times of appearance holds an integer below 2^63 and one
    above, which makes it a [float64] array, and such an array holds
    2^63 + 1 as 2^63. *)
Lemma query_rounds_large_times :
  aligned large_times
  ∧ _objects_at_time (Num (2 ^ 63)) large_times se_three_zones
    = Ok [1%nat; 2%nat] se_three_zones
  ∧ extant_rows (Num (2 ^ 63)) large_times = [1%nat]
  ∧ ¬ scalar_le (Num (2 ^ 63 + 1)) (Num (2 ^ 63)).
Proof.
  split; [split; reflexivity|].
  split; [vm_compute; reflexivity|].
  split; [vm_compute; reflexivity|].
  simpl. rewrite pow_2_63. lia.
Qed.

Lemma reconcile_idempotent_witness :
  ∃ new se1,
    _update_zone_data_structure (SO := stable_order) (Num 4) [3%nat; 4%nat; 1%nat]
      se_three_zones = Ok tt se1
    ∧ _update_zone_data_structure (SO := stable_order) (Num 4) [3%nat; 4%nat; 1%nat]
        se1 = Ok tt se1
    ∧ se1 = set_zones (_zones se1) se_three_zones
    ∧ NoDup new
    ∧ (∀ z, z ∈ new ↔ z ∈ [3%nat; 4%nat; 1%nat] ∧ z ∉ object (_zones se_three_zones))
    ∧ object (_zones se1) = object (_zones se_three_zones) ++ new
    ∧ NoDup (object (_zones se1)) ∧ aligned (_zones se1)
    ∧ time_appeared (_zones se1)
      = time_appeared (_zones se_three_zones) ++ replicate (length new) (Num 4)
    ∧ drop (length (object (_zones se_three_zones))) (latest_time (_zones se1))
      = replicate (length new) (Num 4)
    ∧ ∀ i o, object (_zones se_three_zones) !! i = Some o →
             latest_time (_zones se1) !! i
             = if decide (o ∈ [3%nat; 4%nat; 1%nat]) then Some (Num 4)
               else latest_time (_zones se_three_zones) !! i.
Proof.
  apply (reconcile_idempotent (SO := stable_order) (Num 4) [3%nat; 4%nat; 1%nat]
           se_three_zones).
  - split; reflexivity.
  - apply (bool_decide_unpack (NoDup [1%nat; 2%nat; 3%nat])). reflexivity.
Defined.

(** Zones 3 and 1 are seen again at time 4 and zone 4 is new. *)
Example reconcile_three_zones :
  _zones (final_state
            (_update_zone_data_structure (SO := stable_order) (Num 4)
               [3%nat; 4%nat; 1%nat] se_three_zones))
  = Ledger [Num 0; Num 0; Num 2; Num 4] [Num 4; Num 1; Num 4; Num 4]
           [1%nat; 2%nat; 3%nat; 4%nat].
Proof. reflexivity. Qed.

Lemma introduce_species_spec_witness :
  let se := se0 (SO := stable_order) false in
  ∃ c, _species_ids se !! c = None
       ∧ introduce_species (SO := stable_order) 10%nat se
         = Ok tt (mkSpeciesEvolver
             (_record se)
             (SpeciesLedger
                (clade (_species se) ++ [c])
                (species_number (_species se) ++ [0])
                (Ledger (time_appeared (columns (_species se)) ++ [Num 0])
                        (latest_time (columns (_species se)) ++ [Num 0])
                        (object (columns (_species se)) ++ [10%nat])))
             (_zones se)
             (<[c := Some 0]> (_species_ids se))
             (_zone_managers se)
             (assign_identifier 10%nat (c, 0) (world se))).
Proof.
  intros se.
  apply (proj2 (proj2 (introduce_species_spec (SO := stable_order) 10%nat se))
           ltac:(apply not_elem_of_nil) ltac:(discriminate)
           [Num 0] (Num 0) eq_refl eq_refl).
Defined.

(** Scenario B: the first species introduced is A.0 and its first child is
    A.1. *)
Example first_child_is_A1 :
  let r := (introduce_species (SO := stable_order) 10%nat;;
            run_one_step (Num 1)) (se0 false) in
  _species (final_state r)
  = SpeciesLedger ["A"; "A"] [0; 1]
      (Ledger [Num 0; Num 1] [Num 1; Num 1] [10%nat; 11%nat])
  ∧ Species.identifier (species_at (world (final_state r)) 11%nat) = Some ("A", 1).
Proof. by vm_compute. Qed.

(** C1. At the first tick the zone manager contributes [splits]: the new
    column is filled with NaN for the tick before and is as long as [time].
    At the second tick nothing is contributed: [splits] gets no entry, it is
    one shorter than [time], and the property [record] raises. *)
Theorem record_column_falls_short :
  let r1 := run_one_step (SO := stable_order) (Num 1) (se0 false) in
  let r2 := (run_one_step (SO := stable_order) (Num 1);; run_one_step (Num 1))
              (se0 false) in
  _record (final_state r1) = [("time", [Num 0; Num 1]); ("splits", [NaN; Num 1])]
  ∧ _record (final_state r2)
    = [("time", [Num 0; Num 1; Num 2]); ("splits", [NaN; Num 1])]
  ∧ record (final_state r2) = Raise ValueError (final_state r2).
Proof. by vm_compute. Qed.

Lemma tick_up_to_set_order_witness :
  let r1 := @run_one_step nat scripted stable_order (Num 1) se_one_species in
  let r2 := @run_one_step nat scripted descending_order (Num 1) se_one_species in
  outcome r1 = outcome r2
  ∧ _record (final_state r1) = _record (final_state r2)
  ∧ _species_ids (final_state r1) = _species_ids (final_state r2)
  ∧ world (final_state r1) = world (final_state r2)
  ∧ same_rows_up_to_order (length (object (_zones se_one_species)))
      (ledger_rows (_zones (final_state r1)))
      (ledger_rows (_zones (final_state r2)))
  ∧ same_rows_up_to_order (length (object (columns (_species se_one_species))))
      (species_rows (_species (final_state r1)))
      (species_rows (_species (final_state r2))).
Proof.
  apply (tick_up_to_set_order stable_order descending_order (Num 1) se_one_species).
  - split; reflexivity.
  - constructor.
  - repeat split; reflexivity.
  - apply (bool_decide_unpack (NoDup [10%nat])). reflexivity.
Defined.

(** C9, as stated, fails: the two zones found at the first tick enter the
    zone ledger in the iteration order of the set of destinations, so the
    same collaborator outputs give two orders of the ledger rows. *)
Lemma ledger_row_order_depends_on_set_order :
  let r1 := @run_one_step nat scripted stable_order (Num 1) se_one_species in
  let r2 := @run_one_step nat scripted descending_order (Num 1) se_one_species in
  object (_zones (final_state r1)) = [1%nat; 2%nat]
  ∧ object (_zones (final_state r2)) = [2%nat; 1%nat]
  ∧ _zones (final_state r1) ≠ _zones (final_state r2).
Proof. split; [|split]; [by vm_compute..|]. intros Heq. by vm_compute in Heq. Qed.

Lemma orphan_child_raises_witness :
  ∃ e s', run_one_step (SO := stable_order) (Num 1) se_orphan = Raise e s'
          ∧ _species s' = _species se_orphan
          ∧ _zones s' = _zones se_orphan_zones.
Proof.
  apply (orphan_child_raises (SO := stable_order) (Num 1) se_orphan (Num 1)
           se_orphan_zones [10%nat] [] 10%nat [] [] [] se_orphan_zones
           [11%nat] [] se_orphan_zones 11%nat).
  - reflexivity.
  - discriminate.
  - reflexivity.
  - reflexivity.
  - reflexivity.
  - reflexivity.
  - apply elem_of_cons. by left.
  - reflexivity.
Defined.

(** With species 11 as the only child, the exception is the
    [AttributeError] of the read of [parent_species.clade]. *)
Example orphan_child_AttributeError :
  outcome (run_one_step (SO := stable_order) (Num 1) se_orphan) = Some AttributeError.
Proof. reflexivity. Qed.

(** Over two ticks the identifiers follow the order of the rows: the
    species 11 and 12 appear in the same tick, their rows are in the order
    of the set, the next tick evolves them in that order, and the child of
    11 is A.3 under one order and A.4 under the other. *)
Example identifiers_follow_row_order :
  let two_ticks (SO : SetOrder) :=
    final_state ((@run_one_step nat branching SO (Num 1);;
                  @run_one_step nat branching SO (Num 1)) se_family) in
  object (columns (_species (two_ticks stable_order)))
    = [10%nat; 11%nat; 12%nat; 21%nat; 22%nat]
  ∧ object (columns (_species (two_ticks descending_order)))
    = [10%nat; 12%nat; 11%nat; 22%nat; 21%nat]
  ∧ Species.identifier (species_at (world (two_ticks stable_order)) 21%nat)
    = Some ("A", 3)
  ∧ Species.identifier (species_at (world (two_ticks descending_order)) 21%nat)
    = Some ("A", 4).
Proof. by vm_compute. Qed.

End ExampleFacts.

(** * Further properties *)

(** ** The allocator, along any sequence of calls *)

Module AllocatorTraceFacts.
Import Allocator AllocatorFacts.

Lemma run_snoc_registry ops o (ids : registry) :
  (run (ops ++ [o]) ids).2 = (step o (run ops ids).2).2.
Proof.
  revert ids. induction ops as [|o' ops IH]; intros ids.
  - simpl. by destruct (step o ids).
  - rewrite <- app_comm_cons, !run_cons. simpl. by rewrite IH.
Qed.

(** One call adds at most the key it returns, and stores no negative
    number. *)
Lemma step_keys o (ids : registry) c :
  is_Some ((step o ids).2 !! c) →
  is_Some (ids !! c) ∨ ((step o ids).1 = Named c ∧ ids !! c = None).
Proof.
  destruct o as [|c0]; simpl.
  - destruct (get_unused_clade_name_fresh ids) as (n & -> & Hn). simpl.
    destruct (decide (c = n)) as [->|Hne]; [by right|].
    rewrite lookup_insert_ne by done. by left.
  - destruct (ids !! c0) as [v|] eqn:E.
    + destruct (get_unused_species_id_allocated ids c0) as (ids' & -> & Hc0 & Hother);
        [eauto|]. simpl.
      destruct (decide (c = c0)) as [->|Hne]; [by rewrite E; left; eauto|].
      rewrite Hother by done. by left.
    + rewrite get_unused_species_id_unknown by done. by left.
Qed.

Lemma run_keys ops (ids : registry) c :
  is_Some ((run ops ids).2 !! c) → is_Some (ids !! c) ∨ Named c ∈ (run ops ids).1.
Proof.
  revert ids. induction ops as [|o ops IH]; intros ids; [by left|].
  rewrite run_cons. cbn [fst snd]. intros Hc.
  destruct (IH _ Hc) as [Hs|Hin].
  - destruct (step_keys o ids c Hs) as [?|[Hev _]]; [by left|right].
    rewrite Hev. apply elem_of_cons. by left.
  - right. apply elem_of_cons. by right.
Qed.

Lemma elem_of_named c evs : c ∈ named evs ↔ Named c ∈ evs.
Proof.
  unfold named. rewrite list_elem_of_omap. split.
  - intros (ev & Hin & Hev). destruct ev; simplify_eq. done.
  - intros Hin. by exists (Named c).
Qed.

Lemma named_cons ev evs :
  named (ev :: evs) = match ev with Named c => c :: named evs | _ => named evs end.
Proof. by destruct ev. Qed.

(** The names returned along a trace were not keys at its start, and are
    pairwise distinct. *)
Lemma run_named_fresh ops (ids : registry) :
  NoDup (named (run ops ids).1)
  ∧ ∀ c, c ∈ named (run ops ids).1 → ids !! c = None.
Proof.
  revert ids. induction ops as [|o ops IH]; intros ids.
  { simpl. split; [constructor|]. intros c Hc. by apply elem_of_nil in Hc. }
  rewrite run_cons. cbn [fst snd]. rewrite named_cons.
  destruct (IH (step o ids).2) as [Hnd Hfresh].
  assert (∀ c, c ∈ named (run ops (step o ids).2).1 → ids !! c = None) as Hold.
  { intros c Hc. specialize (Hfresh c Hc).
    pose proof (step_spec o ids c) as Hstep.
    destruct (step o ids) as [ev ids1]. simpl in *.
    destruct Hstep as (_ & _ & Hkeep & _).
    destruct (ids !! c) eqn:E; [|done].
    destruct Hkeep as [? Hk]; [eauto|]. congruence. }
  destruct (step o ids) as [ev ids1] eqn:Estep. simpl in *.
  destruct ev as [n| |]; try done.
  pose proof (step_spec o ids n) as Hstep. rewrite Estep in Hstep.
  destruct Hstep as (_ & _ & _ & Hnamed).
  assert (ids !! n = None) as Hn.
  { destruct o as [|c0]; simpl in Estep.
    - destruct (get_unused_clade_name_fresh ids) as (n' & Heq & Hn').
      rewrite Heq in Estep. by simplify_eq.
    - by destruct (_get_unused_species_id c0 ids). }
  split.
  - constructor; [|done]. intros Hin. specialize (Hfresh n Hin).
    destruct (Hnamed eq_refl) as [? Hs]. congruence.
  - intros c [->|Hc]%elem_of_cons; [done|by apply Hold].
Qed.

(** X1. Whatever calls are made on one allocator instance, the clade names
    it returns are pairwise distinct. *)
Theorem clade_names_distinct ops :
  NoDup (named (run ops ∅).1).
Proof. apply run_named_fresh. Qed.

(** X2. A request for a species number of a clade that the allocator has not
    named raises [KeyError], issues nothing and leaves the registry as it
    was. *)
Theorem species_number_unknown_clade ops c :
  Named c ∉ (run ops ∅).1 →
  run (ops ++ [AllocateSpecies c]) ∅
  = ((run ops ∅).1 ++ [Failed KeyError], (run ops ∅).2).
Proof.
  intros Hnot.
  assert ((run ops ∅).2 !! c = None) as Hnone.
  { destruct ((run ops ∅).2 !! c) eqn:E; [|done].
    destruct (run_keys ops ∅ c) as [[? Hs]|?]; [by rewrite E|by rewrite lookup_empty in Hs|done]. }
  rewrite (surjective_pairing (run (ops ++ _) ∅)).
  rewrite run_snoc, run_snoc_registry. simpl.
  by rewrite get_unused_species_id_unknown.
Qed.

Lemma species_number_unknown_clade_witness :
  run ([AllocateClade; AllocateSpecies "A"] ++ [AllocateSpecies "B"]) ∅
  = ((run [AllocateClade; AllocateSpecies "A"] ∅).1 ++ [Failed KeyError],
     (run [AllocateClade; AllocateSpecies "A"] ∅).2).
Proof.
  apply (species_number_unknown_clade [AllocateClade; AllocateSpecies "A"] "B").
  vm_compute. intros H. repeat (apply elem_of_cons in H as [H|H]; [discriminate|]).
  by apply elem_of_nil in H.
Defined.

Lemma step_nonneg o (ids : registry) :
  (∀ c m, ids !! c = Some (Some m) → 0 ≤ m) →
  ∀ c m, (step o ids).2 !! c = Some (Some m) → 0 ≤ m.
Proof.
  intros Hids c m. destruct o as [|c0]; simpl.
  - destruct (get_unused_clade_name_fresh ids) as (n & -> & Hn). simpl.
    destruct (decide (c = n)) as [->|Hne].
    + by rewrite lookup_insert_eq.
    + rewrite lookup_insert_ne by done. apply Hids.
  - unfold _get_unused_species_id.
    destruct (ids !! c0) as [[k|]|] eqn:E; simpl; [| |apply Hids].
    + destruct (decide (c = c0)) as [->|Hne].
      * rewrite lookup_insert_eq. intros [= <-]. specialize (Hids c0 k E). lia.
      * rewrite lookup_insert_ne by done. apply Hids.
    + destruct (decide (c = c0)) as [->|Hne].
      * rewrite lookup_insert_eq. by intros [= <-].
      * rewrite lookup_insert_ne by done. apply Hids.
Qed.

Lemma run_nonneg ops (ids : registry) :
  (∀ c m, ids !! c = Some (Some m) → 0 ≤ m) →
  ∀ c m, (run ops ids).2 !! c = Some (Some m) → 0 ≤ m.
Proof.
  revert ids. induction ops as [|o ops IH]; intros ids Hids; [done|].
  rewrite run_cons. cbn [snd]. apply IH. by apply step_nonneg.
Qed.

(** X3. After any sequence of calls on a fresh allocator the registry has
    exactly the names the allocator returned as keys; for each it holds the
    greatest number issued for the clade, or [None] when no number was
    issued yet. *)
Theorem registry_holds_highest_number ops c :
  (run ops ∅).2 !! c
  = if decide (Named c ∈ (run ops ∅).1)
    then Some (highest_number (length (issued_for c (run ops ∅).1)))
    else None.
Proof.
  destruct (run_issued_for ops ∅ c) as [_ Hnext].
  rewrite next_number_empty in Hnext.
  destruct (decide (Named c ∈ (run ops ∅).1)) as [Hin|Hnot].
  - destruct (run_named_allocated ops ∅ c) as [v Hv]; [by right|].
    rewrite Hv. f_equal. unfold next_number in Hnext. rewrite Hv in Hnext.
    destruct v as [m|].
    + assert (0 ≤ m) as Hm.
      { apply (run_nonneg ops ∅) with c; [|done].
        intros c' m'. by rewrite lookup_empty. }
      destruct (length (issued_for c (run ops ∅).1)) as [|k]; simpl in *; [lia|].
      f_equal. lia.
    + destruct (length (issued_for c (run ops ∅).1)); simpl in *; [done|lia].
  - destruct ((run ops ∅).2 !! c) eqn:E; [|done].
    destruct (run_keys ops ∅ c) as [[? Hs]|?];
      [by rewrite E|by rewrite lookup_empty in Hs|done].
Qed.

(** *** The order of the clade names *)

Lemma compare_Lt_le x y : String.compare x y = Lt → String.le x y.
Proof. intros H. unfold String.le, String.leb. by rewrite H. Qed.

Lemma compare_Gt_le x y : String.compare x y = Gt → String.le y x.
Proof.
  intros H. unfold String.le, String.leb.
  rewrite String.compare_antisym, H. done.
Qed.

Lemma insert_sorted_sorted x l :
  StronglySorted String.le l → StronglySorted String.le (insert_sorted x l).
Proof.
  induction 1 as [|y l Hl IH Hy]; simpl.
  - repeat constructor.
  - destruct (String.compare x y) eqn:E.
    + by constructor.
    + constructor; [by constructor|].
      constructor; [by apply compare_Lt_le|].
      eapply Forall_impl; [exact Hy|]. intros z Hz.
      by etrans; [apply compare_Lt_le|].
    + constructor; [done|].
      apply Forall_forall. intros z Hz.
      apply elem_of_insert_sorted in Hz as [->|Hz].
      * by apply compare_Gt_le.
      * rewrite Forall_forall in Hy. by apply Hy.
Qed.

Lemma np_unique_sorted l : StronglySorted String.le (np_unique l).
Proof.
  induction l as [|x l IH]; [constructor|].
  by apply insert_sorted_sorted.
Qed.

(** The first element of what a filter keeps of a sorted list is below all
    it keeps. *)
Lemma head_filter_sorted (P : string → Prop) `{∀ x, Decision (P x)} l c :
  StronglySorted String.le l → head (filter P l) = Some c →
  ∀ x, x ∈ l → P x → String.le c x.
Proof.
  induction 1 as [|y l Hl IH Hy]; intros Hhead x Hx HP.
  { by apply elem_of_nil in Hx. }
  destruct (decide (P y)) as [Hpy|Hpy].
  - rewrite filter_cons_True in Hhead by done. simpl in Hhead. simplify_eq.
    apply elem_of_cons in Hx as [->|Hx]; [reflexivity|].
    rewrite Forall_forall in Hy. by apply Hy.
  - rewrite filter_cons_False in Hhead by done.
    apply elem_of_cons in Hx as [->|Hx]; [done|]. by apply IH.
Qed.

Lemma while_no_potential_name_result fuel size used potential c :
  while_no_potential_name fuel size used potential = Some c →
  head potential = Some c
  ∨ (potential = []
     ∧ ∃ k, (size ≤ k)%nat
            ∧ (∀ j, (size ≤ j < k)%nat → np_setdiff1d (names_of_length j) used = [])
            ∧ head (np_setdiff1d (names_of_length k) used) = Some c).
Proof.
  revert size potential.
  induction fuel as [|fuel IH]; intros size potential Hc.
  - destruct potential; simpl in Hc; [done|]. left. by simplify_eq.
  - destruct potential; simpl in Hc; [|left; by simplify_eq].
    right. split; [done|].
    destruct (IH _ _ Hc) as [Hhead|(Hnil & k & Hk & Hbelow & Hhead)].
    + exists size. split; [done|]. split; [intros j ?; lia|done].
    + exists k. split; [lia|]. split; [|done].
      intros j Hj. destruct (decide (j = size)) as [->|?]; [done|].
      apply Hbelow. lia.
Qed.

Lemma letters_are_names_of_length_1 : chars ascii_uppercase = names_of_length 1.
Proof. by vm_compute. Qed.

(** X4. Whatever the registry holds, [_get_unused_clade_name] returns a name
    of the least length at which a name is free, and among the free names of
    that length the first in lexicographic order: every shorter name is a
    key of the registry and every free name of the same length is not below
    the one returned. *)
Theorem clade_name_is_least_unused (ids : registry) :
  ∃ c k,
    _get_unused_clade_name ids = Ok c (<[c := None]> ids)
    ∧ (1 ≤ k)%nat ∧ c ∈ names_of_length k ∧ ids !! c = None
    ∧ (∀ j n, (1 ≤ j < k)%nat → n ∈ names_of_length j → is_Some (ids !! n))
    ∧ (∀ n, n ∈ names_of_length k → ids !! n = None → String.le c n).
Proof.
  destruct (get_unused_clade_name_fresh ids) as (c & Hc & Hfresh).
  exists c.
  assert (∃ k, (1 ≤ k)%nat
               ∧ (∀ j, (1 ≤ j < k)%nat →
                       np_setdiff1d (names_of_length j) (used_names ids) = [])
               ∧ head (np_setdiff1d (names_of_length k) (used_names ids)) = Some c)
    as (k & Hk & Hbelow & Hhead).
  { unfold _get_unused_clade_name in Hc.
    destruct (while_no_potential_name _ _ _ _) as [c'|] eqn:E; [|done].
    assert (c' = c) as -> by congruence.
    apply while_no_potential_name_result in E
      as [Hhead|(_ & k & Hk & Hbelow & Hhead)].
    - exists 1%nat. split; [done|]. split; [intros j ?; lia|].
      by rewrite <- letters_are_names_of_length_1.
    - by exists k. }
  exists k. split; [done|]. split; [done|].
  assert (c ∈ np_setdiff1d (names_of_length k) (used_names ids)) as Hin.
  { destruct (np_setdiff1d _ _) as [|c' l]; simplify_eq/=.
    apply elem_of_cons. by left. }
  apply elem_of_np_setdiff1d in Hin as [Hin _].
  split; [done|]. split; [done|]. split.
  - intros j n Hj Hn. apply elem_of_used_names.
    destruct (decide (n ∈ used_names ids)) as [|Hnot]; [done|].
    assert (n ∈ np_setdiff1d (names_of_length j) (used_names ids)) as Hn'
      by (by apply elem_of_np_setdiff1d).
    rewrite (Hbelow j Hj) in Hn'. by apply elem_of_nil in Hn'.
  - intros n Hn Hfree.
    apply (head_filter_sorted (fun x => x ∉ used_names ids)
             (np_unique (names_of_length k))); [apply np_unique_sorted|done| |].
    + by apply elem_of_np_unique.
    + rewrite elem_of_used_names, Hfree. by intros [? ?].
Qed.

End AllocatorTraceFacts.

(** ** The record *)

Section RecordMergeFacts.

Context {Env : Type}.

Lemma od_get_keys {V} k (d : odict V) : is_Some (od_get k d) ↔ k ∈ od_keys d.
Proof.
  unfold od_keys. induction d as [|[k' v'] d IH]; simpl.
  - rewrite elem_of_nil. split; [by intros [? ?]|done].
  - rewrite elem_of_cons. destruct (decide (k = k')) as [->|Hne].
    + split; eauto.
    + rewrite IH. simpl. tauto.
Qed.

Lemma od_get_None {V} k (d : odict V) : od_get k d = None ↔ k ∉ od_keys d.
Proof. rewrite <- od_get_keys, eq_None_not_Some. done. Qed.

Lemma od_keys_set_existing {V} k (v : V) d :
  k ∈ od_keys d → od_keys (od_set k v d) = od_keys d.
Proof.
  unfold od_keys. induction d as [|[k' v'] d IH]; simpl; intros Hk.
  - by apply elem_of_nil in Hk.
  - destruct (decide (k = k')) as [->|Hne]; simpl; [done|].
    f_equal. apply IH. apply elem_of_cons in Hk as [?|?]; done.
Qed.

Lemma od_get_elem_of {V} k (v : V) d :
  NoDup (od_keys d) → (k, v) ∈ d → od_get k d = Some v.
Proof.
  unfold od_keys. induction d as [|[k' v'] d IH]; simpl; intros Hnd Hin.
  - by apply elem_of_nil in Hin.
  - apply NoDup_cons in Hnd as [Hnot Hnd].
    apply elem_of_cons in Hin as [?|Hin]; simplify_eq.
    + by rewrite decide_True.
    + rewrite decide_False; [by apply IH|].
      intros ->. apply Hnot. apply list_elem_of_fmap. by exists (k', v).
Qed.

Lemma filter_ext_elem {A} (P Q : A → Prop) `{∀ x, Decision (P x)} `{∀ x, Decision (Q x)}
    (l : list A) :
  (∀ x, x ∈ l → (P x ↔ Q x)) → filter P l = filter Q l.
Proof.
  induction l as [|x l IH]; intros Hl; [done|].
  assert (P x ↔ Q x) as Hx by (apply Hl, elem_of_cons; by left).
  assert (filter P l = filter Q l) as Hrec.
  { apply IH. intros y Hy. apply Hl, elem_of_cons. by right. }
  destruct (decide (P x)).
  - rewrite !filter_cons_True by tauto. by rewrite Hrec.
  - rewrite !filter_cons_False by tauto. done.
Qed.

(** A column that exists receives the value. *)
Lemma insert_record_item_existing key value (se : SpeciesEvolver Env) col :
  od_get key (_record se) = Some col →
  insert_record_item (key, value) se
  = Ok tt (set_record (od_set key (col ++ [value]) (_record se)) se).
Proof.
  intros Hcol.
  unfold insert_record_item, mbind, M_bind, gets, modify. cbn.
  rewrite decide_True by (apply od_get_keys; eauto).
  cbn. by rewrite Hcol.
Qed.

(** The record after a merge: the contributions are taken in order, none
    raises, each named column receives its value once, a column that did not
    exist being first filled with NaN, and the other columns are left as they
    were; new keys come after the old ones, in the order of the
    contributions. *)
Lemma insert_record_add_on_columns (a : add_on) (se : SpeciesEvolver Env) t :
  od_get "time" (_record se) = Some t → NoDup a.*1 → "time" ∉ a.*1 →
  ∃ r', _insert_record_add_on a se = Ok tt (set_record r' se)
    ∧ od_keys r'
      = od_keys (_record se) ++ filter (fun k => k ∉ od_keys (_record se)) a.*1
    ∧ ∀ k, od_get k r'
           = match od_get k a with
             | Some v =>
                 Some (default (replicate (length t - 1) NaN) (od_get k (_record se))
                       ++ [v])
             | None => od_get k (_record se)
             end.
Proof.
  revert se. induction a as [|[key value] a IH]; intros se Ht Hnd Htime.
  { exists (_record se). split; [by destruct se|]. split; [|done].
    cbn. by rewrite app_nil_r. }
  simpl in Hnd, Htime. apply NoDup_cons in Hnd as [Hkey Hnd].
  apply not_elem_of_cons in Htime as [Hne Htime].
  unfold _insert_record_add_on in *. cbn [for_each].
  set (base := default (replicate (length t - 1) NaN) (od_get key (_record se))).
  assert (∃ r1, insert_record_item (key, value) se = Ok tt (set_record r1 se)
                ∧ od_get key r1 = Some (base ++ [value])
                ∧ (∀ k, k ≠ key → od_get k r1 = od_get k (_record se))
                ∧ od_keys r1
                  = od_keys (_record se)
                    ++ (if decide (key ∈ od_keys (_record se)) then [] else [key]))
    as (r1 & Hitem & Hget & Hother & Hkeys).
  { destruct (od_get key (_record se)) as [col|] eqn:Ecol.
    - eexists. split; [by apply insert_record_item_existing|].
      split; [apply od_get_set_eq|].
      split; [intros k Hk; by apply od_get_set_ne|].
      rewrite decide_True by (apply od_get_keys; eauto).
      rewrite app_nil_r. apply od_keys_set_existing, od_get_keys. eauto.
    - apply od_get_None in Ecol.
      eexists. split; [by apply insert_record_item_new|].
      split.
      { rewrite <- (od_set_new key) by done. apply od_get_set_eq. }
      split.
      { intros k Hk. rewrite <- (od_set_new key) by done. by apply od_get_set_ne. }
      rewrite decide_False by done. unfold od_keys. by rewrite fmap_app. }
  rewrite (bind_Ok _ _ _ _ _ Hitem).
  destruct (IH (set_record r1 se)) as (r' & Hrun & Hkeys' & Hcols); try done.
  { cbn. rewrite Hother by done. done. }
  cbn [_record set_record] in Hrun, Hkeys', Hcols.
  exists r'. split; [by rewrite Hrun|]. split.
  - rewrite Hkeys', Hkeys. cbn [fmap list_fmap fst].
    destruct (decide (key ∈ od_keys (_record se))) as [Hin|Hnin].
    + rewrite app_nil_r, filter_cons_False by tauto. done.
    + rewrite filter_cons_True by done. rewrite <- app_assoc. simpl. do 2 f_equal.
      apply filter_ext_elem. intros k Hk. rewrite elem_of_app, list_elem_of_singleton.
      split; [tauto|]. intros Hn [?| ->]; done.
  - intros k. rewrite Hcols. cbn [od_get].
    destruct (decide (k = key)) as [->|Hk].
    + assert (od_get key a = None) as -> by (by apply od_get_None).
      done.
    + by rewrite Hother.
Qed.

(** X5. Merging the contributions of a tick, none of which is named
    ['time'], into a record that has its column ['time'] never raises.  Each
    named column receives its value once, at its end; a column that did not
    exist is first filled with NaN for the ticks before the current one; the
    columns that are not named are left as they were; the keys keep their
    order, the new ones coming last in the order of the contributions. *)
Theorem merge_contributions (a : add_on) (se : SpeciesEvolver Env) t :
  od_get "time" (_record se) = Some t → NoDup a.*1 → "time" ∉ a.*1 →
  ∃ r', _insert_record_add_on a se = Ok tt (set_record r' se)
    ∧ od_keys r'
      = od_keys (_record se) ++ filter (fun k => k ∉ od_keys (_record se)) a.*1
    ∧ ∀ k, od_get k r'
           = match od_get k a with
             | Some v =>
                 Some (default (replicate (length t - 1) NaN) (od_get k (_record se))
                       ++ [v])
             | None => od_get k (_record se)
             end.
Proof. apply insert_record_add_on_columns. Qed.

(** X6. When the column ['time'] has just been advanced, every other column
    is one shorter, and the contributions of the tick name every one of
    them (and not ['time']), the merge leaves all columns as long as
    ['time'], and the property [record] returns the table instead of
    raising. *)
Theorem record_stays_rectangular (a : add_on) (se : SpeciesEvolver Env) t :
  od_get "time" (_record se) = Some t → t ≠ [] →
  NoDup (od_keys (_record se)) →
  (∀ k col, k ≠ "time" → od_get k (_record se) = Some col →
            length col = (length t - 1)%nat) →
  NoDup a.*1 → "time" ∉ a.*1 →
  (∀ k, k ∈ od_keys (_record se) → k ≠ "time" → k ∈ a.*1) →
  ∃ r', (_insert_record_add_on a;; record) se = Ok r' (set_record r' se)
        ∧ ∀ k col, od_get k r' = Some col → length col = length t.
Proof.
  intros Ht Hne Hkeys Hshort Hnd Htime Hcover.
  destruct (insert_record_add_on_columns a se t Ht Hnd Htime)
    as (r' & Hrun & Hkeys' & Hcols).
  assert (1 ≤ length t)%nat as Hlen by (destruct t; simpl; [done|lia]).
  assert (∀ k col, od_get k r' = Some col → length col = length t) as Hall.
  { intros k col. rewrite Hcols.
    destruct (od_get k a) as [v|] eqn:Ea.
    - assert (k ≠ "time") as Hk.
      { intros ->. apply Htime. change (a.*1) with (od_keys a).
        apply od_get_keys. eauto. }
      intros [= <-]. rewrite length_app. simpl.
      destruct (od_get k (_record se)) as [c0|] eqn:E0; simpl.
      + rewrite (Hshort k c0) by done. lia.
      + rewrite length_replicate. lia.
    - intros Hcol. destruct (decide (k = "time")) as [->|Hk]; [congruence|].
      exfalso. apply od_get_None in Ea. apply Ea.
      apply Hcover; [|done]. apply od_get_keys. eauto. }
  exists r'. split; [|done].
  rewrite (bind_Ok _ _ _ _ _ Hrun).
  unfold record, mbind, M_bind, gets. cbn.
  assert (NoDup (od_keys r')) as Hnd'.
  { rewrite Hkeys'. apply NoDup_app. split; [done|]. split.
    - intros x Hx Hx'. by apply list_elem_of_filter in Hx' as [? _].
    - by apply NoDup_filter. }
  destruct r' as [|[k0 c0] r']; [done|].
  rewrite decide_True; [done|].
  apply Forall_forall. intros [k c] Hin. simpl.
  rewrite (Hall k c) by (by apply od_get_elem_of).
  symmetry. apply (Hall k0). cbn. by rewrite decide_True.
Qed.

End RecordMergeFacts.

Lemma merge_contributions_witness :
  ∃ r', _insert_record_add_on [("splits", Num 2); ("merges", Num 0)]
          (set_record [("time", [Num 0; Num 1; Num 2]); ("splits", [NaN; Num 1])]
                      Example.se_three_zones)
        = Ok tt (set_record r' Example.se_three_zones)
    ∧ od_keys r'
      = ["time"; "splits"] ++ filter (fun k => k ∉ ["time"; "splits"]) ["splits"; "merges"]
    ∧ ∀ k, od_get k r'
           = match od_get k [("splits", Num 2); ("merges", Num 0)] with
             | Some v =>
                 Some (default (replicate (3 - 1) NaN)
                         (od_get k [("time", [Num 0; Num 1; Num 2]);
                                    ("splits", [NaN; Num 1])])
                       ++ [v])
             | None => od_get k [("time", [Num 0; Num 1; Num 2]); ("splits", [NaN; Num 1])]
             end.
Proof.
  apply (merge_contributions [("splits", Num 2); ("merges", Num 0)]
           (set_record [("time", [Num 0; Num 1; Num 2]); ("splits", [NaN; Num 1])]
                       Example.se_three_zones) [Num 0; Num 1; Num 2]).
  - reflexivity.
  - apply (bool_decide_unpack (NoDup ["splits"; "merges"])). reflexivity.
  - apply (bool_decide_unpack ("time" ∉ ["splits"; "merges"])). reflexivity.
Defined.

Lemma record_stays_rectangular_witness :
  ∃ r', (_insert_record_add_on [("splits", Num 2); ("merges", Num 0)];; record)
          (set_record [("time", [Num 0; Num 1; Num 2]); ("splits", [NaN; Num 1])]
                      Example.se_three_zones)
        = Ok r' (set_record r' Example.se_three_zones)
        ∧ ∀ k col, od_get k r' = Some col → length col = 3%nat.
Proof.
  apply (record_stays_rectangular [("splits", Num 2); ("merges", Num 0)]
           (set_record [("time", [Num 0; Num 1; Num 2]); ("splits", [NaN; Num 1])]
                       Example.se_three_zones) [Num 0; Num 1; Num 2]).
  - reflexivity.
  - discriminate.
  - apply (bool_decide_unpack (NoDup ["time"; "splits"])). reflexivity.
  - intros k col Hk. cbn. repeat case_decide; try done; by intros [= <-].
  - apply (bool_decide_unpack (NoDup ["splits"; "merges"])). reflexivity.
  - apply (bool_decide_unpack ("time" ∉ ["splits"; "merges"])). reflexivity.
  - intros k Hin Hk. cbn in Hin.
    repeat (apply elem_of_cons in Hin as [->|Hin]; [try done; apply elem_of_cons; by left|]).
    by apply elem_of_nil in Hin.
Defined.

(** ** The prior time *)

Section PriorTimeFacts.

Context {Env : Type}.

Lemma py_insort_last x (acc : list scalar) :
  Forall (fun y => scalar_le y x) acc → py_insort x acc = acc ++ [x].
Proof.
  induction 1 as [|y acc Hy _ IH]; simpl; [done|].
  destruct x as [|x], y as [|y]; simpl in *; try done.
  rewrite (proj2 (Z.ltb_ge x y)) by done. by rewrite IH.
Qed.

Lemma py_sorted_of_sorted (l : list scalar) :
  StronglySorted scalar_le l → py_sorted l = l.
Proof.
  unfold py_sorted.
  assert (∀ acc, StronglySorted scalar_le (acc ++ l) →
                 foldl (fun acc x => py_insort x acc) acc l = acc ++ l) as Hgen.
  { induction l as [|x l IH]; intros acc Hs; simpl.
    - by rewrite app_nil_r.
    - rewrite py_insort_last.
      + rewrite IH; rewrite <- app_assoc; done.
      + apply Forall_forall. intros y Hy.
        apply (StronglySorted_app_1_elem_of _ _ _ _ _ Hs); [done|].
        apply elem_of_cons. by left. }
  intros Hs. by apply (Hgen []).
Qed.

(** The extant entities of an aligned ledger of exact times are computed
    without raising. *)
Lemma objects_at_time_rows time (d : ledger) (se : SpeciesEvolver Env) :
  aligned d → exact_times d → exact_time time →
  _objects_at_time time d se = Ok (extant_rows time d) se.
Proof. apply objects_at_time_exact. Qed.

(** X7. With a single recorded time [_get_prior_time] returns NaN; with
    numbers recorded in non-decreasing order it returns the last but one. *)
Theorem prior_time_spec (se : SpeciesEvolver Env) :
  (∀ a, od_get "time" (_record se) = Some [a] → _get_prior_time se = Ok NaN se)
  ∧ (∀ l a b, od_get "time" (_record se) = Some (l ++ [a; b]) →
              StronglySorted scalar_le (l ++ [a; b]) →
              _get_prior_time se = Ok a se).
Proof.
  split.
  - intros a Ht. unfold _get_prior_time, record_time, mbind, M_bind, gets. cbn.
    by rewrite Ht.
  - intros l a b Ht Hs.
    unfold _get_prior_time, record_time, mbind, M_bind, gets. cbn.
    rewrite Ht. cbn.
    rewrite decide_False by (rewrite length_app; simpl; lia).
    rewrite py_sorted_of_sorted by done.
    assert ((l ++ [a; b]) !! (length (l ++ [a; b]) - 2)%nat = Some a) as ->; [|done].
    rewrite length_app. simpl.
    replace (length l + 2 - 2)%nat with (length l + 0)%nat by lia.
    by rewrite lookup_app_r, Nat.add_0_r, Nat.sub_diag by lia.
Qed.

(** X8. No entity is extant at NaN: on a ledger with aligned columns the
    query at NaN, which is the prior time before the first tick, returns the
    empty list. *)
Theorem nothing_extant_at_NaN (d : ledger) (se : SpeciesEvolver Env) :
  aligned d → _objects_at_time NaN d se = Ok [] se.
Proof.
  intros Hal. rewrite objects_at_time_select by done. f_equal.
  apply select_all_false, Forall_forall. intros b Hb.
  apply list_elem_of_lookup in Hb as [i Hi].
  apply lookup_zip_with_Some in Hi as (x & y & -> & Hx & _).
  unfold np_le, np_compare in Hx. rewrite list_lookup_fmap in Hx.
  destruct (time_appeared d !! i); simpl in Hx; by simplify_eq.
Qed.

End PriorTimeFacts.

Lemma prior_time_spec_witness :
  _get_prior_time Example.se_three_zones = Ok (Num 2) Example.se_three_zones.
Proof.
  apply (proj2 (prior_time_spec Example.se_three_zones) [Num 0; Num 1] (Num 2) (Num 3)).
  - reflexivity.
  - repeat constructor; simpl; lia.
Defined.

Lemma nothing_extant_at_NaN_witness :
  _objects_at_time NaN Example.three_zones Example.se_three_zones
  = Ok [] Example.se_three_zones.
Proof.
  apply (nothing_extant_at_NaN Example.three_zones Example.se_three_zones).
  split; reflexivity.
Defined.

(** ** Relations kept by a computation *)

Section RespectsFacts.

Context {S : Type} (R : relation S) `{!Reflexive R} `{!Transitive R}.

Lemma respects_ret {A} (a : A) : respects R (mret a : M S A).
Proof. intros s. simpl. reflexivity. Qed.

Lemma respects_raise {A} e : respects R (raise e : M S A).
Proof. intros s. simpl. reflexivity. Qed.

Lemma respects_bind {A B} (m : M S A) (k : A → M S B) :
  respects R m → (∀ a, respects R (k a)) → respects R (m ≫= k).
Proof.
  intros Hm Hk s. unfold mbind, M_bind. specialize (Hm s).
  destruct (m s) as [a s'|e s']; simpl in *; [|done].
  etrans; [exact Hm|apply Hk].
Qed.

Lemma respects_gets {A} (g : S → A) : respects R (gets g).
Proof. intros s. simpl. reflexivity. Qed.

Lemma respects_modify (g : S → S) : (∀ s, R s (g s)) → respects R (modify g).
Proof. intros Hg s. apply Hg. Qed.

Lemma respects_zoom {U A} (get : S → U) (upd : U → S → S) (m : M U A) :
  (∀ u s, R s (upd u s)) → respects R (zoom get upd m).
Proof. intros Hu s. unfold zoom. destruct (m (get s)); simpl; apply Hu. Qed.

Lemma respects_or_raise {A} e (o : option A) : respects R (or_raise e o : M S A).
Proof. destruct o; [apply respects_ret|apply respects_raise]. Qed.

Lemma respects_for_each {A} (xs : list A) (body : A → M S unit) :
  (∀ x, respects R (body x)) → respects R (for_each xs body).
Proof.
  intros Hb. induction xs as [|x xs IH]; simpl.
  - apply respects_ret.
  - apply respects_bind; [apply Hb|by intros _].
Qed.

Lemma respects_for_fold {A B} (xs : list A) (b : B) (body : B → A → M S B) :
  (∀ b x, respects R (body b x)) → respects R (for_fold xs b body).
Proof.
  intros Hb. revert b. induction xs as [|x xs IH]; intros b; simpl.
  - apply respects_ret.
  - apply respects_bind; [apply Hb|apply IH].
Qed.

End RespectsFacts.

(** Decomposes a goal [respects R m] along the structure of [m]. *)
Ltac frame_rel :=
  repeat first
    [ match goal with
      | |- respects _ (mbind _ _) => apply respects_bind; [apply _|..]
      | |- respects _ (mret _) => apply respects_ret; apply _
      | |- respects _ (raise _) => apply respects_raise; apply _
      | |- respects _ (or_raise _ _) => apply respects_or_raise; apply _
      | |- respects _ (gets _) => apply respects_gets; apply _
      | |- respects _ (modify _) => apply respects_modify
      | |- respects _ (zoom _ _ _) => apply respects_zoom
      | |- respects _ (for_each _ _) => apply respects_for_each; [apply _..|]
      | |- respects _ (for_fold _ _ _) => apply respects_for_fold; [apply _..|]
      | |- ∀ _, _ => intro
      | x : (_ * _)%type |- _ => destruct x
      | |- context [if decide ?P then _ else _] => destruct (decide P)
      | |- context [match ?x with _ => _ end] => destruct x
      end
    | done ].

(** ** The time axis *)

Section TimeFacts.

Context {Env : Type} `{Co : !Collaborators Env}.

#[local] Instance time_extends_refl : Reflexive (@time_extends Env).
Proof. intros s t Ht. exists []. by rewrite app_nil_r. Qed.

#[local] Instance time_extends_trans : Transitive (@time_extends Env).
Proof.
  intros s1 s2 s3 H12 H23 t Ht.
  destruct (H12 t Ht) as [r1 H1]. destruct (H23 _ H1) as [r2 H2].
  exists (r1 ++ r2). by rewrite app_assoc.
Qed.

Lemma bind_assoc {S A B C} (m : M S A) (k1 : A → M S B) (k2 : B → M S C) s :
  ((m ≫= k1) ≫= k2) s = (m ≫= fun x => k1 x ≫= k2) s.
Proof. unfold mbind, M_bind. by destruct (m s). Qed.

Lemma time_extends_same_record (s s' : SpeciesEvolver Env) :
  _record s' = _record s → time_extends s s'.
Proof. intros Hr t Ht. exists []. by rewrite app_nil_r, Hr. Qed.

Lemma insert_record_item_time kv :
  respects (@time_extends Env) (insert_record_item kv).
Proof.
  destruct kv as [key value]. intros s t Ht.
  destruct (od_get key (_record s)) as [col|] eqn:Ecol.
  - rewrite (insert_record_item_existing key value s col) by done. cbn.
    destruct (decide (key = "time")) as [->|Hne].
    + rewrite od_get_set_eq. exists [value]. congruence.
    + rewrite od_get_set_ne by done. exists []. by rewrite app_nil_r.
  - rewrite (insert_record_item_new key value s t) by (by try apply od_get_None).
    cbn. exists []. rewrite app_nil_r.
    rewrite <- (od_set_new key) by (by apply od_get_None).
    rewrite od_get_set_ne; [done|]. intros <-. congruence.
Qed.

Lemma insert_record_add_on_time a :
  respects (@time_extends Env) (_insert_record_add_on a).
Proof.
  unfold _insert_record_add_on. apply respects_for_each; try apply _.
  apply insert_record_item_time.
Qed.

Lemma process_species_time `{SO : !SetOrder} time dt :
  respects (@time_extends Env) (process_species time dt).
Proof.
  unfold process_species, _get_surviving_species, _get_prior_time, record_time,
    species_at_time, _objects_at_time, evolve_one, set_child_identifier,
    _get_unused_species_id, in_species_ids, in_world,
    _update_species_data_structure, touch_all.
  frame_rel; first [by apply time_extends_same_record | apply insert_record_add_on_time].
Qed.

Lemma zone_step_time `{SO : !SetOrder} time :
  respects (@time_extends Env)
    (new_zones ← create_all_zones;
     updated_zones ← _get_updated_zones time new_zones;
     _update_zone_data_structure time updated_zones;;
     mret time).
Proof.
  unfold create_all_zones, _get_updated_zones, _get_prior_time, record_time,
    zones_at_time, _objects_at_time, update_paths_of, in_world,
    _update_zone_data_structure, touch_all.
  frame_rel; first [by apply time_extends_same_record | apply insert_record_add_on_time].
Qed.

(** X9. A tick whose record has the times [t], with greatest element [m],
    ends, whether it returns or raises, with a column ['time'] that starts
    with [t] followed by [m + dt]: the new time is recorded first, the times
    recorded before are never changed, and nothing is undone when a later
    step raises. *)
Theorem run_one_step_records_time `{SO : !SetOrder} dt (se : SpeciesEvolver Env) t m :
  od_get "time" (_record se) = Some t → py_max t = Some m →
  ∃ rest, od_get "time" (_record (final_state (run_one_step dt se)))
          = Some (t ++ [py_add m dt] ++ rest).
Proof.
  intros Ht Hmax. unfold run_one_step, process_zones.
  set (se1 := set_record (od_set "time" (t ++ [py_add m dt]) (_record se)) se).
  assert (od_get "time" (_record se1) = Some (t ++ [py_add m dt])) as Ht1
    by apply od_get_set_eq.
  assert (respects (@time_extends Env)
            ((new_zones ← create_all_zones;
              updated_zones ← _get_updated_zones (py_add m dt) new_zones;
              _update_zone_data_structure (py_add m dt) updated_zones;;
              mret (py_add m dt)) ≫= fun time => process_species time dt)) as Hrest.
  { apply respects_bind; try apply _; [apply zone_step_time|].
    intros time. apply process_species_time. }
  destruct (Hrest se1 _ Ht1) as [rest Hfinal].
  exists rest. rewrite <- app_assoc in Hfinal. rewrite <- Hfinal.
  do 3 f_equal.
  rewrite bind_assoc.
  erewrite bind_Ok
    by (unfold record_time, mbind, M_bind, gets; cbn; rewrite Ht; reflexivity).
  rewrite bind_assoc. erewrite bind_Ok by (rewrite Hmax; reflexivity).
  rewrite bind_assoc. erewrite bind_Ok by reflexivity.
  done.
Qed.

End TimeFacts.

Lemma run_one_step_records_time_witness :
  ∃ rest, od_get "time"
            (_record (final_state
               (run_one_step (Co := Example.scripted) (SO := stable_order) (Num 1)
                  Example.se_one_species)))
          = Some ([Num 0] ++ [py_add (Num 0) (Num 1)] ++ rest).
Proof.
  apply (run_one_step_records_time (Co := Example.scripted) (SO := stable_order) (Num 1)
           Example.se_one_species [Num 0] (Num 0)); reflexivity.
Defined.

(** ** Reconciliation followed by a query *)

Section ReconcileQueryFacts.

Context {Env : Type} `{SO : !SetOrder}.

Lemma snd_ledger_rows (d : ledger) : aligned d → (ledger_rows d).*2 = object d.
Proof.
  intros [Ha Hl]. unfold ledger_rows. apply snd_zip.
  rewrite length_zip_with. lia.
Qed.

Lemma extant_rows_NoDup time (d : ledger) :
  aligned d → NoDup (object d) → NoDup (extant_rows time d).
Proof.
  intros Hal Hnd. unfold extant_rows.
  rewrite <- (snd_ledger_rows d) in Hnd by done.
  eapply sublist_NoDup; [exact Hnd|apply fmap_sublist, sublist_filter].
Qed.

Lemma elem_of_extant_rows time (d : ledger) o :
  o ∈ extant_rows time d ↔
  ∃ a l, (a, l, o) ∈ ledger_rows d ∧ scalar_le a time ∧ scalar_le time l.
Proof.
  unfold extant_rows. rewrite list_elem_of_fmap. split.
  - intros ([[a l] o'] & -> & Hin).
    apply list_elem_of_filter in Hin as [[H1 H2] Hin]. eauto.
  - intros (a & l & Hin & H1 & H2). exists (a, l, o). split; [done|].
    by apply list_elem_of_filter.
Qed.

(** The rows of a reconciled ledger: those it had, the tracked entities of
    the collection with [time] as latest time, then the new entities. *)
Lemma elem_of_reconciled_rows time zs (d : ledger) a l o :
  aligned d →
  (a, l, o) ∈ ledger_rows (reconciled time zs d) ↔
  (∃ i l0, time_appeared d !! i = Some a ∧ latest_time d !! i = Some l0
           ∧ object d !! i = Some o ∧ l = if decide (o ∈ zs) then time else l0)
  ∨ (a = time ∧ l = time ∧ o ∈ zs ∧ o ∉ object d).
Proof.
  intros Hal. pose proof Hal as [Ha Hl]. unfold reconciled.
  rewrite ledger_rows_extend
    by (split; simpl; [done|by apply reconciled_latest_length]).
  rewrite elem_of_app, elem_of_ledger_rows, list_elem_of_fmap. simpl.
  apply Morphisms_Prop.or_iff_morphism.
  - split.
    + intros (i & Hi & Hli & Hoi).
      rewrite (reconciled_latest_lookup time zs d i o) in Hli by done.
      destruct (latest_time d !! i) as [l0|] eqn:El.
      * exists i, l0. repeat split; try done. by destruct (decide (o ∈ zs)); simplify_eq.
      * apply lookup_ge_None in El. apply lookup_lt_Some in Hoi. lia.
    + intros (i & l0 & Hi & Hli & Hoi & ->). exists i. repeat split; try done.
      rewrite (reconciled_latest_lookup time zs d i o) by done.
      by destruct (decide (o ∈ zs)).
  - rewrite <- (py_set_elem o zs), <- (py_set_elem o (object d)),
      <- pyset_difference_elem.
    split; [intros (o' & [= -> -> ->] & Hin); done|].
    intros (-> & -> & Hin). by exists o.
Qed.

(** The entities extant at [time] in a ledger reconciled at [time], a time
    the ledger has not reached. *)
Lemma extant_rows_reconciled time zs (d : ledger) :
  aligned d → scalar_le time time →
  Forall (fun a => scalar_le a time) (time_appeared d) →
  Forall (fun l => ¬ scalar_le time l) (latest_time d) →
  ∀ z, z ∈ extant_rows time (reconciled time zs d) ↔ z ∈ zs.
Proof.
  intros Hal Hnum Hold Hnew z. rewrite elem_of_extant_rows. split.
  - intros (a & l & Hin & H1 & H2).
    apply elem_of_reconciled_rows in Hin
      as [(i & l0 & Hi & Hli & Hoi & ->)|(_ & _ & Hz & _)]; [|done|done].
    destruct (decide (z ∈ zs)); [done|].
    rewrite Forall_forall in Hnew. exfalso. apply (Hnew l0); [|done].
    by eapply list_elem_of_lookup_2.
  - intros Hz. destruct (decide (z ∈ object d)) as [Hin|Hnin].
    + apply list_elem_of_lookup in Hin as [i Hoi].
      pose proof Hal as [Ha Hl].
      destruct (lookup_lt_is_Some_2 (time_appeared d) i) as [a Hi].
      { rewrite Ha. by apply lookup_lt_Some in Hoi. }
      destruct (lookup_lt_is_Some_2 (latest_time d) i) as [l0 Hli].
      { rewrite Hl. by apply lookup_lt_Some in Hoi. }
      exists a, time. split; [|split; [|done]].
      * apply elem_of_reconciled_rows; [done|]. left. exists i, l0.
        repeat split; try done. by rewrite decide_True.
      * rewrite Forall_forall in Hold. apply Hold. by eapply list_elem_of_lookup_2.
    + exists time, time. split; [|done].
      apply elem_of_reconciled_rows; [done|]. by right.
Qed.

(** A reconciliation at an exact time keeps the times of a ledger exact. *)
Lemma reconciled_exact time zs (d : ledger) :
  exact_time time → exact_times d → exact_times (reconciled time zs d).
Proof.
  intros Ht [Ha Hl]. unfold reconciled, extend_ledger, exact_times. simpl. split.
  - apply Forall_app. split; [done|]. by apply Forall_replicate.
  - apply Forall_app. split; [|by apply Forall_replicate].
    unfold reconciled_latest. apply Forall_lookup. intros i x Hi.
    apply lookup_zip_with_Some in Hi as (o & l0 & -> & _ & Hl0).
    case_decide; [done|]. rewrite Forall_lookup in Hl. by eapply Hl.
Qed.

(** X10. After the zone ledger is reconciled with a collection at a time
    that is a number, not before any time of appearance and after every
    latest time of the ledger, all these times being integers of magnitude
    at most 2^53 (or the sentinel), the zones extant at that time are
    exactly the zones of the collection, each once. *)
Theorem zones_extant_after_reconcile time zs (se : SpeciesEvolver Env) :
  aligned (_zones se) → NoDup (object (_zones se)) →
  exact_times (_zones se) → exact_time time →
  scalar_le time time →
  Forall (fun a => scalar_le a time) (time_appeared (_zones se)) →
  Forall (fun l => ¬ scalar_le time l) (latest_time (_zones se)) →
  ∃ res se', (_update_zone_data_structure time zs;; zones_at_time time) se = Ok res se'
             ∧ NoDup res ∧ ∀ z, z ∈ res ↔ z ∈ zs.
Proof.
  intros Hal Hnd Hex Hext Hnum Hold Hnew.
  exists (extant_rows time (reconciled time zs (_zones se))),
         (set_zones (reconciled time zs (_zones se)) se).
  split; [|split].
  - rewrite (bind_Ok _ _ _ _ _ (update_zone_spec time zs se Hal Hnd)).
    unfold zones_at_time. erewrite bind_Ok by reflexivity.
    apply objects_at_time_rows;
      [by apply reconciled_aligned|by apply reconciled_exact|done].
  - apply extant_rows_NoDup; [by apply reconciled_aligned|by apply reconciled_NoDup].
  - by apply extant_rows_reconciled.
Qed.

(** X11. Reconciling the zone ledger at a time that is a number and is not
    before any time of appearance keeps, in every row, the time of
    appearance not after the latest time. *)
Theorem reconcile_keeps_intervals time zs (se : SpeciesEvolver Env) :
  aligned (_zones se) → NoDup (object (_zones se)) →
  rows_ordered (_zones se) →
  scalar_le time time →
  Forall (fun a => scalar_le a time) (time_appeared (_zones se)) →
  rows_ordered (_zones (final_state (_update_zone_data_structure time zs se))).
Proof.
  intros Hal Hnd Hord Hnum Hold.
  rewrite update_zone_spec by done. cbn [final_state _zones set_zones].
  intros i a l Hi Hli.
  pose proof (reconciled_aligned time zs _ Hal) as [Ha' _].
  assert (is_Some (object (reconciled time zs (_zones se)) !! i)) as [o Ho].
  { apply lookup_lt_is_Some_2. rewrite <- Ha'. by apply lookup_lt_Some in Hi. }
  assert ((a, l, o) ∈ ledger_rows (reconciled time zs (_zones se))) as Hrow.
  { apply elem_of_ledger_rows. by exists i. }
  apply elem_of_reconciled_rows in Hrow
    as [(j & l0 & Hj & Hlj & _ & ->)|(-> & -> & _)]; [| |done].
  - case_decide.
    + rewrite Forall_forall in Hold. apply Hold. by eapply list_elem_of_lookup_2.
    + by apply (Hord j).
  - done.
Qed.

(** X17. After the species ledger is reconciled with the survivors of a
    tick, at a time that is a number, not before any time of appearance and
    after every latest time of the ledger, all these times being integers
    of magnitude at most 2^53 (or the sentinel), and the survivors that are
    not yet tracked having identifiers, the species extant at that time are
    exactly the survivors, each once: a species that did not survive is
    extinct from that time on. *)
Theorem species_extant_after_reconcile time survivors (se : SpeciesEvolver Env) :
  species_aligned (_species se) → NoDup (object (columns (_species se))) →
  exact_times (columns (_species se)) → exact_time time →
  scalar_le time time →
  Forall (fun a => scalar_le a time) (time_appeared (columns (_species se))) →
  Forall (fun l => ¬ scalar_le time l) (latest_time (columns (_species se))) →
  (∀ s, s ∈ survivors → s ∉ object (columns (_species se)) →
        is_Some (Species.identifier (species_at (world se) s))) →
  ∃ res se', (_update_species_data_structure time survivors;; species_at_time time) se
             = Ok res se'
             ∧ NoDup res ∧ ∀ s, s ∈ res ↔ s ∈ survivors.
Proof.
  intros (Hc & Hn & Hal) Hnd Hex Hext Hnum Hold Hnew Hids. pose proof Hal as [Ha Hl].
  pose proof (update_species_spec time survivors se Hl Hnd) as Hup. cbv zeta in Hup.
  rewrite identifiers_of_case, decide_True in Hup; cycle 1.
  { apply Forall_forall. intros s Hs.
    rewrite pyset_difference_elem, !py_set_elem in Hs. apply Hids; tauto. }
  fold (reconciled time survivors (columns (_species se))) in Hup.
  eexists (extant_rows time (reconciled time survivors (columns (_species se)))), _.
  split; [|split].
  - rewrite (bind_Ok _ _ _ _ _ Hup).
    unfold species_at_time. erewrite bind_Ok by reflexivity.
    cbn [_species set_species columns].
    apply objects_at_time_rows;
      [by apply reconciled_aligned|by apply reconciled_exact|done].
  - apply extant_rows_NoDup; [by apply reconciled_aligned|by apply reconciled_NoDup].
  - by apply extant_rows_reconciled.
Qed.

End ReconcileQueryFacts.

Lemma zones_extant_after_reconcile_witness :
  ∃ res se',
    (_update_zone_data_structure (SO := stable_order) (Num 4) [3%nat; 4%nat; 1%nat];;
     zones_at_time (Num 4)) Example.se_three_zones = Ok res se'
    ∧ NoDup res ∧ ∀ z, z ∈ res ↔ z ∈ [3%nat; 4%nat; 1%nat].
Proof.
  apply (zones_extant_after_reconcile (SO := stable_order) (Num 4)
           [3%nat; 4%nat; 1%nat] Example.se_three_zones).
  - split; reflexivity.
  - apply (bool_decide_unpack (NoDup [1%nat; 2%nat; 3%nat])). reflexivity.
  - solve_exact.
  - solve_exact.
  - simpl. lia.
  - repeat constructor; simpl; lia.
  - repeat constructor; simpl; lia.
Defined.

Lemma reconcile_keeps_intervals_witness :
  rows_ordered
    (_zones (final_state
       (_update_zone_data_structure (SO := stable_order) (Num 4)
          [3%nat; 4%nat; 1%nat] Example.se_three_zones))).
Proof.
  apply (reconcile_keeps_intervals (SO := stable_order) (Num 4)
           [3%nat; 4%nat; 1%nat] Example.se_three_zones).
  - split; reflexivity.
  - apply (bool_decide_unpack (NoDup [1%nat; 2%nat; 3%nat])). reflexivity.
  - intros [|[|[|i]]] a l; simpl; intros [= <-] [= <-]; simpl; lia.
  - simpl. lia.
  - repeat constructor; simpl; lia.
Defined.

(** ** Invariants of the ledgers *)

Section InvariantFacts.

Context {Env : Type} `{Co : !Collaborators Env}.

#[local] Instance keeps_well_formed_refl : Reflexive (@keeps_well_formed Env).
Proof. by intros s Hs. Qed.

#[local] Instance keeps_well_formed_trans : Transitive (@keeps_well_formed Env).
Proof. intros s1 s2 s3 H12 H23 Hs. by apply H23, H12. Qed.

#[local] Instance rows_kept_refl : Reflexive (@rows_kept Env).
Proof. intros s. unfold rows_kept. by split_and!. Qed.

#[local] Instance rows_kept_trans : Transitive (@rows_kept Env).
Proof.
  intros s1 s2 s3 (?&?&?&?&?&?) (?&?&?&?&?&?).
  unfold rows_kept. split_and!; by etrans.
Qed.

Lemma keeps_well_formed_same (s s' : SpeciesEvolver Env) :
  _zones s' = _zones s → _species s' = _species s → keeps_well_formed s s'.
Proof. intros Hz Hs. unfold keeps_well_formed, well_formed. by rewrite Hz, Hs. Qed.

Lemma rows_kept_same (s s' : SpeciesEvolver Env) :
  _zones s' = _zones s → _species s' = _species s → rows_kept s s'.
Proof. intros Hz Hs. unfold rows_kept. rewrite Hz, Hs. by split_and!. Qed.

Lemma update_zone_well_formed `{SO : !SetOrder} time zs :
  respects (@keeps_well_formed Env) (_update_zone_data_structure time zs).
Proof.
  intros s (Hz & Hnz & Hs & Hns). rewrite update_zone_spec by done.
  cbn [final_state]. unfold well_formed. cbn [_zones _species set_zones].
  split_and!; [by apply reconciled_aligned|by apply reconciled_NoDup|done|done].
Qed.

Lemma update_species_well_formed `{SO : !SetOrder} time survivors :
  respects (@keeps_well_formed Env) (_update_species_data_structure time survivors).
Proof.
  intros s ([Hz1 Hz2] & Hnz & (Hc & Hn & Ha & Hl) & Hns).
  rewrite update_species_spec by done. cbv zeta.
  rewrite identifiers_of_case.
  pose proof (reconciled_NoDup time survivors _ Hns) as Hnd'.
  unfold reconciled in Hnd'.
  case_decide; cbn [final_state]; unfold well_formed, species_aligned, aligned;
    cbn [_zones _species set_species set_species_columns columns clade species_number
         extend_ledger object time_appeared latest_time] in *;
    split_and!; try done;
    rewrite ?length_app, ?length_fmap, ?length_replicate, ?reconciled_latest_length
      by done; lia.
Qed.

Lemma touch_all_zones_rows time updated :
  respects (@rows_kept Env) (touch_all _zones set_zones time updated).
Proof.
  unfold touch_all. apply respects_for_each; try apply _.
  intros z s. unfold mbind, M_bind, gets, touch_latest_time. cbn.
  destruct (py_index z _) as [idx|]; [|reflexivity].
  destruct (py_setitem idx time _) as [l|]; [|reflexivity].
  cbn. unfold rows_kept. cbn. by split_and!.
Qed.

Lemma touch_all_species_rows time updated :
  respects (@rows_kept Env) (touch_all species_columns set_species_columns time updated).
Proof.
  unfold touch_all. apply respects_for_each; try apply _.
  intros z s. unfold mbind, M_bind, gets, touch_latest_time. cbn.
  destruct (py_index z _) as [idx|]; [|reflexivity].
  destruct (py_setitem idx time _) as [l|]; [|reflexivity].
  cbn. unfold rows_kept. cbn. by split_and!.
Qed.

Lemma run_one_step_respects_well_formed `{SO : !SetOrder} dt :
  respects (@keeps_well_formed Env) (run_one_step dt).
Proof.
  unfold run_one_step, process_zones, process_species, create_all_zones,
    _get_updated_zones, _get_surviving_species, _get_prior_time, record_time,
    zones_at_time, species_at_time, _objects_at_time, update_paths_of, evolve_one,
    set_child_identifier, _get_unused_species_id, in_species_ids, in_world,
    _insert_record_add_on, insert_record_item, record_time.
  frame_rel;
    first [ by apply keeps_well_formed_same
          | apply update_zone_well_formed
          | apply update_species_well_formed ].
Qed.

Lemma introduce_species_respects_well_formed `{SO : !SetOrder} s :
  respects (@keeps_well_formed Env) (introduce_species s).
Proof.
  unfold introduce_species, _get_unused_clade_name, _get_unused_species_id,
    in_species_ids, record_time.
  frame_rel;
    first [ by apply keeps_well_formed_same | apply update_species_well_formed ].
Qed.

(** X12. A tick started with well-formed ledgers ends with well-formed
    ledgers, whether it returns or raises: in each ledger every column has one
    entry per row, and no object has two rows. *)
Theorem run_one_step_keeps_well_formed `{SO : !SetOrder} dt (se : SpeciesEvolver Env) :
  well_formed se → well_formed (final_state (run_one_step dt se)).
Proof. apply run_one_step_respects_well_formed. Qed.

(** X13. The introduction of a species, in each of its outcomes, leaves
    well-formed ledgers well-formed. *)
Theorem introduce_species_keeps_well_formed `{SO : !SetOrder} s (se : SpeciesEvolver Env) :
  well_formed se → well_formed (final_state (introduce_species s se)).
Proof. apply introduce_species_respects_well_formed. Qed.

(** X14. Neither a tick nor the introduction of a species, returning or
    raising, removes, reorders or renames a row: the objects, the times of
    appearance, the clades and the species numbers that the ledgers held are
    the first entries of the columns afterwards. *)
Theorem rows_are_only_appended `{SO : !SetOrder} (se : SpeciesEvolver Env) :
  (∀ dt, rows_kept se (final_state (run_one_step dt se)))
  ∧ (∀ s, rows_kept se (final_state (introduce_species s se))).
Proof.
  split.
  - intros dt. revert se. change (respects (@rows_kept Env) (run_one_step dt)).
    unfold run_one_step, process_zones, process_species, create_all_zones,
      _get_updated_zones, _get_surviving_species, _get_prior_time, record_time,
      zones_at_time, species_at_time, _objects_at_time, update_paths_of, evolve_one,
      set_child_identifier, _get_unused_species_id, in_species_ids, in_world,
      _insert_record_add_on, insert_record_item, record_time,
      _update_zone_data_structure, _update_species_data_structure.
    frame_rel;
      first [ by apply rows_kept_same
            | apply touch_all_zones_rows
            | apply touch_all_species_rows
            | unfold rows_kept; cbn; split_and!;
              first [done | by apply prefix_app_r] ].
  - intros s. revert se. change (respects (@rows_kept Env) (introduce_species s)).
    unfold introduce_species, _get_unused_clade_name, _get_unused_species_id,
      in_species_ids, record_time, _update_species_data_structure.
    frame_rel;
      first [ by apply rows_kept_same
            | apply touch_all_species_rows
            | unfold rows_kept; cbn; split_and!;
              first [done | by apply prefix_app_r] ].
Qed.

End InvariantFacts.

Lemma run_one_step_keeps_well_formed_witness :
  well_formed
    (final_state
       (run_one_step (Co := Example.scripted) (SO := stable_order) (Num 1)
          Example.se_one_species)).
Proof.
  apply (run_one_step_keeps_well_formed (Co := Example.scripted) (SO := stable_order)
           (Num 1) Example.se_one_species).
  unfold well_formed, species_aligned, aligned. split_and!; try reflexivity.
  - vm_compute. apply NoDup_nil_2.
  - vm_compute. apply NoDup_singleton.
Defined.

Lemma introduce_species_keeps_well_formed_witness :
  well_formed
    (final_state
       (introduce_species (SO := stable_order) 11%nat Example.se_one_species)).
Proof.
  apply (introduce_species_keeps_well_formed (SO := stable_order) 11%nat
           Example.se_one_species).
  unfold well_formed, species_aligned, aligned. split_and!; try reflexivity.
  - vm_compute. apply NoDup_nil_2.
  - vm_compute. apply NoDup_singleton.
Defined.

(** ** Construction, and a tick without species *)

Section ConstructionFacts.

Context {Env : Type} `{Co : !Collaborators Env}.

Lemma create_all_zones_preserves {T} (proj : SpeciesEvolver Env → T) :
  (∀ w s, proj (set_world w s) = proj s) →
  preserves proj create_all_zones.
Proof. intros Hw. unfold create_all_zones, in_world. frame. Qed.

Lemma process_zones_preserves `{SO : !SetOrder} {T} (proj : SpeciesEvolver Env → T) dt :
  (∀ r s, proj (set_record r s) = proj s) →
  (∀ w s, proj (set_world w s) = proj s) →
  (∀ z s, proj (set_zones z s) = proj s) →
  preserves proj (process_zones dt).
Proof.
  intros Hr Hw Hz.
  unfold process_zones, record_time, create_all_zones, _get_updated_zones,
    _get_prior_time, zones_at_time, _objects_at_time, update_paths_of, in_world,
    _update_zone_data_structure, touch_all, record_time.
  frame; by apply insert_record_add_on_preserves.
Qed.

(** X15. Whatever the zone managers do, construction ends with well-formed
    ledgers, a record that holds the initial time only, no species, an empty
    registry and the zone managers given; every zone of the ledger has the
    initial time as time of appearance and as latest time.  When the zone
    managers return, so does the construction, and the zones of the ledger
    are the zones they created. *)
Theorem init_establishes `{SO : !SetOrder} t0 zms (w : World Env) :
  let se := final_state (__init__ t0 zms w) in
  well_formed se
  ∧ _record se = [("time", [t0])]
  ∧ _species se = SpeciesLedger [] [] (Ledger [] [] [])
  ∧ _species_ids se = ∅
  ∧ _zone_managers se = zms
  ∧ Forall (fun a => a = t0) (time_appeared (_zones se))
  ∧ Forall (fun l => l = t0) (latest_time (_zones se))
  ∧ ∀ zs s1,
      create_all_zones
        (mkSpeciesEvolver [("time", [t0])] (SpeciesLedger [] [] (Ledger [] [] []))
           (Ledger [] [] []) ∅ zms w) = Ok zs s1 →
      outcome (__init__ t0 zms w) = None
      ∧ ∀ z, z ∈ object (_zones se) ↔ z ∈ zs.
Proof.
  set (se0 := mkSpeciesEvolver [("time", [t0])] (SpeciesLedger [] [] (Ledger [] [] []))
                (Ledger [] [] []) ∅ zms w).
  cbv zeta.
  replace (__init__ t0 zms w)
    with (match create_all_zones se0 with
          | Ok zs s1 => _update_zone_data_structure t0 zs s1
          | Raise e s1 => Raise e s1
          end) by reflexivity.
  pose proof (create_all_zones_preserves
                (fun s => (_record s, _species s, _zones s, _species_ids s,
                           _zone_managers s))
                (fun _ _ => eq_refl) se0) as Hp.
  destruct (create_all_zones se0) as [zs s1|e s1];
    cbn [final_state] in Hp; injection Hp as Hr Hs Hz Hi Hm.
  - rewrite update_zone_spec by (rewrite Hz; first [apply NoDup_nil_2|by split]).
    cbn [final_state outcome].
    unfold well_formed. cbn [_record _species _zones _species_ids _zone_managers set_zones].
    rewrite Hr, Hs, Hi, Hm, Hz.
    split_and!; try done.
    + by apply (reconciled_aligned t0 zs (Ledger [] [] [])).
    + apply (reconciled_NoDup t0 zs (Ledger [] [] [])), NoDup_nil_2.
    + apply NoDup_nil_2.
    + cbn. by apply Forall_replicate.
    + cbn. by apply Forall_replicate.
    + intros zs' s1' [= <- <-]. split; [done|]. intros z. cbn.
      rewrite pyset_difference_elem, !py_set_elem.
      split; [tauto|]. intros Hz'. split; [done|apply not_elem_of_nil].
  - cbn [final_state].
    unfold well_formed. rewrite Hr, Hs, Hi, Hm, Hz.
    split_and!; try done; apply NoDup_nil_2.
Qed.

(** X16. While no species has been introduced, a tick is its zone step: the
    species step does nothing, and the species ledger and the registry of
    identifiers end as they were, whether the zone step returns or raises. *)
Theorem tick_without_species `{SO : !SetOrder} dt (se : SpeciesEvolver Env) :
  object (columns (_species se)) = [] →
  run_one_step dt se = (process_zones dt;; mret tt) se
  ∧ _species (final_state (run_one_step dt se)) = _species se
  ∧ _species_ids (final_state (run_one_step dt se)) = _species_ids se.
Proof.
  intros Hnone.
  pose proof (process_zones_preserves (fun s => (_species s, _species_ids s)) dt
                (fun _ _ => eq_refl) (fun _ _ => eq_refl) (fun _ _ => eq_refl) se) as Hp.
  unfold run_one_step, mbind, M_bind.
  destruct (process_zones dt se) as [time s1|e s1]; cbn [final_state] in *;
    injection Hp as Hs Hi; [|done].
  unfold process_species, mbind, M_bind, gets.
  rewrite decide_True by (by rewrite Hs, Hnone). done.
Qed.

End ConstructionFacts.

Lemma tick_without_species_witness :
  run_one_step (Co := Example.scripted) (SO := stable_order) (Num 1) Example.se_three_zones
  = (process_zones (Co := Example.scripted) (SO := stable_order) (Num 1);; mret tt)
      Example.se_three_zones
  ∧ _species (final_state (run_one_step (Co := Example.scripted) (SO := stable_order)
                             (Num 1) Example.se_three_zones))
    = _species Example.se_three_zones
  ∧ _species_ids (final_state (run_one_step (Co := Example.scripted) (SO := stable_order)
                                 (Num 1) Example.se_three_zones))
    = _species_ids Example.se_three_zones.
Proof.
  apply (tick_without_species (Co := Example.scripted) (SO := stable_order) (Num 1)
           Example.se_three_zones).
  reflexivity.
Defined.

Lemma init_establishes_witness :
  outcome (__init__ (Co := Example.scripted) (SO := stable_order) (Num 0) [Example.zm]
             (Example.world0 false)) = None
  ∧ ∀ z, z ∈ object (_zones (final_state
                       (__init__ (Co := Example.scripted) (SO := stable_order) (Num 0)
                          [Example.zm] (Example.world0 false))))
         ↔ z ∈ @nil ref.
Proof.
  destruct (init_establishes (Co := Example.scripted) (SO := stable_order) (Num 0)
              [Example.zm] (Example.world0 false)) as (_ & _ & _ & _ & _ & _ & _ & H).
  eapply H. reflexivity.
Defined.

Lemma species_extant_after_reconcile_witness :
  ∃ res se',
    (_update_species_data_structure (SO := stable_order) (Num 1) [10%nat];;
     species_at_time (Num 1)) Example.se_one_species = Ok res se'
    ∧ NoDup res ∧ ∀ s, s ∈ res ↔ s ∈ [10%nat].
Proof.
  apply (species_extant_after_reconcile (SO := stable_order) (Num 1) [10%nat]
           Example.se_one_species).
  - repeat split; reflexivity.
  - vm_compute. apply NoDup_singleton.
  - split; apply (Forall_singleton _ (Num 0)); solve_exact.
  - solve_exact.
  - simpl. lia.
  - apply (Forall_singleton _ (Num 0)). simpl. lia.
  - apply (Forall_singleton _ (Num 0)). simpl. lia.
  - intros s Hs Hn. exfalso. apply Hn. vm_compute.
    apply list_elem_of_singleton in Hs as ->. apply list_elem_of_singleton. reflexivity.
Defined.

(** ** The table of species and the queries on it *)

Section SpeciesTableFacts.

Context {Env : Type}.

Lemma rows_from_total i (c : list string) (n : list Z) (a l : list scalar) (o : list ref) :
  length c = length o → length n = length o →
  length a = length o → length l = length o →
  is_Some (rows_from i c n a l o).
Proof.
  revert i c n a l. induction o as [|o0 o IH]; intros i [|c0 c] [|n0 n] [|a0 a] [|l0 l];
    simpl; try done.
  intros [=] [=] [=] [=]. destruct (IH (S i) c n a l) as [rows ->]; by eauto.
Qed.

Lemma rows_from_length i c n a l o rows :
  rows_from i c n a l o = Some rows → length rows = length o.
Proof.
  revert i c n a l rows.
  induction o as [|o0 o IH]; intros i [|c0 c] [|n0 n] [|a0 a] [|l0 l] rows;
    simpl; try done.
  - by intros [= <-].
  - destruct (rows_from (S i) c n a l o) as [rows'|] eqn:E; simpl; [|done].
    intros [= <-]. simpl. f_equal. by eapply IH.
Qed.

(** The row at a position of the table holds that position as its label and
    the entries of the five columns at that position. *)
Lemma rows_from_lookup i c n a l o rows k r :
  rows_from i c n a l o = Some rows →
  rows !! k = Some r ↔
  (row_index r = (i + k)%nat ∧ c !! k = Some (row_clade r)
   ∧ n !! k = Some (row_species_number r) ∧ a !! k = Some (row_time_appeared r)
   ∧ l !! k = Some (row_latest_time r) ∧ o !! k = Some (row_object r)).
Proof.
  revert i c n a l rows k.
  induction o as [|o0 o IH]; intros i [|c0 c] [|n0 n] [|a0 a] [|l0 l] rows k;
    simpl; try done.
  - intros [= <-]. split; [done|]. by intros (_ & _ & _ & _ & _ & ?).
  - destruct (rows_from (S i) c n a l o) as [rows'|] eqn:E; simpl; [|done].
    intros [= <-]. destruct k as [|k]; simpl.
    + split.
      * intros [= <-]. simpl. split_and!; try done; lia.
      * intros (Hi & [= Hc] & [= Hn] & [= Ha] & [= Hl] & [= Ho]).
        destruct r; simpl in *. f_equal. f_equal; try done; lia.
    + rewrite (IH _ _ _ _ _ _ k E). by rewrite Nat.add_succ_r.
Qed.

Lemma rows_from_snoc i c n a l o rows c0 n0 a0 l0 o0 :
  rows_from i c n a l o = Some rows →
  rows_from i (c ++ [c0]) (n ++ [n0]) (a ++ [a0]) (l ++ [l0]) (o ++ [o0])
  = Some (rows ++ [SpeciesRow (i + length rows) c0 n0 a0 l0 o0]).
Proof.
  revert i c n a l rows.
  induction o as [|o1 o IH]; intros i [|c1 c] [|n1 n] [|a1 a] [|l1 l] rows;
    simpl; try done.
  - intros [= <-]. simpl. by rewrite Nat.add_0_r.
  - destruct (rows_from (S i) c n a l o) as [rows'|] eqn:E; simpl; [|done].
    intros [= <-]. rewrite (IH _ _ _ _ _ _ E). simpl.
    by rewrite Nat.add_succ_r.
Qed.

Lemma filter_none {A} (f : A → bool) (rows : list A) :
  (∀ r, r ∈ rows → f r = false) → List.filter f rows = [].
Proof.
  induction rows as [|r rows IH]; intros Hf; simpl; [done|].
  rewrite (Hf r) by (by left). apply IH. intros r' Hr'. apply Hf. by right.
Qed.

Lemma elem_of_List_filter {A} (f : A → bool) (rows : list A) r :
  r ∈ List.filter f rows ↔ r ∈ rows ∧ f r = true.
Proof. rewrite !list_elem_of_In. apply List.filter_In. Qed.

End SpeciesTableFacts.

(** ** Introduction, then queries *)

Section IntroductionQueryFacts.

Context {Env : Type} `{SO : !SetOrder}.

(** The successful outcome of [introduce_species]. *)
Lemma introduce_species_ok (s : ref) (se : SpeciesEvolver Env) t time :
  s ∉ object (columns (_species se)) →
  Species._zones (species_at (world se) s) ≠ [] →
  od_get "time" (_record se) = Some t → py_max t = Some time →
  ∃ c, _species_ids se !! c = None
       ∧ introduce_species s se
         = Ok tt (mkSpeciesEvolver
             (_record se)
             (SpeciesLedger
                (clade (_species se) ++ [c])
                (species_number (_species se) ++ [0])
                (extend_ledger time [s] (columns (_species se))))
             (_zones se)
             (<[c := Some 0]> (_species_ids se))
             (_zone_managers se)
             (assign_identifier s (c, 0) (world se))).
Proof.
  intros Hnin Hz Ht Hmax.
  destruct (AllocatorFacts.get_unused_clade_name_fresh (_species_ids se))
    as (c & Hc & Hfresh).
  exists c. split; [done|].
  unfold introduce_species.
  rewrite (bind_Ok _ _ se (_species se) se) by done.
  rewrite decide_False by done.
  rewrite (bind_Ok _ _ se (world se) se) by done.
  destruct (Species._zones (species_at (world se) s)) as [|z zs]; [done|].
  erewrite bind_Ok; cycle 1.
  { unfold _get_unused_clade_name, in_species_ids, zoom. by rewrite Hc. }
  erewrite bind_Ok; cycle 1.
  { unfold _get_unused_species_id, in_species_ids, zoom,
      Allocator._get_unused_species_id. simpl.
    by rewrite lookup_insert_eq. }
  rewrite insert_insert_eq.
  erewrite bind_Ok by reflexivity.
  erewrite bind_Ok; cycle 1.
  { unfold record_time, mbind, M_bind, gets. simpl. by rewrite Ht. }
  erewrite bind_Ok by (by rewrite Hmax).
  unfold _update_species_data_structure.
  erewrite bind_Ok by reflexivity.
  unfold species_columns. simpl.
  pose proof (object_set_difference_new s _ Hnin) as Hd.
  unfold _object_set_difference in Hd. injection Hd as -> ->.
  unfold touch_all. simpl.
  unfold mbind, M_bind, gets, modify, identifiers_of. simpl.
  rewrite decide_True by done. simpl.
  by destruct (_species se) as [cl nb [a l o]].
Qed.

(** X18. A species introduced with success into a component whose species
    ledger is aligned and names registered clades only can be found again:
    it carries the identifier (clade, 0) of a new clade, it is among the
    species extant at the greatest recorded time, the query for its
    identifier returns its row and no other, labelled with its position at
    the end of the ledger, and a second introduction of the same object is
    refused and changes nothing. *)
Theorem introduced_species_is_found (s : ref) (se : SpeciesEvolver Env) t m :
  species_aligned (_species se) →
  s ∉ object (columns (_species se)) →
  Species._zones (species_at (world se) s) ≠ [] →
  od_get "time" (_record se) = Some t → py_max t = Some (Num m) →
  (∀ c, c ∈ clade (_species se) → is_Some (_species_ids se !! c)) →
  ∃ c se',
    introduce_species s se = Ok tt se'
    ∧ Species.identifier (species_at (world se') s) = Some (c, 0)
    ∧ (∃ res, species_at_time (Num m) se' = Ok res se' ∧ s ∈ res)
    ∧ species_with_identifier (PyTuple [PyStr c; PyInt 0]) se'
      = Ok (Some [SpeciesRow (length (object (columns (_species se)))) c 0
                    (Num m) (Num m) s]) se'
    ∧ introduce_species s se'
      = Raise (Exception "The species object, {} was already introduced.") se'.
Proof.
  intros (Hc & Hn & Hal) Hnin Hz Ht Hmax Hreg. pose proof Hal as [Ha Hl].
  destruct (introduce_species_ok s se t (Num m) Hnin Hz Ht Hmax) as (c & Hfresh & Hok).
  eexists c, _. split; [exact Hok|]. split_and!.
  - cbn. by rewrite decide_True.
  - eexists. split.
    + unfold species_at_time. erewrite bind_Ok by reflexivity.
      cbn [_species columns]. apply objects_at_time_select.
      unfold aligned, extend_ledger. cbn.
      rewrite !length_app. cbn. lia.
    + apply (elem_of_select _ _ (length (object (columns (_species se))))).
      { cbn. by apply list_lookup_middle. }
      apply lookup_zip_with_Some. exists true, true. split; [done|].
      split; (apply np_compare_refl; [intros z; apply Z.leb_refl|]);
        cbn; by apply list_lookup_middle.
  - destruct (rows_from_total 0 (clade (_species se)) (species_number (_species se))
                (time_appeared (columns (_species se)))
                (latest_time (columns (_species se)))
                (object (columns (_species se)))) as [rows Hrows]; try done.
    unfold species_with_identifier, mbind, M_bind, gets, DataFrame.
    cbn [_species clade species_number columns extend_ledger time_appeared latest_time
         object length replicate].
    rewrite (rows_from_snoc _ _ _ _ _ _ _ c 0 (Num m) (Num m) s Hrows).
    cbn [or_raise mret M_ret lookup list_lookup].
    rewrite (rows_from_length _ _ _ _ _ _ _ Hrows). cbn.
    rewrite List.filter_app, filter_none; cycle 1.
    { intros r Hr. apply list_elem_of_lookup in Hr as [k Hk].
      apply (rows_from_lookup _ _ _ _ _ _ _ k r Hrows) in Hk as (_ & Hck & _).
      apply andb_false_intro1, bool_decide_eq_false. intros Heq.
      apply list_elem_of_lookup_2 in Hck. rewrite Heq in Hck.
      apply Hreg in Hck as [? Hsome]. congruence. }
    cbn. by rewrite !bool_decide_eq_true_2.
  - unfold introduce_species.
    erewrite bind_Ok by reflexivity.
    rewrite decide_True; [done|].
    cbn. apply elem_of_app. right. by left.
Qed.

End IntroductionQueryFacts.

Lemma introduced_species_is_found_witness :
  ∃ c se',
    introduce_species (SO := stable_order) 10%nat (Example.se0 (SO := stable_order) false)
    = Ok tt se'
    ∧ Species.identifier (species_at (world se') 10%nat) = Some (c, 0)
    ∧ (∃ res, species_at_time (Num 0) se' = Ok res se' ∧ 10%nat ∈ res)
    ∧ species_with_identifier (PyTuple [PyStr c; PyInt 0]) se'
      = Ok (Some [SpeciesRow
                    (length (object (columns (_species
                       (Example.se0 (SO := stable_order) false))))) c 0
                    (Num 0) (Num 0) 10%nat]) se'
    ∧ introduce_species (SO := stable_order) 10%nat se'
      = Raise (Exception "The species object, {} was already introduced.") se'.
Proof.
  apply (introduced_species_is_found (SO := stable_order) 10%nat
           (Example.se0 (SO := stable_order) false) [Num 0] 0).
  - repeat split; reflexivity.
  - vm_compute. apply not_elem_of_nil.
  - vm_compute. discriminate.
  - reflexivity.
  - reflexivity.
  - intros c Hc. exfalso. revert Hc. vm_compute. apply not_elem_of_nil.
Defined.

(** ** Queries by identifier on an aligned ledger *)

Section SelectionFacts.

Context {Env : Type}.

Lemma rows_from_filter_sorted (f : species_row → bool) i c n a l o rows :
  rows_from i c n a l o = Some rows →
  StronglySorted lt (row_index <$> List.filter f rows)
  ∧ Forall (fun r => (i ≤ row_index r)%nat) rows.
Proof.
  revert i c n a l rows.
  induction o as [|o0 o IH]; intros i [|c0 c] [|n0 n] [|a0 a] [|l0 l] rows;
    simpl; try done.
  - intros [= <-]. split; constructor.
  - destruct (rows_from (S i) c n a l o) as [rows'|] eqn:E; simpl; [|done].
    intros [= <-]. destruct (IH _ _ _ _ _ _ E) as [Hs Hge]. split.
    + simpl. destruct (f _); [|done]. simpl. constructor; [done|].
      apply Forall_fmap, Forall_forall. intros r Hr. simpl.
      apply elem_of_List_filter in Hr as [Hr _].
      rewrite Forall_forall in Hge. specialize (Hge r Hr). lia.
    + constructor; [simpl; lia|]. eapply Forall_impl; [exact Hge|]. simpl. lia.
Qed.

Lemma in_table_rows (d : species_ledger) rows r :
  DataFrame d = Some rows → r ∈ rows ↔ in_table d r.
Proof.
  intros Hdf. unfold DataFrame in Hdf. rewrite list_elem_of_lookup. split.
  - intros [k Hk].
    apply (rows_from_lookup _ _ _ _ _ _ _ k r Hdf) in Hk as (Hi & Hk).
    simpl in Hi. unfold in_table. by rewrite Hi.
  - intros Hr. exists (row_index r).
    apply (rows_from_lookup _ _ _ _ _ _ _ (row_index r) r Hdf). by split.
Qed.

Lemma filter_selects (d : species_ledger) rows (f : species_row → bool)
    (P : species_row → Prop) :
  DataFrame d = Some rows → (∀ r, f r = true ↔ P r) →
  selects d P (List.filter f rows).
Proof.
  intros Hdf Hf. split.
  - by apply (rows_from_filter_sorted f _ _ _ _ _ _ _ Hdf).
  - intros r. by rewrite elem_of_List_filter, (in_table_rows d rows r Hdf), Hf.
Qed.

(** X20. On a species ledger with aligned columns the three forms of a
    well-formed key return, without raising and without changing the state,
    exactly the rows that match: those of the clade for a string, those of
    the number for an integer, those of both for a pair; in ledger order,
    each labelled with its position in the ledger; [None] when no row
    matches. *)
Theorem queries_select_matching_rows (se : SpeciesEvolver Env) :
  species_aligned (_species se) →
  (∀ c, ∃ sel, species_with_identifier (PyStr c) se = Ok (query_result sel) se
               ∧ selects (_species se) (fun r => row_clade r = c) sel)
  ∧ (∀ n, ∃ sel, species_with_identifier (PyInt n) se = Ok (query_result sel) se
                 ∧ selects (_species se) (fun r => row_species_number r = n) sel)
  ∧ (∀ c n, ∃ sel,
       species_with_identifier (PyTuple [PyStr c; PyInt n]) se = Ok (query_result sel) se
       ∧ selects (_species se)
           (fun r => row_clade r = c ∧ row_species_number r = n) sel).
Proof.
  intros (Hc & Hn & Ha & Hl).
  destruct (rows_from_total 0 (clade (_species se)) (species_number (_species se))
              (time_appeared (columns (_species se)))
              (latest_time (columns (_species se)))
              (object (columns (_species se)))) as [rows Hrows]; try done.
  fold (DataFrame (_species se)) in Hrows.
  assert (∀ sel : list species_row,
            (if decide (length sel = 0%nat)
             then mret None else mret (Some sel) : M (SpeciesEvolver Env) _) se
            = Ok (query_result sel) se) as Hres.
  { intros [|r sel]; done. }
  split_and!.
  - intros c. exists (List.filter (clade_eq (PyStr c)) rows). split.
    + unfold species_with_identifier, mbind, M_bind, gets. rewrite Hrows. cbn.
      apply Hres.
    + apply filter_selects; [done|]. intros r. cbn. apply bool_decide_eq_true.
  - intros n. exists (List.filter (species_number_eq (PyInt n)) rows). split.
    + unfold species_with_identifier, mbind, M_bind, gets. rewrite Hrows. cbn.
      apply Hres.
    + apply filter_selects; [done|]. intros r. cbn. apply bool_decide_eq_true.
  - intros c n.
    exists (List.filter (fun r => clade_eq (PyStr c) r && species_number_eq (PyInt n) r)
              rows).
    split.
    + unfold species_with_identifier, mbind, M_bind, gets. rewrite Hrows. cbn.
      apply Hres.
    + apply filter_selects; [done|]. intros r. cbn.
      by rewrite andb_true_iff, !bool_decide_eq_true.
Qed.

End SelectionFacts.

Lemma queries_select_matching_rows_witness :
  ∃ sel, species_with_identifier (PyStr "A") Example.se_one_species
         = Ok (query_result sel) Example.se_one_species
         ∧ selects (_species Example.se_one_species) (fun r => row_clade r = "A") sel.
Proof.
  apply (proj1 (queries_select_matching_rows Example.se_one_species
                  ltac:(repeat split; reflexivity)) "A").
Defined.

(** ** The identifiers of the children of a species *)

Section ChildrenFacts.

Context {Env : Type}.

Lemma set_child_identifier_ok cs p c (se : SpeciesEvolver Env) :
  Species.parent_species (species_at (world se) cs) = Some p →
  Species.clade (species_at (world se) p) = Some c →
  is_Some (_species_ids se !! c) →
  set_child_identifier cs se
  = Ok tt (set_world
             (assign_identifier cs (c, Allocator.next_number c (_species_ids se))
                (world se))
             (set_species_ids
                (<[c := Some (Allocator.next_number c (_species_ids se))]>
                   (_species_ids se)) se)).
Proof.
  intros Hp Hc [v Hv].
  unfold set_child_identifier, mbind, M_bind, gets. cbn.
  rewrite Hp. cbn. rewrite Hc. cbn.
  unfold _get_unused_species_id, in_species_ids, zoom,
    Allocator._get_unused_species_id, Allocator.next_number.
  rewrite Hv. by destruct v.
Qed.

(** X19. The children of one species, taken in the order in which its evolve
    call returned them, receive the identifiers of the clade of their parent
    with consecutive numbers that continue the numbers of the clade; the
    registry then holds the last of these numbers, and neither another
    species nor another clade is touched. *)
Theorem children_numbered_in_order p c children (se : SpeciesEvolver Env) :
  Species.clade (species_at (world se) p) = Some c →
  is_Some (_species_ids se !! c) →
  Forall (fun cs => Species.parent_species (species_at (world se) cs) = Some p)
         children →
  NoDup children →
  ∃ se',
    for_each children set_child_identifier se = Ok tt se'
    ∧ (∀ i cs, children !! i = Some cs →
         Species.identifier (species_at (world se') cs)
         = Some (c, Allocator.next_number c (_species_ids se) + Z.of_nat i))
    ∧ Allocator.next_number c (_species_ids se')
      = Allocator.next_number c (_species_ids se) + Z.of_nat (length children)
    ∧ (∀ r, r ∉ children → species_at (world se') r = species_at (world se) r)
    ∧ (∀ c', c' ≠ c → _species_ids se' !! c' = _species_ids se !! c').
Proof.
  revert se. induction children as [|cs children IH]; intros se Hc Hreg Hpar Hnd.
  { exists se. split_and!; [done|by intros [|i] cs'|simpl; lia|done|done]. }
  apply Forall_cons in Hpar as [Hp Hpar]. apply NoDup_cons in Hnd as [Hcs Hnd].
  set (k := Allocator.next_number c (_species_ids se)).
  set (se1 := set_world (assign_identifier cs (c, k) (world se))
                (set_species_ids (<[c := Some k]> (_species_ids se)) se)).
  assert (Allocator.next_number c (_species_ids se1) = k + 1) as Hk1.
  { unfold Allocator.next_number. cbn. by rewrite lookup_insert_eq. }
  destruct (IH se1) as (se' & Hrun & Hids & Hnext & Hother & Hclades); try done.
  - cbn. case_decide as Heq; [|done]. by subst.
  - cbn. rewrite lookup_insert_eq. by eauto.
  - eapply Forall_impl; [exact Hpar|]. intros r Hr. cbn. by case_decide.
  - exists se'. split_and!.
    + cbn [for_each].
      by rewrite (bind_Ok _ _ _ _ _ (set_child_identifier_ok cs p c se Hp Hc Hreg)).
    + intros [|i] r Hr; simpl in Hr.
      * injection Hr as <-. rewrite (Hother cs Hcs). cbn.
        rewrite decide_True by done. cbn. do 2 f_equal. lia.
      * rewrite (Hids i r Hr), Hk1. do 2 f_equal. lia.
    + rewrite Hnext, Hk1. cbn [length]. lia.
    + intros r Hr. apply not_elem_of_cons in Hr as [Hne Hr].
      rewrite (Hother r Hr). cbn. by rewrite decide_False.
    + intros c' Hne. rewrite (Hclades c' Hne). cbn. by rewrite lookup_insert_ne.
Qed.

End ChildrenFacts.

Lemma children_numbered_in_order_witness :
  ∃ se',
    for_each [11%nat; 12%nat] set_child_identifier Example.se_family = Ok tt se'
    ∧ (∀ i cs, [11%nat; 12%nat] !! i = Some cs →
         Species.identifier (species_at (world se') cs)
         = Some ("A", Allocator.next_number "A" (_species_ids Example.se_family)
                      + Z.of_nat i))
    ∧ Allocator.next_number "A" (_species_ids se')
      = Allocator.next_number "A" (_species_ids Example.se_family)
        + Z.of_nat (length [11%nat; 12%nat])
    ∧ (∀ r, r ∉ [11%nat; 12%nat] →
            species_at (world se') r = species_at (world Example.se_family) r)
    ∧ (∀ c', c' ≠ "A" → _species_ids se' !! c' = _species_ids Example.se_family !! c').
Proof.
  apply (children_numbered_in_order 10%nat "A" [11%nat; 12%nat] Example.se_family).
  - reflexivity.
  - exists (Some 0). reflexivity.
  - repeat constructor.
  - apply (bool_decide_unpack (NoDup [11%nat; 12%nat])). reflexivity.
Defined.

(** ** What is extant after a tick *)

Section TickQueryFacts.

Context {Env : Type} `{Co : !Collaborators Env} `{SO : !SetOrder}.

Lemma bind_Ok_inv {S A B} (m : M S A) (k : A → M S B) s b s' :
  (m ≫= k) s = Ok b s' → ∃ a s1, m s = Ok a s1 ∧ k a s1 = Ok b s'.
Proof.
  unfold mbind, M_bind. destruct (m s) as [a s1|e s1]; [|done]. by eauto.
Qed.

(** The time of a tick is the greatest recorded time plus the step. *)
Lemma zone_destinations_time dt (se s1 : SpeciesEvolver Env) t m time dests :
  od_get "time" (_record se) = Some t → py_max t = Some m →
  zone_destinations dt se = Ok (time, dests) s1 →
  time = py_add m dt.
Proof.
  intros Ht Hmax H. unfold zone_destinations in H.
  apply bind_Ok_inv in H as (t' & s' & Ht' & H).
  unfold record_time, mbind, M_bind, gets in Ht'. rewrite Ht in Ht'.
  injection Ht' as <- <-.
  rewrite Hmax in H.
  apply bind_Ok_inv in H as (m' & s' & [= <- <-] & H).
  apply bind_Ok_inv in H as (? & s' & _ & H).
  apply bind_Ok_inv in H as (? & s2 & _ & H).
  apply bind_Ok_inv in H as (? & s3 & _ & H).
  apply bind_Ok_inv in H as (? & s4 & _ & H).
  apply bind_Ok_inv in H as (? & s5 & _ & H).
  apply bind_Ok_inv in H as ([a ds] & s6 & _ & H).
  apply bind_Ok_inv in H as (? & s7 & _ & H).
  by injection H as <- _ _.
Qed.

Lemma not_before_later m tn (l : list scalar) :
  m < tn → Forall (fun x => scalar_le x (Num m)) l →
  Forall (fun x => scalar_le x (Num tn)) l
  ∧ Forall (fun x => ¬ scalar_le (Num tn) x) l.
Proof.
  intros Hlt Hl. split; (eapply Forall_impl; [exact Hl|]);
    intros [|x]; simpl; lia.
Qed.

(** X21. A tick on a zone ledger that is well-formed and does not reach
    beyond the greatest recorded time [m], whose new time [m + dt] is a
    number [tn] strictly after [m], the times of the ledger and [tn] being
    integers of magnitude at most 2^53: when the zone managers answer with
    the destinations [dests], the time of the tick is [tn], the zone step
    returns, and the zones extant at [tn] are exactly the destinations,
    each once. *)
Theorem tick_zones_are_destinations dt (se s1 : SpeciesEvolver Env) t m tn time dests :
  aligned (_zones se) → NoDup (object (_zones se)) →
  od_get "time" (_record se) = Some t → py_max t = Some (Num m) →
  py_add (Num m) dt = Num tn → m < tn →
  exact_times (_zones se) → exact_time (Num tn) →
  Forall (fun a => scalar_le a (Num m)) (time_appeared (_zones se)) →
  Forall (fun l => scalar_le l (Num m)) (latest_time (_zones se)) →
  zone_destinations dt se = Ok (time, dests) s1 →
  time = Num tn
  ∧ ∃ res s2, (process_zones dt;; zones_at_time (Num tn)) se = Ok res s2
              ∧ NoDup res ∧ ∀ z, z ∈ res ↔ z ∈ dests.
Proof.
  intros Hal Hnd Ht Hmax Hadd Hlt Hex Hext Hold Hnew Hzd.
  pose proof (zone_destinations_time _ _ _ _ _ _ _ Ht Hmax Hzd) as ->.
  rewrite Hadd in *. split; [done|].
  pose proof (preserves_final _zones _ se _
                (zone_destinations_preserves _zones dt
                   ltac:(done) ltac:(done)) Hzd) as Hz.
  cbn [final_state] in Hz.
  destruct (not_before_later m tn _ Hlt Hold) as [Hold' _].
  destruct (not_before_later m tn _ Hlt Hnew) as [_ Hnew'].
  rewrite <- Hz in Hal, Hnd, Hex, Hold', Hnew'.
  exists (extant_rows (Num tn) (reconciled (Num tn) (py_set dests) (_zones s1))),
         (set_zones (reconciled (Num tn) (py_set dests) (_zones s1)) s1).
  split; [|split].
  - erewrite bind_Ok; cycle 1.
    { rewrite process_zones_destinations.
      rewrite (bind_Ok _ _ _ _ _ Hzd).
      by rewrite (bind_Ok _ _ _ _ _ (update_zone_spec _ (py_set dests) s1 Hal Hnd)). }
    cbn beta. unfold zones_at_time. erewrite bind_Ok by reflexivity.
    cbn [_zones set_zones].
    apply objects_at_time_rows;
      [by apply reconciled_aligned|by apply reconciled_exact|done].
  - apply extant_rows_NoDup; [by apply reconciled_aligned|by apply reconciled_NoDup].
  - intros z. rewrite extant_rows_reconciled, py_set_elem; try done. simpl. lia.
Qed.

(** X22. A tick on a species ledger that is well-formed, holds species and
    does not reach beyond the greatest recorded time [m], whose new time
    [m + dt] is a number [tn] strictly after [m], the times of the ledger and
    [tn] being integers of magnitude at most 2^53: when the zone step returns
    and the species step finds the survivors, those that are new having
    received identifiers, the tick returns and the species extant at [tn]
    are exactly the survivors, each once. *)
Theorem tick_species_are_survivors dt (se s_z s_s : SpeciesEvolver Env) t m tn time
    survivors :
  species_aligned (_species se) → NoDup (object (columns (_species se))) →
  object (columns (_species se)) ≠ [] →
  od_get "time" (_record se) = Some t → py_max t = Some (Num m) →
  py_add (Num m) dt = Num tn → m < tn →
  exact_times (columns (_species se)) → exact_time (Num tn) →
  Forall (fun a => scalar_le a (Num m)) (time_appeared (columns (_species se))) →
  Forall (fun l => scalar_le l (Num m)) (latest_time (columns (_species se))) →
  process_zones dt se = Ok time s_z →
  _get_surviving_species time dt s_z = Ok survivors s_s →
  (∀ s, s ∈ survivors → s ∉ object (columns (_species se)) →
        is_Some (Species.identifier (species_at (world s_s) s))) →
  time = Num tn
  ∧ ∃ res se', (run_one_step dt;; species_at_time (Num tn)) se = Ok res se'
               ∧ NoDup res ∧ ∀ s, s ∈ res ↔ s ∈ survivors.
Proof.
  intros (Hc & Hn & Hal) Hnd Hne Ht Hmax Hadd Hlt Hex Hext Hold Hnew Hpz Hsurv Hids.
  assert (time = Num tn) as ->.
  { rewrite process_zones_destinations in Hpz.
    apply bind_Ok_inv in Hpz as ([time' dests] & s1 & Hzd & Hpz).
    apply bind_Ok_inv in Hpz as (? & s2 & _ & [= <- _]).
    by rewrite (zone_destinations_time _ _ _ _ _ _ _ Ht Hmax Hzd). }
  split; [done|].
  pose proof (preserves_final _species _ se _
                (process_zones_preserves_species dt) Hpz) as Hs1.
  pose proof (preserves_final _species _ s_z _
                (get_surviving_species_preserves _species _ dt
                   ltac:(done) ltac:(done) ltac:(done)) Hsurv) as Hs2.
  cbn [final_state] in Hs1, Hs2.
  assert (_species s_s = _species se) as Hs by congruence.
  destruct (not_before_later m tn _ Hlt Hold) as [Hold' _].
  destruct (not_before_later m tn _ Hlt Hnew) as [_ Hnew'].
  rewrite <- Hs in Hal, Hnd, Hex, Hold', Hnew', Hids. pose proof Hal as [Ha Hl].
  pose proof (update_species_spec (Num tn) survivors s_s Hl Hnd) as Hup.
  cbv zeta in Hup.
  rewrite identifiers_of_case, decide_True in Hup; cycle 1.
  { apply Forall_forall. intros s Hin.
    rewrite pyset_difference_elem, !py_set_elem in Hin. apply Hids; tauto. }
  fold (reconciled (Num tn) survivors (columns (_species s_s))) in Hup.
  eexists (extant_rows (Num tn)
             (reconciled (Num tn) survivors (columns (_species s_s)))), _.
  split; [|split].
  - unfold run_one_step. rewrite bind_assoc.
    rewrite (bind_Ok _ _ _ _ _ Hpz).
    unfold process_species at 1.
    rewrite bind_assoc. erewrite bind_Ok by reflexivity.
    rewrite decide_False by (rewrite Hs1; by destruct (object _)).
    rewrite bind_assoc, (bind_Ok _ _ _ _ _ Hsurv), (bind_Ok _ _ _ _ _ Hup).
    unfold species_at_time. erewrite bind_Ok by reflexivity.
    cbn [_species set_species columns].
    apply objects_at_time_rows;
      [by apply reconciled_aligned|by apply reconciled_exact|done].
  - apply extant_rows_NoDup; [by apply reconciled_aligned|by apply reconciled_NoDup].
  - intros s. rewrite extant_rows_reconciled; try done. simpl. lia.
Qed.

End TickQueryFacts.

Lemma tick_zones_are_destinations_witness :
  Num 1 = Num 1
  ∧ ∃ res s2,
      (process_zones (Co := Example.scripted) (SO := stable_order) (Num 1);;
       zones_at_time (Num 1)) Example.se_one_species = Ok res s2
      ∧ NoDup res ∧ ∀ z, z ∈ res ↔ z ∈ [1%nat; 2%nat].
Proof.
  apply (tick_zones_are_destinations (Co := Example.scripted) (SO := stable_order)
           (Num 1) Example.se_one_species
           (final_state (zone_destinations (Co := Example.scripted) (Num 1)
                           Example.se_one_species))
           [Num 0] 0 1 (Num 1) [1%nat; 2%nat]).
  - split; reflexivity.
  - vm_compute. apply NoDup_nil_2.
  - reflexivity.
  - reflexivity.
  - reflexivity.
  - lia.
  - split; apply Forall_nil_2.
  - solve_exact.
  - vm_compute. constructor.
  - vm_compute. constructor.
  - vm_compute. reflexivity.
Defined.

Lemma tick_species_are_survivors_witness :
  Num 1 = Num 1
  ∧ ∃ res se',
      (run_one_step (Co := Example.scripted) (SO := stable_order) (Num 1);;
       species_at_time (Num 1)) Example.se_one_species = Ok res se'
      ∧ NoDup res ∧ ∀ s, s ∈ res ↔ s ∈ [10%nat; 11%nat].
Proof.
  apply (tick_species_are_survivors (Co := Example.scripted) (SO := stable_order)
           (Num 1) Example.se_one_species
           (final_state (process_zones (Co := Example.scripted) (SO := stable_order)
                           (Num 1) Example.se_one_species))
           (final_state
              (_get_surviving_species (Co := Example.scripted) (Num 1) (Num 1)
                 (final_state (process_zones (Co := Example.scripted)
                                 (SO := stable_order) (Num 1) Example.se_one_species))))
           [Num 0] 0 1 (Num 1) [10%nat; 11%nat]).
  - repeat split; reflexivity.
  - vm_compute. apply NoDup_singleton.
  - vm_compute. discriminate.
  - reflexivity.
  - reflexivity.
  - reflexivity.
  - lia.
  - split; apply (Forall_singleton _ (Num 0)); solve_exact.
  - solve_exact.
  - apply (Forall_singleton _ (Num 0)). simpl. lia.
  - apply (Forall_singleton _ (Num 0)). simpl. lia.
  - vm_compute. reflexivity.
  - vm_compute. reflexivity.
  - intros s Hs Hn. apply elem_of_cons in Hs as [->|Hs].
    + exfalso. apply Hn. vm_compute. apply list_elem_of_singleton. reflexivity.
    + apply list_elem_of_singleton in Hs as ->. exists ("A", 1). reflexivity.
Defined.

(** ** Queries about the past *)

Section HistoryFacts.

Context {Env : Type} `{SO : !SetOrder}.

Lemma filter_nothing {A} (P : A → Prop) `{∀ x, Decision (P x)} (l : list A) :
  (∀ x, x ∈ l → ¬ P x) → filter P l = [].
Proof.
  intros Hl. apply elem_of_nil_inv. intros x [HP Hx]%list_elem_of_filter.
  by apply (Hl x).
Qed.

(** Setting the latest time of rows that reach [tp] to a later time changes
    nothing for a query at [tp]. *)
Lemma extant_rows_touched tn tp zs (a l : list scalar) (o : list ref) :
  length a = length o → length l = length o → tp < tn →
  (∀ i x l0, o !! i = Some x → x ∈ zs → l !! i = Some l0 → scalar_le (Num tp) l0) →
  extant_rows (Num tp) (Ledger a (reconciled_latest (Num tn) zs (Ledger a l o)) o)
  = extant_rows (Num tp) (Ledger a l o).
Proof.
  unfold extant_rows, ledger_rows, reconciled_latest.
  cbn [time_appeared latest_time object]. intros Ha Hl Hlt.
  revert a l Ha Hl. induction o as [|x o IH]; intros [|a0 a] [|l0 l] Ha Hl Hreach;
    try done.
  injection Ha as Ha. injection Hl as Hl.
  specialize (IH a l Ha Hl (fun i => Hreach (S i))).
  pose proof (Hreach 0%nat x l0 eq_refl) as H0.
  cbn [zip_with]. rewrite !filter_cons. cbn [fst snd].
  destruct (decide (x ∈ zs)) as [Hx|Hx].
  - specialize (H0 Hx eq_refl).
    assert (scalar_le (Num tp) (Num tn)) as Htn by (simpl; lia).
    repeat case_decide; cbn [fmap list_fmap]; first [by f_equal|tauto].
  - repeat case_decide; cbn [fmap list_fmap]; first [by f_equal|tauto].
Qed.

(** X23. A reconciliation of the zone ledger at a time [tn] does not change
    the answer to a query about an earlier time [tp], provided the zones of
    the collection that are tracked were last seen at [tp] or later, and the
    times of the ledger, [tp] and [tn] are integers of magnitude at most
    2^53 (or the sentinel, in the ledger): the rows appended appear after
    [tp], and a latest time is only moved from one time not before [tp] to
    another. *)
Theorem past_queries_stable tn tp zs (se : SpeciesEvolver Env) :
  aligned (_zones se) → NoDup (object (_zones se)) →
  exact_times (_zones se) → exact_time (Num tp) → exact_time (Num tn) →
  tp < tn →
  (∀ i z l0, object (_zones se) !! i = Some z → z ∈ zs →
             latest_time (_zones se) !! i = Some l0 → scalar_le (Num tp) l0) →
  ∃ res se',
    zones_at_time (Num tp) se = Ok res se
    ∧ (_update_zone_data_structure (Num tn) zs;; zones_at_time (Num tp)) se = Ok res se'.
Proof.
  intros Hal Hnd Hex Hetp Hetn Hlt Hreach. pose proof Hal as [Ha Hl].
  exists (extant_rows (Num tp) (_zones se)),
         (set_zones (reconciled (Num tn) zs (_zones se)) se).
  split.
  - unfold zones_at_time. erewrite bind_Ok by reflexivity.
    by apply objects_at_time_rows.
  - rewrite (bind_Ok _ _ _ _ _ (update_zone_spec (Num tn) zs se Hal Hnd)).
    unfold zones_at_time. erewrite bind_Ok by reflexivity.
    cbn [_zones set_zones].
    rewrite objects_at_time_rows;
      [|by apply reconciled_aligned|by apply reconciled_exact|done].
    f_equal. unfold reconciled, extant_rows.
    rewrite ledger_rows_extend
      by (split; simpl; [done|by apply reconciled_latest_length]).
    rewrite filter_app, fmap_app.
    rewrite (filter_nothing _ (_ <$> _)); cycle 1.
    { intros r (z & -> & _)%list_elem_of_fmap. simpl. lia. }
    rewrite app_nil_r.
    destruct (_zones se) as [a l o]. simpl in *.
    by apply (extant_rows_touched tn tp zs a l o).
Qed.

End HistoryFacts.

Lemma past_queries_stable_witness :
  ∃ res se',
    zones_at_time (Num 2) Example.se_three_zones = Ok res Example.se_three_zones
    ∧ (_update_zone_data_structure (SO := stable_order) (Num 4) [3%nat; 4%nat];;
       zones_at_time (Num 2)) Example.se_three_zones = Ok res se'.
Proof.
  apply (past_queries_stable (SO := stable_order) 4 2 [3%nat; 4%nat]
           Example.se_three_zones).
  - split; reflexivity.
  - apply (bool_decide_unpack (NoDup [1%nat; 2%nat; 3%nat])). reflexivity.
  - solve_exact.
  - solve_exact.
  - solve_exact.
  - lia.
  - intros [|[|[|i]]] z l0; simpl; intros [= <-] Hz [= <-]; simpl; try lia.
    apply elem_of_cons in Hz as [?|Hz]; [done|].
    by apply list_elem_of_singleton in Hz.
Defined.

(** ** Failures of the species update and of the queries *)

Section FailureFacts.

Context {Env : Type} `{SO : !SetOrder}.

(** X24. The update of the species ledger is not atomic: when a survivor
    that is not tracked has no identifier the call raises [TypeError]
    without appending a row, but the survivors that are tracked have
    already received the new latest time, which is not undone. *)
Theorem species_update_fails_after_touching time survivors s (se : SpeciesEvolver Env) :
  species_aligned (_species se) → NoDup (object (columns (_species se))) →
  s ∈ survivors → s ∉ object (columns (_species se)) →
  Species.identifier (species_at (world se) s) = None →
  ∃ se',
    _update_species_data_structure time survivors se
    = Raise (TypeError "'NoneType' object is not subscriptable") se'
    ∧ clade (_species se') = clade (_species se)
    ∧ species_number (_species se') = species_number (_species se)
    ∧ time_appeared (columns (_species se')) = time_appeared (columns (_species se))
    ∧ object (columns (_species se')) = object (columns (_species se))
    ∧ ∀ i o l0, object (columns (_species se)) !! i = Some o →
                latest_time (columns (_species se)) !! i = Some l0 →
                latest_time (columns (_species se')) !! i
                = Some (if decide (o ∈ survivors) then time else l0).
Proof.
  intros (Hc & Hn & Ha & Hl) Hnd Hs Hnew Hnone.
  pose proof (update_species_spec time survivors se Hl Hnd) as Hup. cbv zeta in Hup.
  rewrite identifiers_of_case, decide_False in Hup; cycle 1.
  { rewrite Forall_forall. intros Hall.
    destruct (Hall s) as [sid Hsid]; [|congruence].
    rewrite pyset_difference_elem, !py_set_elem. done. }
  eexists. split; [exact Hup|].
  cbn [_species set_species_columns set_species clade species_number columns
       time_appeared latest_time object].
  split_and!; try done.
  intros i o l0 Ho Hl0.
  rewrite (reconciled_latest_lookup time survivors _ i o Hl Ho), Hl0.
  by case_decide.
Qed.

(** X25. On a species ledger with aligned columns, a key that is neither a
    tuple, a string nor an integer is refused with the [TypeError] of the
    last branch, and so is a boolean, whose type is not [int]; a tuple of two
    or more elements is refused with the [TypeError] of the tuple branch
    unless it is a pair of a string and an integer, where a boolean counts as
    an integer; the state is left as it was. *)
Theorem malformed_keys_raise_TypeError (se : SpeciesEvolver Env) :
  species_aligned (_species se) →
  (∀ key, match key with PyTuple _ | PyStr _ | PyInt _ => False | _ => True end →
          species_with_identifier key se = Raise (TypeError type_message) se)
  ∧ (∀ c n rest,
       species_with_identifier (PyTuple (c :: n :: rest)) se
       = Raise (TypeError tuple_message) se
       ↔ ¬ (rest = [] ∧ isinstance_str c = true ∧ isinstance_int n = true))
  ∧ (∀ c b, outcome (species_with_identifier (PyTuple [PyStr c; PyBool b]) se) = None).
Proof.
  intros (Hc & Hn & Ha & Hl).
  destruct (rows_from_total 0 (clade (_species se)) (species_number (_species se))
              (time_appeared (columns (_species se)))
              (latest_time (columns (_species se)))
              (object (columns (_species se)))) as [rows Hrows]; try done.
  fold (DataFrame (_species se)) in Hrows.
  unfold species_with_identifier, mbind, M_bind, gets. rewrite Hrows.
  cbn [or_raise mret M_ret]. split_and!.
  - by intros [ | | | | | | ] Hk.
  - intros c n rest. cbn [lookup list_lookup or_raise mret M_ret length].
    destruct rest as [|x rest].
    + rewrite bool_decide_eq_true_2 by done.
      destruct (isinstance_str c) eqn:Ec, (isinstance_int n) eqn:En; cbn.
      * split; [|tauto]. by case_decide.
      * split; [intros _ (_ & _ & ?); done|done].
      * split; [intros _ (_ & ? & _); done|done].
      * split; [intros _ (_ & ? & _); done|done].
    + rewrite bool_decide_eq_false_2 by (simpl; lia). cbn.
      split; [intros _ (? & _); done|done].
  - intros c b. cbn [lookup list_lookup or_raise mret M_ret length].
    rewrite bool_decide_eq_true_2 by done. cbn. by case_decide.
Qed.

End FailureFacts.

Lemma species_update_fails_after_touching_witness :
  ∃ se',
    _update_species_data_structure (SO := stable_order) (Num 1) [10%nat; 11%nat]
      Example.se_one_species
    = Raise (TypeError "'NoneType' object is not subscriptable") se'
    ∧ clade (_species se') = clade (_species Example.se_one_species)
    ∧ species_number (_species se') = species_number (_species Example.se_one_species)
    ∧ time_appeared (columns (_species se'))
      = time_appeared (columns (_species Example.se_one_species))
    ∧ object (columns (_species se')) = object (columns (_species Example.se_one_species))
    ∧ ∀ i o l0, object (columns (_species Example.se_one_species)) !! i = Some o →
                latest_time (columns (_species Example.se_one_species)) !! i = Some l0 →
                latest_time (columns (_species se')) !! i
                = Some (if decide (o ∈ [10%nat; 11%nat]) then Num 1 else l0).
Proof.
  apply (species_update_fails_after_touching (SO := stable_order) (Num 1)
           [10%nat; 11%nat] 11%nat Example.se_one_species).
  - repeat split; reflexivity.
  - vm_compute. apply NoDup_singleton.
  - apply elem_of_cons. right. apply list_elem_of_singleton. reflexivity.
  - vm_compute. intros Hin. apply list_elem_of_singleton in Hin. discriminate.
  - reflexivity.
Defined.

Lemma malformed_keys_raise_TypeError_witness :
  species_with_identifier PyNone Example.se_one_species
  = Raise (TypeError type_message) Example.se_one_species.
Proof.
  apply (proj1 (malformed_keys_raise_TypeError Example.se_one_species
                  ltac:(repeat split; reflexivity)) PyNone).
  exact I.
Defined.
